(** * iceberk: the numeric primitives and the feature pipeline

    A shallow embedding of [mathutil.py] and of the layer, trainer and
    encoder classes of [pipeline.py].  Floating-point entries are held as
    exact rationals [Q]; numpy arrays keep their shape, strides and flat
    storage where the code depends on them ([gemm]), and are held as their
    2-D row view where the code only ever works on that view (encoders). *)

From stdpp Require Import base option list strings gmap.
From stdpp Require Import sorting.
From Stdlib Require Import ZArith QArith Qminmax Qabs Lqa Lia Arith Bool List Permutation.
From Stdlib Require Import Qround.
From Equations Require Import Equations.
Import ListNotations.

Local Open Scope Q_scope.

(** ** Python exceptions and the error monad *)

Inductive exn : Type :=
| TypeError
| ValueError
| IndexError
| KeyError
| RuntimeError
| NotImplementedError
| LinAlgError.

Inductive result (A : Type) : Type :=
| Ok (a : A)
| Raise (e : exn).

Arguments Ok {A} a.
Arguments Raise {A} e.

Definition bind {A B : Type} (r : result A) (k : A -> result B) : result B :=
  match r with
  | Ok a => k a
  | Raise e => Raise e
  end.

Notation "'do' x <- r ; k" := (bind r (fun x => k))
  (at level 10, x pattern, r at level 100, k at level 200).

Fixpoint mapM {A B : Type} (f : A -> result B) (l : list A) : result (list B) :=
  match l with
  | [] => Ok []
  | a :: l' => do b <- f a; do bs <- mapM f l'; Ok (b :: bs)
  end.

(** ** Rational sums *)

(** [sumQ n f] is the accumulator loop [for l in range(n): acc += f(l)]. *)
Fixpoint sumQ (n : nat) (f : nat -> Q) : Q :=
  match n with
  | O => 0
  | S n' => sumQ n' f + f n'
  end.

Definition Qsum (l : list Q) : Q := fold_right Qplus 0 l.

Definition dotQ (u v : list Q) : Q := Qsum (zip_with Qmult u v).

Definition Qnonzero (q : Q) : bool := negb (Qeq_bool q 0).


(** ** numpy arrays with explicit storage *)

Inductive dtype : Type :=
| Float32
| Float64
| Int64.

Definition dtype_eqb (a b : dtype) : bool :=
  match a, b with
  | Float32, Float32 | Float64, Float64 | Int64, Int64 => true
  | _, _ => false
  end.

(** An array is a view on a flat buffer: entry [(i, j)] of a 2-D array is
    [data[offset + i * strides[0] + j * strides[1]]] (strides counted in
    elements). *)
Record ndarray : Type := mk_ndarray {
  nd_dtype : dtype;
  nd_shape : list nat;
  nd_strides : list nat;
  nd_offset : nat;
  nd_data : list Q
}.

Definition ndim (a : ndarray) : nat := length (nd_shape a).

(** numpy's contiguity test: walking the axes from the fastest one, every
    axis of extent other than 1 must have the stride accumulated so far. *)
Fixpoint contig_from (dims strides : list nat) (sd : nat) : bool :=
  match dims, strides with
  | [], [] => true
  | d :: ds, s :: ss => ((d =? 1)%nat || (s =? sd)%nat) && contig_from ds ss (sd * d)
  | _, _ => false
  end.

Definition has_zero_dim (a : ndarray) : bool := existsb (Nat.eqb 0) (nd_shape a).

Definition C_CONTIGUOUS (a : ndarray) : bool :=
  has_zero_dim a || contig_from (rev (nd_shape a)) (rev (nd_strides a)) 1.

Definition F_CONTIGUOUS (a : ndarray) : bool :=
  has_zero_dim a || contig_from (nd_shape a) (nd_strides a) 1.

(** [a.T]: the same buffer, with shape and strides reversed. *)
Definition T (a : ndarray) : ndarray :=
  mk_ndarray (nd_dtype a) (rev (nd_shape a)) (rev (nd_strides a)) (nd_offset a) (nd_data a).

(** [a[i, j]] of a 2-D array. *)
Definition get2 (a : ndarray) (i j : nat) : Q :=
  match nd_strides a with
  | [s0; s1] => nth (nd_offset a + i * s0 + j * s1) (nd_data a) 0
  | _ => 0
  end.

(** Entry [(i, j)] of a 2-D array held as rows. *)
Definition entry (M : list (list Q)) (i j : nat) : Q := nth j (nth i M []) 0.

Definition nrows (a : ndarray) : nat := nth 0 (nd_shape a) O.
Definition ncols (a : ndarray) : nat := nth 1 (nd_shape a) O.

(** The rows of a 2-D array, as nested lists. *)
Definition to_rows (a : ndarray) : list (list Q) :=
  map (fun i => map (fun j => get2 a i j) (seq 0 (ncols a))) (seq 0 (nrows a)).

(** A fresh row-major array holding the given rows. *)
Definition of_rows (dt : dtype) (m n : nat) (rows : list (list Q)) : ndarray :=
  mk_ndarray dt [m; n] [n; 1%nat] 0
    (map (fun p => nth (p mod n) (nth (p / n) rows []) 0) (seq 0 (m * n))).

(** ** Index and mask assignment *)

Definition Qltb (a b : Q) : bool := negb (Qle_bool b a).

Definition Qnat (n : nat) : Q := inject_Z (Z.of_nat n).

(** [data[idx] = vals] with an integer index array: the assignments happen
    in order, so a repeated index keeps the last value written to it. *)
Fixpoint assign_at {A : Type} (data : list A) (idx : list nat) (vals : list A)
    : result (list A) :=
  match idx, vals with
  | [], [] => Ok data
  | i :: idx', v :: vals' =>
      if (i <? length data)%nat then assign_at (<[i := v]> data) idx' vals'
      else Raise IndexError
  | _, _ => Raise ValueError
  end.

(** [a[mask]] with a boolean mask. *)
Fixpoint select {A : Type} (mask : list bool) (a : list A) : list A :=
  match mask, a with
  | b :: mask', x :: a' => if b then x :: select mask' a' else select mask' a'
  | _, _ => []
  end.

(** [inspect x] keeps the equation [x = y] while matching on [x]. *)
Definition inspect {A : Type} (x : A) : {y : A | x = y} := exist _ x eq_refl.

Definition count_true (mask : list bool) : nat := length (filter id mask).

(** ** Values of a [specs] dictionary *)

Inductive pyval : Type :=
| PyNone
| PyBool (b : bool)
| PyInt (z : Z)
| PyFloat (q : Q)
| PyStr (s : string)
| PyArr (a : list Q).

(** Python truth value ([if v:]); an array of several entries has none. *)
Definition truthy (v : pyval) : result bool :=
  match v with
  | PyNone => Ok false
  | PyBool b => Ok b
  | PyInt z => Ok (negb (z =? 0)%Z)
  | PyFloat q => Ok (Qnonzero q)
  | PyStr s => Ok (negb (String.eqb s ""))
  | PyArr [] => Ok false
  | PyArr [q] => Ok (Qnonzero q)
  | PyArr _ => Raise ValueError
  end.

(** [v == 'abs']. *)
Definition is_str (v : pyval) (s : string) : bool :=
  match v with
  | PyStr s' => String.eqb s' s
  | _ => false
  end.

(** The value as a number in arithmetic with a float array. *)
Definition as_float (v : pyval) : result Q :=
  match v with
  | PyBool b => Ok (if b then 1 else 0)
  | PyInt z => Ok (inject_Z z)
  | PyFloat q => Ok q
  | _ => Raise TypeError
  end.

(** The value as an array extent or slice bound. *)
Definition as_int (v : pyval) : result Z :=
  match v with
  | PyBool b => Ok (if b then 1%Z else 0%Z)
  | PyInt z => Ok z
  | _ => Raise TypeError
  end.

(** The value as a 1-D float array. *)
Definition as_vector (v : pyval) : result (list Q) :=
  match v with
  | PyArr a => Ok a
  | PyBool _ | PyInt _ | PyFloat _ => do q <- as_float v; Ok [q]
  | _ => Raise TypeError
  end.

(** [specs.get(key, dflt)]. *)
Definition specs_get (specs : gmap string pyval) (key : string) (dflt : pyval) : pyval :=
  default dflt (specs !! key).

(** [specs[key]]. *)
Definition specs_item (specs : gmap string pyval) (key : string) : result pyval :=
  match specs !! key with
  | Some v => Ok v
  | None => Raise KeyError
  end.

(** [np.finfo(np.float64).eps = 2^-52]. *)
Definition float64_eps : Q := 1 # (2 ^ 52).

(** ** Images and row-wise array operations *)

Definition prod (shape : list nat) : nat := fold_right Nat.mul 1%nat shape.

(** An image of shape [lead + (width,)], held as the rows of its 2-D view
    [image.reshape((np.prod(lead), width))]. *)
Record image : Type := mk_image {
  im_dtype : dtype;
  im_c_contiguous : bool;
  im_lead : list nat;
  im_width : nat;
  im_rows : list (list Q)
}.

Definition im_shape (im : image) : list nat := im_lead im ++ [im_width im].

(** [image.reshape((np.prod(shape), width))] as an array with storage. *)
Definition image_2d (im : image) : ndarray :=
  of_rows (im_dtype im) (prod (im_lead im)) (im_width im) (im_rows im).

(** A 2-D float64 array built from rows, row-major. *)
Definition array_of (n : nat) (rows : list (list Q)) : ndarray :=
  of_rows Float64 (length rows) n rows.

(** [M op v] for a 2-D [M] and a 1-D [v], by numpy's broadcasting; the
    in-place form [M op= v] cannot widen [M]. *)
Definition broadcast_rows (inplace : bool) (op : Q -> Q -> Q) (width : nat)
    (M : list (list Q)) (v : list Q) : result (list (list Q)) :=
  if (length v =? width)%nat then Ok (map (fun row => zip_with op row v) M)
  else match v with
       | [x] => Ok (map (map (fun a => op a x)) M)
       | _ => if (width =? 1)%nat && negb inplace
              then Ok (map (fun row => map (op (nth 0 row 0)) v) M)
              else Raise ValueError
       end.

(** The width of [M op v] when [M] has the given width. *)
Definition broadcast_width (width : nat) (v : list Q) : nat :=
  match v with
  | [_] => width
  | _ => length v
  end.

(** [a.argmin()] of a 1-D array: the first index attaining the minimum. *)
Fixpoint argmin_from (best_i : nat) (best : Q) (i : nat) (l : list Q) : nat :=
  match l with
  | [] => best_i
  | x :: l' =>
      if Qltb x best then argmin_from i x (S i) l'
      else argmin_from best_i best (S i) l'
  end.

Definition argmin (l : list Q) : result nat :=
  match l with
  | [] => Raise ValueError
  | x :: l' => Ok (argmin_from 0 x 1 l')
  end.

(** [row[idx] = vals]: a scalar-free fancy assignment into one row; a
    single value is broadcast to every index. *)
Definition assign_row (row : list Q) (idx : list nat) (vals : list Q) : result (list Q) :=
  match vals with
  | [x] => assign_at row idx (map (fun _ => x) idx)
  | _ => assign_at row idx vals
  end.

(** ** Vector and matrix sums *)

Definition vadd (u v : list Q) : list Q := zip_with Qplus u v.

Definition vzero (n : nat) : list Q := repeat 0 n.

(** [data.sum(0)]: the column sums of a 2-D array. *)
Definition sum0 (data : ndarray) : list Q :=
  fold_right vadd (vzero (ncols data)) (to_rows data).

Definition madd (A B : list (list Q)) : list (list Q) := zip_with vadd A B.

(** ** Collective communication *)

Module mpi.

(** [COMM.Allreduce] of a vector: every worker contributes its own buffer
    (listed in rank order) and receives the element-wise sum; the buffers
    must have one length. *)
Definition Allreduce_vec (n : nat) (contrib : list (list Q)) : result (list Q) :=
  if forallb (fun v => (length v =? n)%nat) contrib
  then Ok (fold_right vadd (vzero n) contrib)
  else Raise ValueError.

Definition Allreduce_mat (n : nat) (contrib : list (list (list Q)))
    : result (list (list Q)) :=
  if forallb (fun M => (length M =? n)%nat && forallb (fun v => (length v =? n)%nat) M) contrib
  then Ok (fold_right madd (repeat (vzero n) n) contrib)
  else Raise ValueError.

(** [COMM.allreduce] of an integer. *)
Definition allreduce_nat (contrib : list nat) : nat := fold_right Nat.add 0%nat contrib.

Definition is_root (rank : nat) : bool := (rank =? 0)%nat.

(** [COMM.bcast(v)]: every worker receives the root's value. *)
Definition bcast {A : Type} (at_rank : nat -> result A) : result A := at_rank 0%nat.

End mpi.

(** * [mathutil.py] *)

Module mathutil.

(** ** [gemm] *)

Section Gemm.

(** Rounding of a value to the precision of a dtype ([np.asarray(A, dtype)]). *)
Variable cast : dtype -> Q -> Q.

(** [np.asarray(a, dtype=dt)] when the dtype differs: a converted copy in a
    fresh row-major buffer. *)
Definition asarray (a : ndarray) (dt : dtype) : ndarray :=
  of_rows dt (nrows a) (ncols a) (map (map (cast dt)) (to_rows a)).

(** [op(a)[i, j]] of a BLAS operand with its transpose flag. *)
Definition op_get (a : ndarray) (trans : bool) (i j : nat) : Q :=
  if trans then get2 a j i else get2 a i j.

Definition op_rows (a : ndarray) (trans : bool) : nat :=
  if trans then ncols a else nrows a.

Definition op_cols (a : ndarray) (trans : bool) : nat :=
  if trans then nrows a else ncols a.

(** Entry [(i, j)] of [alpha * op(a) * op(b)]. *)
Definition gemm_entry (alpha : Q) (a b : ndarray) (trans_a trans_b : bool)
    (i j : nat) : Q :=
  alpha * sumQ (op_cols a trans_a) (fun l => op_get a trans_a i l * op_get b trans_b l j).

(** [scipy.linalg.fblas.dgemm] / [sgemm] called as
    [gemm(alpha, a, b, trans_a=, trans_b=)]: the product
    [alpha * op(a) * op(b)] in a fresh column-major array. *)
Definition fblas_gemm (dt : dtype) (alpha : Q) (a b : ndarray)
    (trans_a trans_b : bool) : result ndarray :=
  let m := op_rows a trans_a in
  let n := op_cols b trans_b in
  if negb (op_rows b trans_b =? op_cols a trans_a)%nat then Raise ValueError
  else Ok (mk_ndarray dt [m; n] [1%nat; m] 0
             (map (fun p => gemm_entry alpha a b trans_a trans_b (p mod m) (p / m))
                  (seq 0 (m * n)))).

(** The same kernel called as [gemm(alpha, a, b, 0.0, c, trans_a, trans_b, True)]:
    the product overwrites the column-major array [c] in place. *)
Definition fblas_gemm_into (alpha : Q) (a b c : ndarray)
    (trans_a trans_b : bool) : result ndarray :=
  let m := op_rows a trans_a in
  let n := op_cols b trans_b in
  if negb (op_rows b trans_b =? op_cols a trans_a)%nat then Raise ValueError
  else if negb ((nrows c =? m)%nat && (ncols c =? n)%nat) then Raise ValueError
  else Ok (mk_ndarray (nd_dtype c) (nd_shape c) (nd_strides c) (nd_offset c)
             (firstn (nd_offset c) (nd_data c)
              ++ map (fun p => gemm_entry alpha a b trans_a trans_b (p mod m) (p / m))
                     (seq 0 (m * n))
              ++ skipn (nd_offset c + m * n) (nd_data c))).

Definition is_float (dt : dtype) : bool :=
  match dt with
  | Float32 | Float64 => true
  | Int64 => false
  end.

(** The operands handed to the kernel: each input as it is when it is
    column-major, and its transposed view otherwise, with the matching
    transpose flag. *)
Definition gemm_operand (X : ndarray) : ndarray * bool :=
  if negb (F_CONTIGUOUS X) then (T X, false) else (X, true).

Definition gemm (alpha : Q) (A B : ndarray) (dtype_arg : option dtype)
    (out : option ndarray) : result ndarray :=
  if negb (ndim A =? 2)%nat || negb (ndim B =? 2)%nat then Raise TypeError
  else
    let dt := match dtype_arg with None => nd_dtype A | Some d => d end in
    if negb (is_float dt) then Raise TypeError
    else if negb (F_CONTIGUOUS A || C_CONTIGUOUS A)
            || negb (F_CONTIGUOUS B || C_CONTIGUOUS B) then Raise TypeError
    else
      let A := if negb (dtype_eqb (nd_dtype A) dt) then asarray A dt else A in
      let B := if negb (dtype_eqb (nd_dtype B) dt) then asarray B dt else B in
      let '(B, trans_b) := gemm_operand B in
      let '(A, trans_a) := gemm_operand A in
      match out with
      | None =>
          do R <- fblas_gemm dt alpha B A trans_b trans_a; Ok (T R)
      | Some out =>
          if negb (dtype_eqb (nd_dtype out) dt) then Raise TypeError
          else if negb (C_CONTIGUOUS out) then Raise TypeError
          else
            do R <- fblas_gemm_into alpha B A (T out) trans_b trans_a; Ok (T R)
      end.

Definition dot (A B : ndarray) : result ndarray := gemm 1 A B None None.

Definition dot_image (im : image) (B : ndarray) : result image :=
  if negb (im_c_contiguous im) then Raise TypeError
  else
    do output <- gemm 1 (image_2d im) B None None;
    Ok (mk_image (nd_dtype output) true (im_lead im) (ncols B) (to_rows output)).

End Gemm.

(** The naive triple loop: [C[i][j] = alpha * sum_l A[i][l] * B[l][j]]. *)
Definition naive_gemm (alpha : Q) (m k n : nat) (A B : nat -> nat -> Q) : list (list Q) :=
  map (fun i => map (fun j => alpha * sumQ k (fun l => A i l * B l j)) (seq 0 n)) (seq 0 m).


(** ** [ReservoirSampler] *)

Module ReservoirSampler.

(** A feature batch: [trail] is [feature.shape[1:]], [rows] the entries
    [feature[0], feature[1], ...]. *)
Record batch (row : Type) : Type := mk_batch {
  trail : list nat;
  rows : list row
}.

Arguments mk_batch {row} trail rows.
Arguments trail {row} _.
Arguments rows {row} _.

(** The sampler object; [_data] is [None] until the first batch arrives and
    then holds the trailing shape and the [_num_samples] slots. *)
Record t (row : Type) : Type := mk {
  _num_samples : nat;
  _current : nat;
  _data : option (list nat * list row)
}.

Arguments mk {row} _num_samples _current _data.
Arguments _num_samples {row} _.
Arguments _current {row} _.
Arguments _data {row} _.

Section Sampler.

Context {row : Type}.

(** What [np.empty] leaves in slot [i]. *)
Variable uninit : nat -> row.

(** The state of [np.random]; [rand g n] draws [n] uniforms of [[0, 1)] and
    [randint g high size] draws [size] integers of [[0, high)]. *)
Variable G : Type.
Variable rand : G -> nat -> list Q * G.
Variable randint : G -> nat -> nat -> list nat * G.

Definition __init__ (num_samples : nat) : t row := mk num_samples 0 None.

Definition list_eqb (a b : list nat) : bool := bool_decide (a = b).

(** The first lines of [consider]: allocate on the first call, check the
    trailing shape on the later ones. *)
Definition prepare (s : t row) (feature : batch row) : result (list row) :=
  match _data s with
  | None => Ok (map uninit (seq 0 (_num_samples s)))
  | Some (shape, data) =>
      if negb (list_eqb shape (trail feature)) then Raise ValueError else Ok data
  end.

(** The acceptance mask of a full reservoir: row [j] of the batch is kept
    when its uniform is below [num_samples / (current + 1 + j)]. *)
Definition selection (s : t row) (us : list Q) (batch_size : nat) : list bool :=
  map (fun j => Qltb (nth j us 0) (Qnat (_num_samples s) / Qnat (_current s + 1 + j)))
      (seq 0 batch_size).

(** The sampler after [data[current:current+count] = feature[:count]] and
    [current += count]. *)
Definition filled (s : t row) (feature : batch row) (data : list row) (count : nat)
    : t row :=
  mk (_num_samples s) (_current s + count)
     (Some (trail feature,
            firstn (_current s) data ++ firstn count (rows feature)
            ++ skipn (_current s + count) data)).

Equations? consider (g : G) (s : t row) (feature : batch row) : result (t row * G)
  by wf (length (rows feature)) lt :=
consider g s feature with prepare s feature := {
  | Raise e := Raise e
  | Ok data with inspect (_num_samples s <=? _current s)%nat := {
    | exist _ true _ :=
        let batch_size := length (rows feature) in
        let '(us, g) := rand g batch_size in
        let selected := selection s us batch_size in
        let count := count_true selected in
        let '(slots, g) := randint g (_num_samples s) count in
        do data <- assign_at data slots (select selected (rows feature));
        Ok (mk (_num_samples s) (_current s + batch_size)
               (Some (trail feature, data)), g)
    | exist _ false Hfill with
        inspect (Nat.min (_num_samples s - _current s) (length (rows feature))) := {
      | exist _ count Hcount with inspect (count <? length (rows feature))%nat := {
        | exist _ true Hrest :=
            consider g
              (filled s feature data count)
              (mk_batch (trail feature) (skipn count (rows feature)))
        | exist _ false _ :=
            Ok (filled s feature data count, g) } } } }.
Proof.
  simpl. rewrite length_skipn.
  apply Nat.leb_gt in Hfill. apply Nat.ltb_lt in Hrest. lia.
Qed.

Definition num_considered (s : t row) : nat := _current s.

(** [get()]; before the first batch [_data] is still [None], which cannot
    be sliced. *)
Definition get (s : t row) : result (option (list row)) :=
  if (_current s <? _num_samples s)%nat then
    match _data s with
    | None => Raise TypeError
    | Some (_, data) => Ok (Some (firstn (_current s) data))
    end
  else Ok (option_map snd (_data s)).

(** A run of [consider] calls, one per batch. *)
Fixpoint consider_all (g : G) (s : t row) (batches : list (batch row))
    : result (t row * G) :=
  match batches with
  | [] => Ok (s, g)
  | f :: rest => do sg <- consider g s f; consider_all (snd sg) (fst sg) rest
  end.

End Sampler.

End ReservoirSampler.

(** *** Statistics across workers *)

Section Stats.

Variable cast : dtype -> Q -> Q.

(** The shards of all workers, in rank order; [rank] is the calling worker. *)
Variable world : list ndarray.
Variable rank : nat.

Definition local_data : result ndarray :=
  match world !! rank with
  | Some data => Ok data
  | None => Raise IndexError
  end.

(** [mpi_mean(data)].  When no worker holds a row, numpy divides by zero
    and returns [nan]s: the quotient below stands for numpy's one only
    when [num_data] is positive. *)
Definition mpi_mean : result (list Q) :=
  do data <- local_data;
  do m <- mpi.Allreduce_vec (ncols data) (map sum0 world);
  let num_data := mpi.allreduce_nat (map nrows world) in
  Ok (map (fun x => x / Qnat num_data) m).

(** [dot(data_centered.T, data_centered)] of one worker, for the global mean [m]. *)
Definition cov_local (m : list Q) (data : ndarray) : result (list (list Q)) :=
  do centered <- broadcast_rows false Qminus (ncols data) (to_rows data) m;
  let data_centered :=
    of_rows (nd_dtype data) (nrows data) (broadcast_width (ncols data) m) centered in
  do R <- dot cast (T data_centered) data_centered;
  Ok (to_rows R).

Definition mpi_cov : result (list (list Q)) :=
  do m <- mpi_mean;
  do data <- local_data;
  do locals <- mapM (cov_local m) world;
  do covmat <- mpi.Allreduce_mat (length m) locals;
  let num_data := mpi.allreduce_nat (map nrows world) in
  Ok (map (map (fun x => x / Qnat num_data)) covmat).

(** Modelled from the spec: [mathutil.mpi_meancov], which [PcaTrainer.train]
    calls and [mathutil.py] does not define; the trainer is to "compute
    global mean and covariance" with the distributed statistics, so the
    pair of [mpi_mean] and [mpi_cov]. *)
Definition mpi_meancov : result (list Q * list (list Q)) :=
  do m <- mpi_mean;
  do covmat <- mpi_cov;
  Ok (m, covmat).

(** [data_centered **= 2; data_centered.sum(0)] of one worker, for the
    global mean [m]. *)
Definition std_local (m : list Q) (data : ndarray) : result (list Q) :=
  do centered <- broadcast_rows false Qminus (ncols data) (to_rows data) m;
  let squared := map (map (fun x => x * x)) centered in
  Ok (fold_right vadd (vzero (broadcast_width (ncols data) m)) squared).

Definition mpi_std : result (list Q) :=
  do m <- mpi_mean;
  do data <- local_data;
  do locals <- mapM (std_local m) world;
  do std <- mpi.Allreduce_vec (broadcast_width (ncols data) m) locals;
  let num_data := mpi.allreduce_nat (map nrows world) in
  Ok (map (fun x => x / Qnat num_data) std).

End Stats.

End mathutil.

(** * [pipeline.py] *)

Module pipeline.

(** A trained dictionary: a matrix of entries, or the pair [(W, b)] of a
    linear encoder. *)
Inductive dict : Type :=
| DMatrix (D : ndarray)
| DPair (W : list (list Q)) (b : list Q).

(** The second component of what a trainer returns. *)
Inductive misc : Type :=
| MiscPca (eigval : list Q) (eigvec covmat : list (list Q))
| MiscOther.

(** [np.dot(A, B)] of two 2-D arrays held as rows, [B] of width [n]. *)
Definition np_dot (n : nat) (A B : list (list Q)) : list (list Q) :=
  map (fun a => map (fun j => sumQ (length B) (fun l => nth l a 0 * nth j (nth l B []) 0))
                    (seq 0 n)) A.

(** [M.T] of a 2-D array of width [n] held as rows. *)
Definition transpose (n : nat) (M : list (list Q)) : list (list Q) :=
  map (fun j => map (fun row => nth j row 0) M) (seq 0 n).

(** The width of a 2-D array held as rows. *)
Definition width (M : list (list Q)) : nat :=
  match M with
  | [] => 0%nat
  | row :: _ => length row
  end.

(** ** Dictionary trainers *)

Module PcaTrainer.

Section Trainer.

Variable cast : dtype -> Q -> Q.

(** [np.sqrt] on floats and [np.linalg.eigh], as given. *)
Variable sqrt : Q -> Q.
Variable eigh : list (list Q) -> list Q * list (list Q).

(** The patch batches of all workers in rank order, and the calling worker. *)
Variable world : list ndarray.
Variable rank : nat.

(** What the worker of rank [r] holds after the [if mpi.is_root()] block:
    [(eigval, eigvec, W)], all [None] away from the root.  Where a divisor
    [sqrt(max(eigval, 0)) + reg] is zero, numpy returns [inf] or [nan]: the
    quotient below stands for numpy's one only where no divisor is zero. *)
Definition root_block (specs : gmap string pyval) (covmat : list (list Q)) (r : nat)
    : result (option (list Q * list (list Q) * list (list Q))) :=
  if mpi.is_root r then
    let '(eigval, eigvec) := eigh covmat in
    do reg <- as_float (specs_get specs "reg" (PyFloat float64_eps));
    do W <- broadcast_rows false Qdiv (width eigvec)
              (map (map (fun x => x * 1)) eigvec)
              (map (fun l => sqrt (Qmax l 0) + reg) eigval);
    Ok (Some (eigval, eigvec, W))
  else Ok None.

Definition train (specs : gmap string pyval)
    : result ((list (list Q) * list Q) * (list Q * list (list Q) * list (list Q))) :=
  do mc <- mathutil.mpi_meancov cast world rank;
  let '(m, covmat) := mc in
  let held := root_block specs covmat in
  do W <- mpi.bcast (fun r => do h <- held r; Ok (option_map (fun t => snd t) h));
  do eigval <- mpi.bcast (fun r => do h <- held r; Ok (option_map (fun t => fst (fst t)) h));
  do eigvec <- mpi.bcast (fun r => do h <- held r; Ok (option_map (fun t => snd (fst t)) h));
  match W, eigval, eigvec with
  | Some W, Some eigval, Some eigvec => Ok ((W, map Qopp m), (eigval, eigvec, covmat))
  | _, _, _ => Raise TypeError
  end.

End Trainer.

End PcaTrainer.

Module ZcaTrainer.

Section Trainer.

Variable cast : dtype -> Q -> Q.
Variable sqrt : Q -> Q.
Variable eigh : list (list Q) -> list Q * list (list Q).
Variable world : list ndarray.
Variable rank : nat.

Definition train (specs : gmap string pyval)
    : result ((list (list Q) * list Q) * (list Q * list (list Q) * list (list Q))) :=
  do r <- PcaTrainer.train cast sqrt eigh world rank specs;
  let '((W, b), (eigval, eigvec, covmat)) := r in
  let W := np_dot (length eigvec) W (transpose (width eigvec) eigvec) in
  Ok ((W, b), (eigval, eigvec, covmat)).

End Trainer.

End ZcaTrainer.

(** ** Feature encoders *)

Definition DictionaryTrainer : Type := image -> result (dict * misc).

Module FeatureEncoder.

Record t : Type := mk {
  specs : gmap string pyval;
  trainer : option DictionaryTrainer;
  dictionary : option dict
}.

Definition __init__ (specs : gmap string pyval) (trainer : option DictionaryTrainer) : t :=
  mk specs trainer None.

Definition process (self : t) (im : image) : result image := Raise NotImplementedError.

Definition train (self : t) (incoming_patches : image) : result t :=
  match trainer self with
  | Some tr =>
      do r <- tr incoming_patches;
      Ok (mk (specs self) (trainer self) (Some (fst r)))
  | None => Ok self
  end.

(** [self.dictionary] used as a 2-D array. *)
Definition matrix_dictionary (self : t) : result ndarray :=
  match dictionary self with
  | Some (DMatrix D) => Ok D
  | _ => Raise TypeError
  end.

End FeatureEncoder.

Module VQEncoder.

Section Encoder.

Variable sqrt : Q -> Q.

(** [sklearn.metrics.euclidean_distances(X, Y)]:
    [sqrt(max(x.x - 2 x.y + y.y, 0))] for every row [x] of [X] and [y] of [Y]. *)
Definition euclidean_distances (X Y : ndarray) : result (list (list Q)) :=
  if negb (ncols X =? ncols Y)%nat then Raise ValueError
  else Ok (map (fun x => map (fun y => sqrt (Qmax (dotQ x x - 2 * dotQ x y + dotQ y y) 0))
                             (to_rows Y))
               (to_rows X)).

Definition process (self : FeatureEncoder.t) (im : image) : result image :=
  let shape := im_lead im in
  let image_2d := image_2d im in
  do D <- FeatureEncoder.matrix_dictionary self;
  do distance <- euclidean_distances image_2d D;
  let output := map (map (fun _ => 0)) distance in
  do idx <- mapM argmin distance;
  do output <- mapM (fun row => assign_row row idx [1]) output;
  Ok (mk_image Float64 true shape (nrows D) output).

End Encoder.

End VQEncoder.

Module ThresholdEncoder.

Section Encoder.

Variable cast : dtype -> Q -> Q.

Definition process (self : FeatureEncoder.t) (im : image) : result image :=
  let specs := FeatureEncoder.specs self in
  let alpha := specs_get specs "alpha" (PyFloat (1 # 4)) in
  do D <- FeatureEncoder.matrix_dictionary self;
  do output <- mathutil.dot_image cast im (T D);
  do twoside <- truthy (specs_get specs "twoside" (PyBool true));
  do output <-
    (if twoside then
       let imshape := im_lead output in
       let N := im_width output in
       let temp := map (fun row => row ++ map Qopp row) (im_rows output) in
       Ok (mk_image Float64 true imshape (N * 2) temp)
     else
       do v <- specs_item specs "twoside";
       if is_str v "abs" then
         Ok (mk_image (im_dtype output) true (im_lead output) (im_width output)
               (map (map Qabs) (im_rows output)))
       else Ok output);
  do a <- as_vector alpha;
  do rows <- broadcast_rows true Qminus (im_width output) (im_rows output) a;
  Ok (mk_image (im_dtype output) true (im_lead output) (im_width output)
        (map (map (fun x => Qmax x 0)) rows)).

End Encoder.

End ThresholdEncoder.

Module ReLUEncoder.

Definition __init__ (specs : gmap string pyval) (trainer : option DictionaryTrainer)
    : FeatureEncoder.t :=
  let self := FeatureEncoder.__init__ specs trainer in
  FeatureEncoder.mk (<["alpha" := PyFloat 0]> (FeatureEncoder.specs self))
    (FeatureEncoder.trainer self) (FeatureEncoder.dictionary self).

End ReLUEncoder.

Module LLCEncoder.

Section Encoder.

Variable cast : dtype -> Q -> Q.

(** [bottleneck.argpartsort] on one row when the module could be imported,
    [np.argsort] on one row, and [np.linalg.solve]. *)
Variable bn : option (list Q -> nat -> list nat).
Variable argsort : list Q -> list nat.
Variable solve : list (list Q) -> list Q -> result (list Q).

(** [(D**2).sum(1) / 2.] *)
Definition half_sq_norms (D : ndarray) : list Q :=
  map (fun d => Qsum (map (fun x => x * x) d) / 2) (to_rows D).

(** [-a] of a 2-D array: a fresh array, in the layout of [a] when [a] is
    contiguous. *)
Definition neg (a : ndarray) : ndarray :=
  if F_CONTIGUOUS a || C_CONTIGUOUS a then
    mk_ndarray (nd_dtype a) (nd_shape a) (nd_strides a) (nd_offset a)
      (map Qopp (nd_data a))
  else of_rows (nd_dtype a) (nrows a) (ncols a) (map (map Qopp) (to_rows a)).

(** [D[idx]]: the rows of [D] at an integer index array. *)
Definition take_rows (D : ndarray) (idx : list nat) : result (list (list Q)) :=
  mapM (fun k => match to_rows D !! k with
                 | Some d => Ok d
                 | None => Raise IndexError
                 end) idx.

(** [Z[:] = rows] for [Z] of [K] rows. *)
Definition fill_rows (K : nat) (rows : list (list Q)) : result (list (list Q)) :=
  if (length rows =? K)%nat then Ok rows
  else match rows with
       | [r] => Ok (repeat r K)
       | _ => Raise ValueError
       end.

(** [C.trace()]. *)
Definition trace (C : list (list Q)) : Q :=
  Qsum (map (fun a => entry C a a) (seq 0 (length C))).

(** [C.flat[::K+1] += lam] on a square [C]. *)
Definition add_diag (C : list (list Q)) (lam : Q) : list (list Q) :=
  map (fun a => <[a := entry C a a + lam]> (nth a C [])) (seq 0 (length C)).

(** The first half of the loop body: the regularised local covariance [C]
    of the input row [x] with neighbours [idx]. *)
Definition local_system (K : nat) (reg : pyval) (D : ndarray) (x : list Q)
    (idx : list nat) : result (list (list Q)) :=
  do picked <- take_rows D idx;
  do Z <- fill_rows K picked;
  do Z <- broadcast_rows true Qminus (ncols D) Z x;
  do R <- mathutil.dot cast (array_of (ncols D) Z) (T (array_of (ncols D) Z));
  let C := to_rows R in
  do reg <- as_float reg;
  Ok (add_diag C (reg * trace C)).

(** The body of the loop: the coefficient row of the input row [x] with
    neighbours [idx]. *)
Definition encode_row (K : nat) (reg : pyval) (D : ndarray) (x : list Q)
    (idx : list nat) : result (list Q) :=
  do C <- local_system K reg D x idx;
  do w <- solve C (repeat 1 K);
  assign_row (repeat 0 (nrows D)) idx (map (fun a => a / Qsum w) w).

(** [IDX]: the first [K] entries of the sorted index row of every row. *)
Definition nearest (K : nat) (distance : list (list Q)) : list (list nat) :=
  match bn with
  | Some argpartsort => map (fun row => firstn K (argpartsort row K)) distance
  | None => map (fun row => firstn K (argsort row)) distance
  end.

(** [distance]: [dot(X, -D.T)] with the cached norms added to every row. *)
Definition distances (D : ndarray) (D_norm : list Q) (X : ndarray)
    : result (list (list Q)) :=
  do R <- mathutil.dot cast X (neg (T D));
  broadcast_rows true Qplus (ncols R) (to_rows R) D_norm.

(** The rest of [process] once [D_norm] has been read from [specs]. *)
Definition encode (K reg : pyval) (D : ndarray) (D_norm : list Q) (im : image)
    : result image :=
  let shape := im_lead im in
  let X := image_2d im in
  do distance <- distances D D_norm X;
  do Kz <- as_int K;
  if (Kz <? 0)%Z then Raise ValueError
  else
    let K := Z.to_nat Kz in
    let IDX := nearest K distance in
    do coeff <- mapM (fun xi => encode_row K reg D (fst xi) (snd xi))
                     (zip (to_rows X) IDX);
    Ok (mk_image Float64 true shape (nrows D) coeff).

(** [process] returns the encoder as the call leaves it (the [specs] entry
    it may have added) and the coefficient image or the exception. *)
Definition process (self : FeatureEncoder.t) (im : image)
    : FeatureEncoder.t * result image :=
  let specs := FeatureEncoder.specs self in
  let K := specs_get specs "k" (PyInt 5) in
  let reg := specs_get specs "reg" (PyFloat (1 # 10000)) in
  match FeatureEncoder.matrix_dictionary self with
  | Raise e => (self, Raise e)
  | Ok D =>
      let specs :=
        match specs !! "D_norm" with
        | None => <["D_norm" := PyArr (half_sq_norms D)]> specs
        | Some _ => specs
        end in
      let self :=
        FeatureEncoder.mk specs (FeatureEncoder.trainer self)
          (FeatureEncoder.dictionary self) in
      (self,
       do v <- specs_item specs "D_norm";
       do D_norm <- as_vector v;
       encode K reg D D_norm im)
  end.

End Encoder.

End LLCEncoder.

(** ** Loops that an exception leaves *)

(** [for a in l: s = f(s, a)], left at the first exception. *)
Fixpoint foldM {A S : Type} (f : S -> A -> result S) (l : list A) (s : S) : result S :=
  match l with
  | [] => Ok s
  | a :: l' => do s' <- f s a; foldM f l' s'
  end.

(** ** Normalizers *)

(** [row.mean()] of a row of [n] entries. *)
Definition mean (n : nat) (row : list Q) : Q := Qsum row / Qnat n.

(** [rows - m[:, np.newaxis]] and [rows / m[:, np.newaxis]]: one value per
    row. *)
Definition per_row (op : Q -> Q -> Q) (rows : list (list Q)) (m : list Q)
    : list (list Q) :=
  zip_with (fun row mr => map (fun x => op x mr) row) rows m.

(** [v += reg] for a 1-D float array [v] and the value [reg] of [specs]:
    a number is added to every entry, an array entry by entry. *)
Definition iadd_reg (v : list Q) (reg : pyval) : result (list Q) :=
  match reg with
  | PyArr a =>
      if (length a =? length v)%nat then Ok (zip_with Qplus v a)
      else match a with
           | [x] => Ok (map (fun y => y + x) v)
           | _ => Raise ValueError
           end
  | _ => do r <- as_float reg; Ok (map (fun y => y + r) v)
  end.

Module MeanNormalizer.

Section Normalizer.

(** Whether the array that numpy allocates for an elementwise result on an
    image that is not C-contiguous comes out C-contiguous (it follows the
    memory layout of the operand, which the image record does not hold). *)
Variable fresh_c_contiguous : image -> bool.

Definition process (im : image) : result image :=
  let rows := im_rows im in
  let m := map (mean (im_width im)) rows in
  let image_out := per_row Qminus rows m in
  Ok (mk_image Float64 (im_c_contiguous im || fresh_c_contiguous im)
        (im_lead im) (im_width im) image_out).

End Normalizer.

End MeanNormalizer.

Module MeanvarNormalizer.

Section Normalizer.

Variable sqrt : Q -> Q.

(** The call on an image that is not C-contiguous, where what the in-place
    [resize] does depends on the memory layout. *)
Variable strided : gmap string pyval -> image -> result image.

(** [row.std()]: the square root of the mean squared deviation. *)
Definition std (n : nat) (row : list Q) : Q :=
  let m := mean n row in
  sqrt (Qsum (map (fun x => (x - m) * (x - m)) row) / Qnat n).

(** The entries are exact rationals.  Where [std + reg] is as small as
    the rounding errors of [x - m] (a constant patch with the default
    [reg]), the float quotient is far from the rational one: a statement
    about the output is meaningful for the floats through
    [y * (std + reg)], not through [y] alone. *)
Definition process (specs : gmap string pyval) (im : image) : result image :=
  if negb (im_c_contiguous im) then strided specs im
  else
    let rows := im_rows im in
    let m := map (mean (im_width im)) rows in
    let std := map (std (im_width im)) rows in
    do std <- iadd_reg std (specs_get specs "reg" (PyFloat float64_eps));
    let image_out := per_row Qminus rows m in
    let image_out := per_row Qdiv image_out std in
    Ok (mk_image Float64 true (im_lead im) (im_width im) image_out).

End Normalizer.

End MeanvarNormalizer.

Module L2Normalizer.

Section Normalizer.

Variable sqrt : Q -> Q.

(** The call on an image that is not C-contiguous, as for
    [MeanvarNormalizer]. *)
Variable strided : gmap string pyval -> image -> image * result image.

(** The caller's image between [image.resize(shape_temp)] and
    [image.resize(shape_old)]. *)
Definition resized (im : image) : image :=
  mk_image (im_dtype im) true [prod (im_lead im)] (im_width im) (im_rows im).

(** [process] works on the caller's array: it returns the image as the call
    leaves it, and the normalized image or the exception. *)
Definition process (specs : gmap string pyval) (im : image) : image * result image :=
  if negb (im_c_contiguous im) then strided specs im
  else
    let rows := im_rows im in
    let length := map (fun row => sqrt (Qsum (map (fun x => x * x) row))) rows in
    match iadd_reg length (specs_get specs "reg" (PyFloat float64_eps)) with
    | Raise e => (resized im, Raise e)
    | Ok length =>
        let image_out := per_row Qdiv rows length in
        let dt := match im_dtype im with Float32 => Float32 | _ => Float64 end in
        (im, Ok (mk_image dt true (im_lead im) (im_width im) image_out))
    end.

End Normalizer.

End L2Normalizer.

Module L1Normalizer.

Section Normalizer.

(** As for [MeanNormalizer]. *)
Variable fresh_c_contiguous : image -> bool.

(** [np.sum(image, axis=-1) + reg], one value per row of the 2-D view: an
    array [reg] of [k] entries is added along the last leading axis, and the
    sum must keep its size to be reshaped to [lead + (1,)]. *)
Definition denominators (lead : list nat) (rows : list (list Q)) (reg : pyval)
    : result (list Q) :=
  let s := map Qsum rows in
  match reg with
  | PyArr a =>
      let last_axis := last lead 1%nat in
      match a with
      | [x] => Ok (map (fun y => y + x) s)
      | _ =>
          if (length a =? last_axis)%nat
          then Ok (imap (fun r y => y + nth (r mod last_axis) a 0) s)
          else if (last_axis =? 1)%nat && (prod lead =? 0)%nat then Ok []
          else Raise ValueError
      end
  | _ => do r <- as_float reg; Ok (map (fun y => y + r) s)
  end.

(** The dtype of [image / (sum + reg)]. *)
Definition result_dtype (dt : dtype) (reg : pyval) : dtype :=
  match dt, reg with
  | Float32, PyArr _ => Float64
  | Float32, _ => Float32
  | Int64, (PyInt _ | PyBool _) => Int64
  | _, _ => Float64
  end.

(** [x / d]: the quotient of two floats, the floor of the quotient of two
    integers (Python 2), which numpy sets to 0 when [d] is 0. *)
Definition divide (dt : dtype) (x d : Q) : Q :=
  match dt with
  | Int64 => inject_Z (Qfloor x / Qfloor d)
  | _ => x / d
  end.

Definition process (specs : gmap string pyval) (im : image) : result image :=
  let reg := specs_get specs "reg" (PyFloat float64_eps) in
  do d <- denominators (im_lead im) (im_rows im) reg;
  let dt := result_dtype (im_dtype im) reg in
  Ok (mk_image dt (im_c_contiguous im || fresh_c_contiguous im) (im_lead im)
        (im_width im) (per_row (divide dt) (im_rows im) d)).

End Normalizer.

End L1Normalizer.

Module SpatialMeanvarNormalizer.

Section Normalizer.

(** The call on an image that is not C-contiguous, as for
    [MeanvarNormalizer], and the call with a [channels] that is not a
    positive int dividing the width of the image (the in-place [resize]
    then cuts or pads the storage, or the division fails). *)
Variable strided : gmap string pyval -> image -> result image.
Variable irregular : gmap string pyval -> image -> result image.

(** [image.mean(axis=1)] of one row seen as [(w / channels, channels)]:
    the mean of every channel over the positions of the patch. *)
Definition channel_means (channels : nat) (row : list Q) : list Q :=
  let positions := (length row / channels)%nat in
  map (fun ch => Qsum (map (fun k => nth (k * channels + ch) row 0) (seq 0 positions))
                 / Qnat positions)
      (seq 0 channels).

(** [row - m[np.newaxis, :]], flattened again. *)
Definition centred (channels : nat) (row : list Q) : list Q :=
  let m := channel_means channels row in
  map (fun p => nth p row 0 - nth (p mod channels) m 0) (seq 0 (length row)).

(** The entries are exact rationals, with the same caution as for
    [MeanvarNormalizer] where the squared norm plus [reg] is as small as
    the rounding errors of the centred entries. *)
Definition process (specs : gmap string pyval) (im : image) : result image :=
  if negb (im_c_contiguous im) then strided specs im
  else
    do channels <- specs_item specs "channels";
    match channels with
    | PyInt z =>
        if ((0 <? z) && (Z.of_nat (im_width im) mod z =? 0))%Z then
          let image_out := map (centred (Z.to_nat z)) (im_rows im) in
          let length := map (fun row => Qsum (map (fun x => x * x) row)) image_out in
          do length <- iadd_reg length (specs_get specs "reg" (PyFloat float64_eps));
          let image_out := per_row Qdiv image_out length in
          Ok (mk_image Float64 true (im_lead im) (im_width im) image_out)
        else irregular specs im
    | _ => irregular specs im
    end.

End Normalizer.

End SpatialMeanvarNormalizer.

(** ** Linear encoders *)

(** [image op= b] for a 1-D [b]: in place, so the result keeps the dtype
    of the image. *)
Definition inplace (cast : dtype -> Q -> Q) (op : Q -> Q -> Q) (im : image) (b : list Q)
    : result image :=
  do rows <- broadcast_rows true op (im_width im) (im_rows im) b;
  let rows :=
    if mathutil.is_float (im_dtype im) then rows
    else map (map (cast (im_dtype im))) rows in
  Ok (mk_image (im_dtype im) (im_c_contiguous im) (im_lead im) (im_width im) rows).

(** The matrix [W] of a pair dictionary as the array a trainer returns:
    float64, row-major. *)
Definition matrix_of (W : list (list Q)) : ndarray := array_of (width W) W.

Module LinearEncoderBW.

Section Encoder.

Variable cast : dtype -> Q -> Q.

(** The call of an encoder whose dictionary is one matrix, on which
    [W, b = self.dictionary] unpacks the rows. *)
Variable unpacked : ndarray -> image -> image * result image.

(** [process] adds [b] to the caller's array and takes it off again: it
    returns the image as the call leaves it, and the output or the
    exception.  On floats [(x + b) - b] need not be [x] again (for
    [x = 1] and [b = 2^53] it is 0), so the entries of the image handed
    back stand for those of the caller's array only up to that. *)
Definition process (self : FeatureEncoder.t) (im : image) : image * result image :=
  match FeatureEncoder.dictionary self with
  | None => (im, Raise TypeError)
  | Some (DMatrix D) => unpacked D im
  | Some (DPair W b) =>
      match inplace cast Qplus im b with
      | Raise e => (im, Raise e)
      | Ok shifted =>
          match mathutil.dot_image cast shifted (matrix_of W) with
          | Raise e => (shifted, Raise e)
          | Ok output =>
              match inplace cast Qminus shifted b with
              | Raise e => (shifted, Raise e)
              | Ok restored => (restored, Ok output)
              end
          end
      end
  end.

End Encoder.

End LinearEncoderBW.

Module LinearEncoderWB.

Section Encoder.

Variable cast : dtype -> Q -> Q.

(** As for [LinearEncoderBW]. *)
Variable unpacked : ndarray -> image -> result image.

Definition process (self : FeatureEncoder.t) (im : image) : result image :=
  match FeatureEncoder.dictionary self with
  | None => Raise TypeError
  | Some (DMatrix D) => unpacked D im
  | Some (DPair W b) =>
      do output <- mathutil.dot_image cast im (matrix_of W);
      inplace cast Qplus output b
  end.

End Encoder.

End LinearEncoderWB.

Module InnerProductEncoder.

Section Encoder.

Variable cast : dtype -> Q -> Q.

Definition process (self : FeatureEncoder.t) (im : image) : result image :=
  do D <- FeatureEncoder.matrix_dictionary self;
  mathutil.dot_image cast im (T D).

End Encoder.

End InnerProductEncoder.

Module TriangleEncoder.

Section Encoder.

Variable sqrt : Q -> Q.

Definition process (self : FeatureEncoder.t) (im : image) : result image :=
  let shape := im_lead im in
  let image_2d := image_2d im in
  do D <- FeatureEncoder.matrix_dictionary self;
  do distance <- VQEncoder.euclidean_distances sqrt image_2d D;
  let mu := map (mean (nrows D)) distance in
  let encoded := per_row (fun d m => Qmax 0 (m - d)) distance mu in
  Ok (mk_image Float64 true shape (nrows D) encoded).

End Encoder.

End TriangleEncoder.

(** ** Extractors *)

(** [np.atleast_3d(image)]: a 1-D image of [N] entries is viewed as
    [(1, N, 1)], a 2-D image of shape [(H, W)] as [(H, W, 1)]. *)
Definition atleast_3d (im : image) : image :=
  match im_lead im with
  | [] =>
      mk_image (im_dtype im) (im_c_contiguous im) [1%nat; im_width im] 1
        (map (fun x => [x]) (concat (im_rows im)))
  | [h] =>
      mk_image (im_dtype im) (im_c_contiguous im) [h; im_width im] 1
        (map (fun x => [x]) (concat (im_rows im)))
  | _ => im
  end.

(** [range(0, stop, step)] for a step that is not negative; [stop] is 0
    where Python's is 0 or below. *)
Definition range (stop step : nat) : result (list nat) :=
  if (step =? 0)%nat then Raise ValueError
  else Ok (map (fun k => (k * step)%nat) (seq 0 ((stop + step - 1) / step))).

(** [l[i]] of a Python list. *)
Definition item {A : Type} (l : list A) (i : nat) : result A :=
  match l !! i with
  | Some x => Ok x
  | None => Raise IndexError
  end.

Module IdenticalExtractor.

Definition process (im : image) : result image :=
  let copy := mk_image (im_dtype im) true (im_lead im) (im_width im) (im_rows im) in
  Ok (atleast_3d copy).

End IdenticalExtractor.

Module PatchExtractor.

(** Patch sizes and strides are held as naturals. *)
Record t : Type := mk {
  psize : list nat;
  stride : nat
}.

(** [psize] is an int for square patches, a list otherwise. *)
Definition __init__ (psize : nat + list nat) (stride : nat) : t :=
  match psize with
  | inl p => mk [p; p] stride
  | inr l => mk l stride
  end.

Section Extractor.

(** What [np.empty] leaves in cell [k] of [patches]. *)
Variable uninit : nat -> list Q.

(** [image[y, x]] flattened, for an image of [inner] rows of the 2-D view
    per pixel and [W] pixels per line; and the flattened window
    [image[i:i+p0, j:j+p1].flat] (every [i] of the range has
    [i + p0 <= H], so the slice is never clipped). *)
Definition pixel (im : image) (inner W y x : nat) : list Q :=
  concat (firstn inner (skipn ((y * W + x) * inner) (im_rows im))).

Definition window (im : image) (inner W i j p0 p1 : nat) : list Q :=
  concat (map (fun y => concat (map (fun x => pixel im inner W y x) (seq j p1)))
              (seq i p0)).

(** [patches[i, j] = v] on a grid of [nh x nw] cells of [K] entries. *)
Definition assign (nh nw K : nat) (patches : list (list Q)) (i j : nat) (v : list Q)
    : result (list (list Q)) :=
  if negb ((i <? nh)%nat && (j <? nw)%nat) then Raise IndexError
  else if (length v =? K)%nat then Ok (<[(i * nw + j)%nat := v]> patches)
  else match v with
       | [x] => Ok (<[(i * nw + j)%nat := repeat x K]> patches)
       | _ => Raise ValueError
       end.

Definition process (self : t) (im : image) : result image :=
  let image := atleast_3d im in
  let shape := im_shape image in
  let imheight := nth 0 shape 0%nat in
  let imwidth := nth 1 shape 0%nat in
  let num_channels := nth 2 shape 0%nat in
  let inner := prod (skipn 2 (im_lead image)) in
  let stride := stride self in
  do p0 <- item (psize self) 0;
  do idxh <- range (imheight + 1 - p0) stride;
  do p1 <- item (psize self) 1;
  do idxw <- range (imwidth + 1 - p1) stride;
  let new_height := length idxh in
  let new_width := length idxw in
  let num_patches := (length idxh * length idxw)%nat in
  if (num_patches =? 0)%nat then Raise ValueError
  else
    let K := (p0 * p1 * num_channels)%nat in
    let patches := map uninit (seq 0 (new_height * new_width)) in
    do patches <-
      foldM (fun patches ij =>
               assign new_height new_width K patches (fst ij) (snd ij)
                 (window image inner imwidth (fst ij) (snd ij) p0 p1))
            (list_prod idxh idxw) patches;
    Ok (mk_image Float64 true [new_height; new_width] K patches).

End Extractor.

Section Sampling.

(** The state of [np.random]; [randint g high size] draws [size] integers
    of [[0, high)], and numpy refuses an empty range. *)
Variable G : Type.
Variable randint : G -> nat -> nat -> list nat * G.

Definition np_randint (g : G) (high size : nat) : result (list nat * G) :=
  if (high =? 0)%nat then Raise ValueError else Ok (randint g high size).

(** [mpi.SIZE], and the dataset: [size()], [image(i)], [num_channels()]
    and [dim()], which is [None] when the images differ in size. *)
Variable SIZE : positive.
Variable size : nat.
Variable image_at : nat -> image.
Variable num_channels : nat.
Variable dim : option (nat * nat).

(** What [np.empty] leaves in row [i] of [patches], and
    [Extractor.sample], which is taken over when there is a previous
    layer. *)
Variable uninit : nat -> list Q.
Variable inherited : G -> result (list (list Q) * G).

(** [np.maximum(int(num_patches / float(mpi.SIZE) + 0.5), 1)]. *)
Definition patches_per_worker (num_patches : nat) : nat :=
  Z.to_nat (Z.max (Qfloor (Qnat num_patches / inject_Z (Z.pos SIZE) + (1 # 2))) 1).

(** [im[rowid:rowid+p0, colid:colid+p1].flat]: the slice is clipped at
    the border of the image; an image of one axis cannot be indexed
    twice. *)
Definition flat_slice (im : image) (rowid colid p0 p1 : nat) : result (list Q) :=
  match im_lead im with
  | [] => Raise IndexError
  | _ =>
      let im := atleast_3d im in
      let H := nth 0 (im_lead im) 0%nat in
      let W := nth 1 (im_lead im) 0%nat in
      let inner := prod (skipn 2 (im_lead im)) in
      Ok (concat (map (fun y => concat (map (fun x => pixel im inner W y x)
                                            (seq colid (Nat.min p1 (W - colid)))))
                      (seq rowid (Nat.min p0 (H - rowid)))))
  end.

(** [patches[i] = v] for a row of [K] entries. *)
Definition assign_patch (K : nat) (patches : list (list Q)) (i : nat) (v : list Q)
    : result (list (list Q)) :=
  if (length v =? K)%nat then Ok (<[i := v]> patches)
  else match v with
       | [x] => Ok (<[i := repeat x K]> patches)
       | _ => Raise ValueError
       end.

(** The loop state: the image read last with its id, the generator and
    the patches. *)
Definition sample_state : Type := option (nat * image) * G * list (list Q).

Definition sample_step (p0 p1 K : nat) (imids : list nat)
    (precomputed : option (list nat * list nat)) (st : sample_state) (i : nat)
    : result sample_state :=
  let '(current, g, patches) := st in
  let imid := nth i imids 0%nat in
  let im :=
    match current with
    | Some (current_im, im) => if (imid =? current_im)%nat then im else image_at imid
    | None => image_at imid
    end in
  do drawn <-
    match precomputed with
    | Some (rowids, colids) => Ok (nth i rowids 0%nat, nth i colids 0%nat, g)
    | None =>
        do h <- item (im_shape im) 0;
        do rg <- np_randint g (h - p0) 1;
        do w <- item (im_shape im) 1;
        do cg <- np_randint (snd rg) (w - p1) 1;
        Ok (nth 0 (fst rg) 0%nat, nth 0 (fst cg) 0%nat, snd cg)
    end;
  let '(rowid, colid, g) := drawn in
  do v <- flat_slice im rowid colid p0 p1;
  do patches <- assign_patch K patches i v;
  Ok (Some (imid, im), g, patches).

Definition sample (self : t) (g : G) (num_patches : nat) (previous_layer : bool)
    : result (list (list Q) * G) :=
  if previous_layer then inherited g
  else
    let num_patches := patches_per_worker num_patches in
    do ig <- np_randint g size num_patches;
    let imids := merge_sort Nat.le (fst ig) in
    let g := snd ig in
    do p0 <- item (psize self) 0;
    do p1 <- item (psize self) 1;
    let K := (p0 * p1 * num_channels)%nat in
    let patches := map uninit (seq 0 num_patches) in
    do pg <-
      match dim with
      | Some (h, w) =>
          do rg <- np_randint g (h - p0) num_patches;
          do cg <- np_randint (snd rg) (w - p1) num_patches;
          Ok (Some (fst rg, fst cg), snd cg)
      | None => Ok (None, g)
      end;
    do st <- foldM (sample_step p0 p1 K imids (fst pg)) (seq 0 num_patches)
                   (None, snd pg, patches);
    Ok (snd st, snd (fst st)).

End Sampling.

End PatchExtractor.

(** ** Poolers *)

Module KernelPooler.

(** [specs['method']] is one of the names ['max'], ['ave'], ['rms'], or an
    object with [dim] and [pool]; [pool X out] gives what the call leaves
    in the vector [out]. *)
Inductive pooling_method : Type :=
| Max
| Ave
| Rms
| Custom (dim : nat -> nat) (pool : list (list Q) -> list Q -> result (list Q)).

(** The [specs] of a pooler: the kernel is a numpy array, the strides are
    held as naturals. *)
Record t : Type := mk {
  kernel : ndarray;
  stride : nat * nat;
  method : pooling_method
}.

(** A stride that is an int stands for the pair. *)
Definition __init__ (kernel : ndarray) (stride : nat + nat * nat) (method : pooling_method)
    : t :=
  match stride with
  | inl s => mk kernel (s, s) method
  | inr p => mk kernel p method
  end.

(** [np.ones(size)]. *)
Definition kernel_uniform (size : nat + nat * nat) : ndarray :=
  let size := match size with inl s => (s, s) | inr p => p end in
  of_rows Float64 (fst size) (snd size) (repeat (repeat 1 (snd size)) (fst size)).

Section Pooler.

Variable sqrt : Q -> Q.

(** Images that are not 3-D, and kernels that are not 2-D or have no
    entry ([np.mean] over nothing is [nan]), are left to [irregular]. *)
Variable irregular : t -> image -> result image.

(** Column [c] of [X], and the reductions along axis 0 of an [X] that has
    at least one row, written into [out]. *)
Definition column (X : list (list Q)) (c : nat) : list Q := map (fun row => nth c row 0) X.

Definition Qmaximum (l : list Q) : Q := fold_right Qmax (hd 0 l) (tl l).

Definition max (X : list (list Q)) (out : list Q) : result (list Q) :=
  Ok (map (fun c => Qmaximum (column X c)) (seq 0 (length out))).

Definition ave (X : list (list Q)) (out : list Q) : result (list Q) :=
  Ok (map (fun c => Qsum (column X c) / Qnat (length X)) (seq 0 (length out))).

Definition rms (X : list (list Q)) (out : list Q) : result (list Q) :=
  let X := map (map (fun x => x * x)) X in
  do out <- ave X out;
  Ok (map sqrt out).

(** [cache[:] = v] for one pixel [v] of [C] channels and a cache of
    [output_dim] channels: a single channel is broadcast. *)
Definition fill (C output_dim : nat) (v : list Q) : result (list Q) :=
  if (C =? output_dim)%nat then Ok v
  else if (C =? 1)%nat then Ok (repeat (nth 0 v 0) output_dim)
  else Raise ValueError.

(** [np.zeros(shape)] of a 3-D shape, as the cells of its first two
    axes. *)
Definition zeros (d0 d1 : Z) (d2 : nat) : result (list (list Q)) :=
  if ((d0 <? 0) || (d1 <? 0))%Z then Raise ValueError
  else Ok (repeat (repeat 0 d2) (Z.to_nat d0 * Z.to_nat d1)).

(** The pixels [image[top:top+kh, left:left+kw]] line by line, each with
    its position in the window (every window of the loop lies inside the
    image, so the slice is never clipped). *)
Definition cached (im : image) (W top left kh kw : nat) : list (nat * nat * list Q) :=
  map (fun d => (d, PatchExtractor.pixel im 1 W (top + fst d) (left + snd d)))
      (list_prod (seq 0 kh) (seq 0 kw)).

Definition process (self : t) (im : image) : result image :=
  match im_lead im, nd_shape (kernel self) with
  | [H; W], [kh; kw] =>
      if (kh * kw =? 0)%nat then irregular self im
      else
        let C := im_width im in
        let '(pool, output_dim) :=
          match method self with
          | Max => (max, C)
          | Ave => (ave, C)
          | Rms => (rms, C)
          | Custom dim pool => (pool, dim C)
          end in
        let kernel := kernel self in
        let '(sh, sw) := stride self in
        let grid0 := ((Z.of_nat H - Z.of_nat kh) / Z.of_nat sh)%Z in
        let grid1 := ((Z.of_nat W - Z.of_nat kw) / Z.of_nat sw)%Z in
        let pool_size0 := (grid0 * Z.of_nat sh + Z.of_nat kh)%Z in
        let pool_size1 := (grid1 * Z.of_nat sw + Z.of_nat kw)%Z in
        let offset0 := ((Z.of_nat H - pool_size0) / 2)%Z in
        let offset1 := ((Z.of_nat W - pool_size1) / 2)%Z in
        do output <- zeros grid0 grid1 output_dim;
        do output <-
          foldM (fun output ij =>
                   let '(i, j) := ij in
                   let top := Z.to_nat (offset0 + Z.of_nat sh * Z.of_nat i) in
                   let left := Z.to_nat (offset1 + Z.of_nat sw * Z.of_nat j) in
                   do cache <-
                     mapM (fun dv =>
                             do v <- fill C output_dim (snd dv);
                             Ok (map (fun x => x * get2 kernel (fst (fst dv)) (snd (fst dv))) v))
                          (cached im W top left kh kw);
                   let cell := (i * Z.to_nat grid1 + j)%nat in
                   do v <- pool cache (nth cell output []);
                   Ok (<[cell := v]> output))
                (list_prod (seq 0 (Z.to_nat grid0)) (seq 0 (Z.to_nat grid1))) output;
        Ok (mk_image Float64 true [Z.to_nat grid0; Z.to_nat grid1] output_dim output)
  | _, _ => irregular self im
  end.

End Pooler.

End KernelPooler.

(** ** Components and layers *)

Inductive component : Type :=
| CExtractor (cls : string)
| CNormalizer (cls : string)
| CEncoder (cls : string) (enc : FeatureEncoder.t)
| CPooler (cls : string)
| CComponent (cls : string).

(** [isinstance(c, Extractor)] and [isinstance(c, Pooler)]. *)
Definition is_Extractor (c : component) : bool :=
  match c with
  | CExtractor _ => true
  | _ => false
  end.

Definition is_Pooler (c : component) : bool :=
  match c with
  | CPooler _ => true
  | _ => false
  end.

(** [c.train(patches)], by the class of [c]. *)
Definition component_train (c : component) (patches : image) : result component :=
  match c with
  | CExtractor _ => Raise RuntimeError
  | CNormalizer _ => Ok c
  | CEncoder cls enc =>
      do enc' <- FeatureEncoder.train enc patches; Ok (CEncoder cls enc')
  | CPooler _ => Raise RuntimeError
  | CComponent _ => Raise NotImplementedError
  end.

(** What a call of [ConvLayer.train] does, in order. *)
Inductive event : Type :=
| EvSample
| EvBarrier
| EvTrain (i : nat) (patches : image)
| EvProcess (i : nat) (patches : image).

Module ConvLayer.

#[warnings="-register-all"]
Inductive t : Type :=
| mk (components : list component) (_previous_layer : option t).

Definition components (self : t) : list component :=
  match self with
  | mk cs _ => cs
  end.

Definition _previous_layer (self : t) : option t :=
  match self with
  | mk _ prev => prev
  end.

Section Layer.

Variable Dataset : Type.

(** [c.process(patches)] and [c.sample(dataset, num_patches, previous_layer,
    exhaustive, ratio_per_image)] of the component classes, as given. *)
Variable component_process : component -> image -> result image.
Variable component_sample :
  component -> Dataset -> nat -> option t -> bool -> Q -> result image.

(** The component as the call [c.process(patches)] leaves it: [process]
    may write to its own component ([LLCEncoder.process] stores
    [specs['D_norm']]), and the layer holds the component itself. *)
Variable component_processed : component -> image -> component.

(** The loop [for i in range(1, len(self))], on the indices still to visit. *)
Fixpoint train_loop (idxs : list nat) (self : list component) (patches : image)
    : list event * result (list component) :=
  match idxs with
  | [] => ([], Ok self)
  | i :: rest =>
      match self !! i with
      | None => ([], Raise IndexError)
      | Some c =>
          match component_train c patches with
          | Raise e => ([EvBarrier; EvTrain i patches], Raise e)
          | Ok c' =>
              let self := <[i := c']> self in
              let stop :=
                if (i =? length self - 1)%nat then Ok true
                else match self !! (i + 1)%nat with
                     | Some next => Ok (is_Pooler next)
                     | None => Raise IndexError
                     end in
              match stop with
              | Raise e => ([EvBarrier; EvTrain i patches], Raise e)
              | Ok true => ([EvBarrier; EvTrain i patches], Ok self)
              | Ok false =>
                  let self := <[i := component_processed c' patches]> self in
                  match component_process c' patches with
                  | Raise e =>
                      ([EvBarrier; EvTrain i patches; EvProcess i patches], Raise e)
                  | Ok patches' =>
                      let '(log, r) := train_loop rest self patches' in
                      (EvBarrier :: EvTrain i patches :: EvProcess i patches :: log, r)
                  end
              end
          end
      end
  end.

Definition train (self : t) (dataset : Dataset) (num_patches : nat)
    (exhaustive : bool) (ratio_per_image : Q) : list event * result t :=
  let cs := components self in
  match cs with
  | [] => ([], Ok self)
  | first :: _ =>
      if negb (is_Extractor first) then ([], Raise ValueError)
      else
        match component_sample first dataset num_patches (_previous_layer self)
                exhaustive ratio_per_image with
        | Raise e => ([EvSample], Raise e)
        | Ok patches =>
            if (length cs =? 1)%nat
               || match cs !! 1%nat with
                  | Some c => is_Pooler c
                  | None => false
                  end
            then ([EvSample], Ok self)
            else
              let '(log, r) := train_loop (seq 1 (length cs - 1)) cs patches in
              (EvSample :: log,
               do cs' <- r; Ok (mk cs' (_previous_layer self)))
        end
  end.

(** The in-place [output.resize(np.prod(output.shape))] of an output that
    is not C-contiguous, where what [resize] does depends on the memory
    layout. *)
Variable resize_strided : image -> result image.

(** [output.resize(np.prod(output.shape))]: the 1-D array of the entries. *)
Definition flattened (output : image) : result image :=
  if im_c_contiguous output then
    Ok (mk_image (im_dtype output) true [] (prod (im_shape output))
          [concat (im_rows output)])
  else resize_strided output.

Fixpoint process (self : t) (im : image) (as_vector : bool) : result image :=
  match self with
  | mk cs prev =>
      do output <- match prev with
                   | None => Ok im
                   | Some previous_layer => process previous_layer im false
                   end;
      do output <- foldM (fun output element => component_process element output)
                         cs output;
      if as_vector then flattened output else Ok output
  end.

End Layer.

End ConvLayer.

End pipeline.

(** * Notions used in the statements *)

(** The reservoir invariant: after the rows [seen], the [c] slots hold rows
    of [seen] only, and exactly [seen] in order while it fits. *)
Definition slots_ok {row : Type} (c : nat) (seen data : list row) : Prop :=
  length data = c
  /\ ((length seen <= c)%nat -> firstn (length seen) data = seen)
  /\ Forall (fun r => In r seen) (firstn (Nat.min c (length seen)) data).

Definition sampler_inv {row : Type} (c : nat) (shape : list nat) (seen : list row)
    (s : mathutil.ReservoirSampler.t row) : Prop :=
  mathutil.ReservoirSampler._num_samples s = c
  /\ mathutil.ReservoirSampler._current s = length seen
  /\ exists data, mathutil.ReservoirSampler._data s = Some (shape, data)
                  /\ slots_ok c seen data.



(** The number of components before the first Pooler. *)
Fixpoint until_Pooler (cs : list pipeline.component) : nat :=
  match cs with
  | [] => 0%nat
  | c :: cs' => if pipeline.is_Pooler c then 0%nat else S (until_Pooler cs')
  end.


(** The number of rows held by all workers. *)
Definition total_rows (world : list ndarray) : nat := mpi.allreduce_nat (map nrows world).

(** Column [j] of the mean of all rows of all workers. *)
Definition global_mean (world : list ndarray) (j : nat) : Q :=
  Qsum (map (fun sh => sumQ (nrows sh) (fun r => get2 sh r j)) world)
  / Qnat (total_rows world).

(** Entry [(a, b)] of the covariance of all rows of all workers around [m]. *)
Definition global_cov (world : list ndarray) (m : list Q) (a b : nat) : Q :=
  Qsum (map (fun sh => sumQ (nrows sh)
                         (fun r => (get2 sh r a - nth a m 0) * (get2 sh r b - nth b m 0)))
            world)
  / Qnat (total_rows world).

(** Entry [(k, j)] of [diag(v)]. *)
Definition diag (v : list Q) (k j : nat) : Q := if (k =? j)%nat then nth j v 0 else 0.

(** Two patches [0] and [1] against the centroids [0] and [1]. *)
Definition vq_dictionary : ndarray := of_rows Float64 2 1 [[0]; [1]].

Definition vq_encoder : pipeline.FeatureEncoder.t :=
  pipeline.FeatureEncoder.mk ∅ None (Some (pipeline.DMatrix vq_dictionary)).

Definition vq_batch : image := mk_image Float64 true [2%nat] 1 [[0]; [1]].

(** The sampler while it is filling: the rows seen so far sit, in order, in
    the first slots. *)
Definition filling {row : Type} (c : nat) (shape : list nat) (seen : list row)
    (s : mathutil.ReservoirSampler.t row) : Prop :=
  mathutil.ReservoirSampler._num_samples s = c
  /\ mathutil.ReservoirSampler._current s = length seen
  /\ exists data, mathutil.ReservoirSampler._data s = Some (shape, data)
       /\ length data = c /\ firstn (length seen) data = seen.


(** * Reference instances of the external routines

    Executable stand-ins for [np.random], [np.argsort] and
    [np.linalg.solve], used to run the model on concrete inputs. *)

Module reference.

(** No rounding: every value is representable. *)
Definition exact (dt : dtype) (q : Q) : Q := q.

(** Conversion to [float32] of a value between 1 and 2, where the
    representable values are the multiples of [2^-23]: the nearest one
    (a value half-way between two goes up); the other dtypes keep the
    value. *)
Definition single (dt : dtype) (q : Q) : Q :=
  match dt with
  | Float32 => inject_Z (Qfloor (q * 8388608 + (1 # 2))) / 8388608
  | _ => q
  end.

(** A counter-based generator: the state is the number of draws so far. *)
Definition rand (g : nat) (n : nat) : list Q * nat :=
  (map (fun i => Z.of_nat ((g + 7 * i) mod 10) # 10) (seq 0 n), (g + n)%nat).

Definition randint (g : nat) (high size : nat) : list nat * nat :=
  (map (fun i => ((g + 3 * i) mod high)%nat) (seq 0 size), (g + size)%nat).

(** A stable insertion sort of the indices by their keys. *)
Fixpoint insert_by (x : Q * nat) (l : list (Q * nat)) : list (Q * nat) :=
  match l with
  | [] => [x]
  | y :: l' => if Qltb (fst y) (fst x) then y :: insert_by x l' else x :: l
  end.

Definition argsort (row : list Q) : list nat :=
  map snd (fold_right insert_by [] (zip row (seq 0 (length row)))).

(** Gauss-Jordan elimination on the augmented matrix, with the solution
    checked against the system before it is returned. *)
Fixpoint find_pivot (k : nat) (M : list (list Q)) (i : nat) : option nat :=
  match M with
  | [] => None
  | r :: M' =>
      if (k <=? i)%nat && Qnonzero (nth k r 0) then Some i
      else find_pivot k M' (S i)
  end.

Definition eliminate (k : nat) (M : list (list Q)) : option (list (list Q)) :=
  match find_pivot k M 0 with
  | None => None
  | Some p =>
      let prow := nth p M [] in
      let prow := map (Qmult (/ nth k prow 0)) prow in
      let M := <[k := prow]> (<[p := nth k M []]> M) in
      Some (imap (fun i r =>
                    if (i =? k)%nat then r
                    else zip_with (fun x y => x - nth k r 0 * y) r prow) M)
  end.

Fixpoint gauss_jordan (cols : list nat) (M : list (list Q)) : option (list (list Q)) :=
  match cols with
  | [] => Some M
  | k :: cols' =>
      match eliminate k M with
      | None => None
      | Some M' => gauss_jordan cols' M'
      end
  end.

Definition solves (C : list (list Q)) (b w : list Q) : bool :=
  (length w =? length b)%nat
  && forallb (fun a => Qeq_bool (dotQ (nth a C []) w) (nth a b 0)) (seq 0 (length b)).

Definition solve (C : list (list Q)) (b : list Q) : result (list Q) :=
  match gauss_jordan (seq 0 (length b)) (zip_with (fun r x => r ++ [x]) C b) with
  | None => Raise LinAlgError
  | Some M =>
      let w := map (fun r => Qred (last r 0)) M in
      if solves C b w then Ok w else Raise LinAlgError
  end.

(** The square root of a rational whose reduced numerator and denominator
    are perfect squares (their integer square roots otherwise). *)
Definition sqrt (q : Q) : Q :=
  let r := Qred q in Z.sqrt (Qnum r) # Pos.sqrt (Qden r).

(** The eigendecomposition of a diagonal matrix: its diagonal and the
    identity. *)
Definition eigh_diagonal (C : list (list Q)) : list Q * list (list Q) :=
  (map (fun a => entry C a a) (seq 0 (length C)),
   map (fun a => map (fun b => if (a =? b)%nat then 1 else 0) (seq 0 (length C)))
       (seq 0 (length C))).

End reference.

(** * Concrete inputs *)

Module example.

(** A column-major [2 x 3] matrix (a transposed view) and a row-major
    [3 x 2] matrix. *)
Definition A : ndarray := T (of_rows Float64 3 2 [[1; 4]; [2; 5]; [3; 6]]).
Definition B : ndarray := of_rows Float64 3 2 [[1; 0]; [0; 1]; [1; 1]].

(** A [float32] matrix holding 1 and a [float64] matrix holding
    [1 + 2^-30], which is no [float32] value. *)
Definition single_one : ndarray := of_rows Float32 1 1 [[1]].
Definition double_near_one : ndarray := of_rows Float64 1 1 [[1073741825 # 1073741824]].

(** Two batches of one-entry rows for a reservoir of two slots. *)
Definition batches : list (mathutil.ReservoirSampler.batch (list Q)) :=
  [mathutil.ReservoirSampler.mk_batch [1%nat] [[1]; [2]; [3]];
   mathutil.ReservoirSampler.mk_batch [1%nat] [[4]; [5]]].

(** A dictionary of three entries in the plane and two input rows. *)
Definition D : ndarray := of_rows Float64 3 2 [[0; 0]; [1; 0]; [0; 1]].
Definition D' : ndarray := of_rows Float64 3 2 [[2; 0]; [0; 2]; [2; 2]].
Definition im : image := mk_image Float64 true [2%nat] 2 [[1 # 4; 0]; [1; 1]].

(** An LLC encoder with two neighbours whose trainer returns [D']. *)
Definition llc : pipeline.FeatureEncoder.t :=
  pipeline.FeatureEncoder.mk (<["k" := PyInt 2]> ∅)
    (Some (fun _ => Ok (pipeline.DMatrix D', pipeline.MiscOther)))
    (Some (pipeline.DMatrix D)).



(** A threshold encoder with the default options on the dictionary [D]. *)
Definition threshold : pipeline.FeatureEncoder.t :=
  pipeline.FeatureEncoder.mk ∅ None (Some (pipeline.DMatrix D)).

(** A threshold encoder asked for the ['abs'] mode, and a one-entry image. *)
Definition threshold_abs : pipeline.FeatureEncoder.t :=
  pipeline.FeatureEncoder.mk (<["twoside" := PyStr "abs"]> ∅) None
    (Some (pipeline.DMatrix (of_rows Float64 1 1 [[1]]))).
Definition pixel : image := mk_image Float64 true [1%nat] 1 [[1]].

(** An encoder built without a trainer. *)
Definition untrained : pipeline.FeatureEncoder.t :=
  pipeline.FeatureEncoder.__init__ ∅ None.

(** Two workers holding two patches each, with covariance [diag(4, 1)]. *)
Definition world : list ndarray :=
  [of_rows Float64 2 2 [[2; 1]; [-2; -1]]; of_rows Float64 2 2 [[2; -1]; [-2; 1]]].

(** A layer whose second trainee is followed by a Pooler, with a
    [process] that adds 1 to every entry and a [sample] that returns [im]. *)
Definition layer : pipeline.ConvLayer.t :=
  pipeline.ConvLayer.mk
    [pipeline.CExtractor "PatchExtractor";
     pipeline.CNormalizer "MeanvarNormalizer";
     pipeline.CEncoder "ThresholdEncoder" untrained;
     pipeline.CPooler "SpatialPooler";
     pipeline.CNormalizer "L2Normalizer"]
    None.

Definition shift (c : pipeline.component) (patches : image) : result image :=
  Ok (mk_image (im_dtype patches) true (im_lead patches) (im_width patches)
        (map (map (Qplus 1)) (im_rows patches))).

Definition sample (c : pipeline.component) (dataset : unit) (num_patches : nat)
    (previous_layer : option pipeline.ConvLayer.t) (exhaustive : bool)
    (ratio_per_image : Q) : result image :=
  Ok pixel.

(** A row-major [2 x 2] output array whose window starts at cell 1 of a
    buffer of six cells. *)
Definition out : ndarray := mk_ndarray Float64 [2%nat; 2%nat] [2%nat; 1%nat] 1 [7; 7; 7; 7; 7; 7].

(** A batch of another trailing shape. *)
Definition odd_batch : mathutil.ReservoirSampler.batch (list Q) :=
  mathutil.ReservoirSampler.mk_batch [2%nat] [[1; 2]].

(** Two patches whose norms are integers, and the same held in an array
    that is not C-contiguous. *)
Definition pythagorean : image := mk_image Float64 true [2%nat] 2 [[3; 4]; [0; 5]].
Definition strided_image : image := mk_image Float64 false [2%nat] 2 [[3; 4]; [0; 5]].

(** Options that ask for no regularisation, and for one that is no number. *)
Definition no_reg : gmap string pyval := <["reg" := PyFloat 0]> ∅.
Definition bad_reg : gmap string pyval := <["reg" := PyStr "auto"]> ∅.

(** A linear encoder on two features. *)
Definition linear : pipeline.FeatureEncoder.t :=
  pipeline.FeatureEncoder.mk ∅ None (Some (pipeline.DPair [[1; 1]; [0; 2]] [1; -1])).

(** Options of a one-side encoder that also set a threshold. *)
Definition one_side : gmap string pyval :=
  <["twoside" := PyBool false]> (<["alpha" := PyFloat 5]> ∅).

(** A [3 x 3] image of one channel. *)
Definition picture : image :=
  mk_image Float64 true [3%nat; 3%nat] 1 [[1]; [2]; [3]; [4]; [5]; [6]; [7]; [8]; [9]].

(** A layer whose encoder has a trainer, and the layer after training. *)
Definition trainable : pipeline.ConvLayer.t :=
  pipeline.ConvLayer.mk
    [pipeline.CExtractor "PatchExtractor";
     pipeline.CEncoder "LLCEncoder" llc;
     pipeline.CPooler "SpatialPooler"]
    None.

Definition trained : pipeline.ConvLayer.t :=
  pipeline.ConvLayer.mk
    [pipeline.CExtractor "PatchExtractor";
     pipeline.CEncoder "LLCEncoder"
       (pipeline.FeatureEncoder.mk (pipeline.FeatureEncoder.specs llc)
          (pipeline.FeatureEncoder.trainer llc) (Some (pipeline.DMatrix D')));
     pipeline.CPooler "SpatialPooler"]
    None.

(** A component as its [process] leaves it: an LLC encoder as
    [LLCEncoder.process] leaves it, any other component as it was. *)
Definition processed (c : pipeline.component) (patches : image) : pipeline.component :=
  match c with
  | pipeline.CEncoder cls enc =>
      if String.eqb cls "LLCEncoder" then
        pipeline.CEncoder cls
          (fst (pipeline.LLCEncoder.process reference.exact None reference.argsort
                  reference.solve enc patches))
      else c
  | _ => c
  end.

(** What the [process] of a component returns: an LLC encoder encodes, any
    other component adds 1 to every entry. *)
Definition encode_or_shift (c : pipeline.component) (patches : image) : result image :=
  match c with
  | pipeline.CEncoder cls enc =>
      if String.eqb cls "LLCEncoder" then
        snd (pipeline.LLCEncoder.process reference.exact None reference.argsort
               reference.solve enc patches)
      else shift c patches
  | _ => shift c patches
  end.

(** A [sample] that returns the two rows of [im]. *)
Definition sample_rows (c : pipeline.component) (dataset : unit) (num_patches : nat)
    (previous_layer : option pipeline.ConvLayer.t) (exhaustive : bool)
    (ratio_per_image : Q) : result image :=
  Ok im.

(** A layer whose LLC encoder hands its output on to a normalizer. *)
Definition deep : pipeline.ConvLayer.t :=
  pipeline.ConvLayer.mk
    [pipeline.CExtractor "PatchExtractor";
     pipeline.CEncoder "LLCEncoder" llc;
     pipeline.CNormalizer "L2Normalizer";
     pipeline.CPooler "SpatialPooler"]
    None.

(** The layer [deep] after training: the encoder holds the dictionary of
    its trainer and the norms that its [process] stored. *)
Definition deep_trained : pipeline.ConvLayer.t :=
  pipeline.ConvLayer.mk
    [pipeline.CExtractor "PatchExtractor";
     pipeline.CEncoder "LLCEncoder"
       (pipeline.FeatureEncoder.mk
          (<["D_norm" := PyArr (pipeline.LLCEncoder.half_sq_norms D')]>
             (pipeline.FeatureEncoder.specs llc))
          (pipeline.FeatureEncoder.trainer llc) (Some (pipeline.DMatrix D')));
     pipeline.CNormalizer "L2Normalizer";
     pipeline.CPooler "SpatialPooler"]
    None.

(** A [2 x 2] image of two channels, and kernels of ones. *)
Definition colour : image :=
  mk_image Float64 true [2%nat; 2%nat] 2 [[1; 2]; [3; 4]; [5; 6]; [7; 8]].

Definition ones (size : nat) : ndarray := pipeline.KernelPooler.kernel_uniform (inl size).

(** A patch of two positions and two channels, and the options that say
    so. *)
Definition two_positions : image := mk_image Float64 true [1%nat] 4 [[1; 2; 3; 6]].
Definition two_channels : gmap string pyval := <["channels" := PyInt 2]> ∅.

End example.

(** * Properties *)

Import mathutil pipeline.

(** ** Sums and list indexing *)

Lemma sumQ_ext (n : nat) (f g : nat -> Q) :
  (forall l, (l < n)%nat -> f l == g l) -> sumQ n f == sumQ n g.
Proof.
  induction n as [|n IH]; intros Hfg; simpl.
  - reflexivity.
  - rewrite IH by (intros l Hl; apply Hfg; lia).
    rewrite (Hfg n) by lia. reflexivity.
Qed.

Lemma nth_map_seq {A : Type} (f : nat -> A) (n p : nat) (d : A) :
  (p < n)%nat -> nth p (map f (seq 0 n)) d = f p.
Proof.
  intros Hp.
  rewrite (nth_indep _ d (f 0%nat)) by (rewrite length_map, length_seq; exact Hp).
  rewrite (map_nth f (seq 0 n) 0%nat p), seq_nth by exact Hp.
  reflexivity.
Qed.

Lemma existsb_rev {A : Type} (f : A -> bool) (l : list A) :
  existsb f (rev l) = existsb f l.
Proof.
  induction l as [|a l IH]; simpl; [reflexivity|].
  rewrite existsb_app, IH. simpl. rewrite orb_false_r. apply orb_comm.
Qed.

Lemma nth_map_lt {A B : Type} (f : A -> B) (l : list A) (i : nat) (d : A) (d' : B) :
  (i < length l)%nat -> nth i (map f l) d' = f (nth i l d).
Proof.
  intros Hi. rewrite (nth_indep _ d' (f d)) by (rewrite length_map; exact Hi).
  apply map_nth.
Qed.

Lemma nth_zip_with {A B C : Type} (f : A -> B -> C) (l : list A) (k : list B)
    (i : nat) (da : A) (db : B) (dc : C) :
  (i < length l)%nat -> (i < length k)%nat ->
  nth i (zip_with f l k) dc = f (nth i l da) (nth i k db).
Proof.
  revert k i. induction l as [|a l IH]; intros [|b k] [|i] Hl Hk; simpl in *; try lia.
  - reflexivity.
  - apply IH; lia.
Qed.

Lemma In_firstn {A : Type} (n : nat) (l : list A) (r : A) :
  In r (firstn n l) -> In r l.
Proof.
  intros H. rewrite <- (firstn_skipn n l). apply in_or_app. left. exact H.
Qed.




Lemma sumQ_const0 (n : nat) : sumQ n (fun _ => 0) == 0.
Proof. induction n as [|n IH]; simpl; [reflexivity|]. rewrite IH. ring. Qed.




Lemma sumQ_shift (n : nat) (f : nat -> Q) :
  sumQ (S n) f == f 0%nat + sumQ n (fun i => f (S i)).
Proof.
  induction n as [|n IH]; [simpl; ring|].
  change (sumQ (S (S n)) f) with (sumQ (S n) f + f (S n)). rewrite IH. simpl. ring.
Qed.

Lemma Qsum_sumQ (l : list Q) : Qsum l == sumQ (length l) (fun i => nth i l 0).
Proof.
  induction l as [|x l IH]; [reflexivity|].
  cbn [length]. rewrite sumQ_shift. simpl. rewrite IH. reflexivity.
Qed.

Lemma Qsum_map_seq (n : nat) (f : nat -> Q) : Qsum (map f (seq 0 n)) == sumQ n f.
Proof.
  rewrite Qsum_sumQ, length_map, length_seq. apply sumQ_ext.
  intros l Hl. rewrite nth_map_seq by exact Hl. reflexivity.
Qed.


Lemma Qsum_map_div (s : Q) (w : list Q) : Qsum (map (fun a => a / s) w) == Qsum w / s.
Proof.
  induction w as [|x w IH]; simpl.
  - unfold Qdiv. ring.
  - rewrite IH. unfold Qdiv. ring.
Qed.

Lemma sumQ_zero (n : nat) (f : nat -> Q) :
  (forall l, (l < n)%nat -> f l == 0) -> sumQ n f == 0.
Proof.
  intros H. rewrite (sumQ_ext n f (fun _ => 0)) by exact H. apply sumQ_const0.
Qed.

Lemma Qsquare_nonneg (x : Q) : 0 <= x * x.
Proof. nra. Qed.




Lemma nth_repeat_lt {A : Type} (x d : A) (n i : nat) :
  (i < n)%nat -> nth i (repeat x n) d = x.
Proof.
  intros Hi. rewrite (nth_indep _ d x) by (rewrite repeat_length; exact Hi).
  apply nth_repeat.
Qed.

(** ** Views *)

Lemma get2_T (a : ndarray) (i j : nat) : get2 (T a) i j = get2 a j i.
Proof.
  unfold get2, T; simpl.
  destruct (nd_strides a) as [|s0 [|s1 [|s2 ss]]]; try reflexivity.
  - simpl. f_equal. lia.
  - assert (Hlen : (3 <= length (rev (s0 :: s1 :: s2 :: ss)))%nat)
      by (rewrite length_rev; simpl; lia).
    destruct (rev (s0 :: s1 :: s2 :: ss)) as [|x [|y [|z zs]]]; simpl in Hlen; try lia.
    reflexivity.
Qed.

Lemma has_zero_dim_T (a : ndarray) : has_zero_dim (T a) = has_zero_dim a.
Proof. unfold has_zero_dim, T; simpl. apply existsb_rev. Qed.

Lemma F_CONTIGUOUS_T (a : ndarray) : F_CONTIGUOUS (T a) = C_CONTIGUOUS a.
Proof.
  unfold F_CONTIGUOUS, C_CONTIGUOUS. rewrite has_zero_dim_T. reflexivity.
Qed.

Lemma C_CONTIGUOUS_T (a : ndarray) : C_CONTIGUOUS (T a) = F_CONTIGUOUS a.
Proof.
  unfold F_CONTIGUOUS, C_CONTIGUOUS. rewrite has_zero_dim_T.
  unfold T; simpl. rewrite !rev_involutive. reflexivity.
Qed.

Lemma nrows_T (a : ndarray) (m n : nat) :
  nd_shape a = [m; n] -> nrows (T a) = n /\ ncols (T a) = m.
Proof. intros H. unfold nrows, ncols, T; simpl. rewrite H. split; reflexivity. Qed.

(** ** [gemm] *)

Section GemmProperties.

Variable cast : dtype -> Q -> Q.

Lemma get2_fblas (dt : dtype) (alpha : Q) (a b : ndarray) (ta tb : bool) (R : ndarray)
    (i j : nat) :
  mathutil.fblas_gemm dt alpha a b ta tb = Ok R ->
  (i < mathutil.op_rows a ta)%nat -> (j < mathutil.op_cols b tb)%nat ->
  get2 R i j = mathutil.gemm_entry alpha a b ta tb i j.
Proof.
  unfold mathutil.fblas_gemm. intros HR Hi Hj.
  destruct (negb _); [discriminate|]. injection HR as <-.
  unfold get2; simpl.
  set (m := mathutil.op_rows a ta) in *. set (n := mathutil.op_cols b tb) in *.
  rewrite nth_map_seq by nia.
  replace ((i * 1 + j * m) mod m)%nat with i.
  2:{ rewrite Nat.mul_1_r, Nat.Div0.mod_add. symmetry. apply Nat.mod_small, Hi. }
  replace ((i * 1 + j * m) / m)%nat with j.
  2:{ rewrite Nat.mul_1_r, Nat.div_add by lia. rewrite Nat.div_small by exact Hi. reflexivity. }
  reflexivity.
Qed.

(** The operand handed to the kernel is column-major, is a view on the
    buffer of the input, and stands for the transpose of the input. *)
Lemma gemm_operand_view (X : ndarray) :
  (F_CONTIGUOUS X || C_CONTIGUOUS X) = true ->
  let '(X', trans) := mathutil.gemm_operand X in
  F_CONTIGUOUS X' = true /\ nd_data X' = nd_data X /\ nd_offset X' = nd_offset X
  /\ nd_dtype X' = nd_dtype X
  /\ (forall i j, mathutil.op_get X' trans i j = get2 X j i)
  /\ (forall m n, nd_shape X = [m; n] ->
        mathutil.op_rows X' trans = n /\ mathutil.op_cols X' trans = m).
Proof.
  intros Hc. unfold mathutil.gemm_operand.
  destruct (F_CONTIGUOUS X) eqn:HF; simpl in *.
  - split; [exact HF|]. do 4 (split; [reflexivity|]).
    intros m n H. unfold ncols, nrows; rewrite H. split; reflexivity.
  - rewrite F_CONTIGUOUS_T. split; [assumption|]. do 3 (split; [reflexivity|]).
    split; [intros i j; apply get2_T|].
    intros m n H. apply (nrows_T X m n H).
Qed.

Lemma dtype_eqb_refl (d : dtype) : dtype_eqb d d = true.
Proof. destruct d; reflexivity. Qed.

Lemma nth_naive_gemm (alpha : Q) (m k n : nat) (A B : nat -> nat -> Q) (i j : nat) :
  (i < m)%nat -> (j < n)%nat ->
  nth j (nth i (mathutil.naive_gemm alpha m k n A B) []) 0
  = alpha * sumQ k (fun l => A i l * B l j).
Proof.
  intros Hi Hj. unfold mathutil.naive_gemm.
  rewrite (nth_map_seq _ m i []) by exact Hi.
  rewrite (nth_map_seq _ n j 0) by exact Hj. reflexivity.
Qed.

Lemma gemm_spec (alpha : Q) (A B : ndarray) (m k n : nat) :
  nd_shape A = [m; k] -> nd_shape B = [k; n] ->
  (F_CONTIGUOUS A || C_CONTIGUOUS A) = true ->
  (F_CONTIGUOUS B || C_CONTIGUOUS B) = true ->
  mathutil.is_float (nd_dtype A) = true -> nd_dtype B = nd_dtype A ->
  exists (A' B' : ndarray) (trans_a trans_b : bool) (R : ndarray),
    mathutil.gemm cast alpha A B None None = Ok (T R)
    /\ mathutil.fblas_gemm (nd_dtype A) alpha B' A' trans_b trans_a = Ok R
    /\ (nd_data A' = nd_data A /\ nd_offset A' = nd_offset A /\ F_CONTIGUOUS A' = true)
    /\ (nd_data B' = nd_data B /\ nd_offset B' = nd_offset B /\ F_CONTIGUOUS B' = true)
    /\ nd_shape (T R) = [m; n]
    /\ C_CONTIGUOUS (T R) = true
    /\ forall i j, (i < m)%nat -> (j < n)%nat ->
         get2 (T R) i j
         == nth j (nth i (mathutil.naive_gemm alpha m k n (get2 A) (get2 B)) []) 0.
Proof.
  intros HA HB HcA HcB Hfl Hdt.
  pose proof (gemm_operand_view A HcA) as VA.
  pose proof (gemm_operand_view B HcB) as VB.
  unfold mathutil.gemm, ndim. rewrite HA, HB. simpl length. simpl negb at 1 2. simpl orb at 1.
  cbv iota. rewrite Hfl, HcA, HcB. simpl negb. simpl orb. cbv iota.
  rewrite Hdt, dtype_eqb_refl. simpl negb. cbv iota.
  destruct (mathutil.gemm_operand B) as [B' tb].
  destruct (mathutil.gemm_operand A) as [A' ta].
  destruct VA as (FA & DA & OA & TA & GA & SA).
  destruct VB as (FB & DB & OB & TB & GB & SB).
  destruct (SA m k HA) as [rA cA]. destruct (SB k n HB) as [rB cB].
  assert (HR : exists R, mathutil.fblas_gemm (nd_dtype A) alpha B' A' tb ta = Ok R
                         /\ nd_shape R = [n; m] /\ nd_strides R = [1%nat; n]).
  { unfold mathutil.fblas_gemm. rewrite rA, rB, cA, cB, Nat.eqb_refl. simpl.
    eexists. split; [reflexivity|]. split; reflexivity. }
  destruct HR as (R & HR & HsR & HstR).
  exists A', B', ta, tb, R. rewrite HR. simpl.
  split; [reflexivity|]. split; [reflexivity|].
  split; [auto|]. split; [auto|].
  split; [unfold T; simpl; rewrite HsR; reflexivity|].
  split.
  { rewrite C_CONTIGUOUS_T. unfold F_CONTIGUOUS. rewrite HsR, HstR. simpl.
    rewrite Nat.add_0_r, Nat.eqb_refl, !orb_true_r. reflexivity. }
  intros i j Hi Hj.
  rewrite get2_T, (get2_fblas _ _ _ _ _ _ _ _ _ HR) by lia.
  rewrite nth_naive_gemm by assumption.
  unfold mathutil.gemm_entry. rewrite cB.
  apply Qmult_comp; [reflexivity|].
  apply sumQ_ext. intros l _. rewrite GA, GB. apply Qmult_comm.
Qed.

(** *** Rows of a 2-D array *)

Lemma length_to_rows (a : ndarray) : length (to_rows a) = nrows a.
Proof. unfold to_rows. rewrite length_map, length_seq. reflexivity. Qed.

Lemma to_rows_width (a : ndarray) :
  Forall (fun r => length r = ncols a) (to_rows a).
Proof.
  unfold to_rows. apply Forall_forall. intros r Hr.
  apply in_map_iff in Hr. destruct Hr as (i & <- & _).
  rewrite length_map, length_seq. reflexivity.
Qed.

Lemma nth_to_rows (a : ndarray) (i j : nat) :
  (i < nrows a)%nat -> (j < ncols a)%nat ->
  nth j (nth i (to_rows a) []) 0 = get2 a i j.
Proof.
  intros Hi Hj. unfold to_rows.
  rewrite (nth_map_seq _ _ i []) by exact Hi.
  rewrite (nth_map_seq _ _ j 0) by exact Hj. reflexivity.
Qed.

Lemma of_rows_contiguous (dt : dtype) (m n : nat) (rows : list (list Q)) :
  C_CONTIGUOUS (of_rows dt m n rows) = true.
Proof.
  unfold C_CONTIGUOUS, of_rows; simpl.
  rewrite Nat.add_0_r, Nat.eqb_refl, !orb_true_r. reflexivity.
Qed.

Lemma get2_of_rows (dt : dtype) (m n : nat) (rows : list (list Q)) (i j : nat) :
  (i < m)%nat -> (j < n)%nat ->
  get2 (of_rows dt m n rows) i j = nth j (nth i rows []) 0.
Proof.
  intros Hi Hj. unfold get2, of_rows; simpl.
  rewrite nth_map_seq by nia.
  replace ((i * n + j * 1) mod n)%nat with j.
  2:{ rewrite Nat.mul_1_r, Nat.add_comm, Nat.Div0.mod_add. symmetry. apply Nat.mod_small, Hj. }
  replace ((i * n + j * 1) / n)%nat with i.
  2:{ rewrite Nat.mul_1_r, Nat.add_comm, Nat.div_add by lia.
      rewrite Nat.div_small by exact Hj. reflexivity. }
  reflexivity.
Qed.

(** [dot_image] on a row-major float image and a contiguous matrix of its
    dtype returns the image of the row products. *)
Lemma dot_image_spec (im : image) (B : ndarray) (d N : nat) :
  im_c_contiguous im = true -> mathutil.is_float (im_dtype im) = true ->
  im_width im = d -> nd_shape B = [d; N] -> nd_dtype B = im_dtype im ->
  (F_CONTIGUOUS B || C_CONTIGUOUS B) = true ->
  exists proj, mathutil.dot_image cast im B = Ok proj
    /\ im_lead proj = im_lead im /\ im_width proj = N
    /\ length (im_rows proj) = prod (im_lead im)
    /\ Forall (fun r => length r = N) (im_rows proj)
    /\ forall r j, (r < prod (im_lead im))%nat -> (j < N)%nat ->
         nth j (nth r (im_rows proj) []) 0
         == 1 * sumQ d (fun l => nth l (nth r (im_rows im) []) 0 * get2 B l j).
Proof.
  intros Hc Hfl Hw HB Hdt HcB.
  destruct (gemm_spec 1 (image_2d im) B (prod (im_lead im)) d N)
    as (A' & B' & ta & tb & R & Hg & _ & _ & _ & HsR & _ & Hent); try assumption.
  - unfold image_2d, of_rows; simpl. rewrite Hw. reflexivity.
  - unfold image_2d. rewrite of_rows_contiguous. apply orb_true_r.
  - unfold mathutil.dot_image. rewrite Hc, Hg. simpl.
    assert (HnR : nrows (T R) = prod (im_lead im) /\ ncols (T R) = N)
      by (unfold nrows, ncols; rewrite HsR; split; reflexivity).
    destruct HnR as [HnR HcR].
    eexists. split; [reflexivity|]. simpl.
    split; [reflexivity|]. split; [unfold ncols; rewrite HB; reflexivity|].
    split; [rewrite length_to_rows; exact HnR|].
    split; [rewrite <- HcR; apply to_rows_width|].
    intros r j Hr Hj. rewrite nth_to_rows by lia.
    rewrite (Hent r j Hr Hj), nth_naive_gemm by assumption.
    apply Qmult_comp; [reflexivity|]. apply sumQ_ext. intros l Hl.
    unfold image_2d. rewrite get2_of_rows by lia. reflexivity.
Qed.

End GemmProperties.

(** *** A second matrix of another dtype *)

Section GemmConversion.

Variable cast : dtype -> Q -> Q.

Lemma dtype_eqb_eq (a b : dtype) : dtype_eqb a b = true -> a = b.
Proof. destruct a, b; simpl; intros H; try discriminate; reflexivity. Qed.

(** The converted copy has the shape and the dtype asked for, is row-major,
    and holds the converted entries. *)
Lemma asarray_spec (B : ndarray) (dt : dtype) (k n : nat) :
  nd_shape B = [k; n] ->
  nd_shape (mathutil.asarray cast B dt) = [k; n]
  /\ nd_dtype (mathutil.asarray cast B dt) = dt
  /\ C_CONTIGUOUS (mathutil.asarray cast B dt) = true
  /\ forall l j, (l < k)%nat -> (j < n)%nat ->
       get2 (mathutil.asarray cast B dt) l j = cast dt (get2 B l j).
Proof.
  intros HB. unfold mathutil.asarray.
  assert (Hr : nrows B = k) by (unfold nrows; rewrite HB; reflexivity).
  assert (Hc : ncols B = n) by (unfold ncols; rewrite HB; reflexivity).
  rewrite Hr, Hc. split; [reflexivity|]. split; [reflexivity|].
  split; [apply of_rows_contiguous|].
  intros l j Hl Hj. rewrite get2_of_rows by assumption.
  unfold to_rows. rewrite Hr, Hc, map_map.
  rewrite (nth_map_seq _ k l []) by exact Hl.
  rewrite map_map. rewrite (nth_map_seq _ n j 0) by exact Hj. reflexivity.
Qed.

(** [gemm] on a [B] of another dtype is [gemm] on the converted copy. *)
Lemma gemm_converts_B (alpha : Q) (A B : ndarray) (k n : nat) :
  nd_shape B = [k; n] ->
  (F_CONTIGUOUS B || C_CONTIGUOUS B) = true ->
  dtype_eqb (nd_dtype B) (nd_dtype A) = false ->
  mathutil.gemm cast alpha A B None None
  = mathutil.gemm cast alpha A (mathutil.asarray cast B (nd_dtype A)) None None.
Proof.
  intros HB HcB Hdt.
  destruct (asarray_spec B (nd_dtype A) k n HB) as (Hs & Hd & Hc & _).
  unfold mathutil.gemm, ndim. rewrite Hs, HB, Hd, Hc, HcB, Hdt, dtype_eqb_refl.
  rewrite orb_true_r. simpl negb. reflexivity.
Qed.

(** C2: on two contiguous matrices of compatible shapes, the first of a float
    dtype, [gemm alpha A B] returns the transposed view of what the BLAS
    kernel produced from two column-major views: one on the buffer of [A],
    and one on the buffer of [B] when [B] has the dtype of [A], and on the
    buffer of the converted copy of [B] otherwise.  The result has shape
    [m x n], is row-major, and its entries are those of the naive triple
    loop for [alpha * A * B], with the entries of a [B] of another dtype
    converted to the dtype of [A]. *)
Theorem gemm_row_major_product (alpha : Q) (A B : ndarray) (m k n : nat) :
  nd_shape A = [m; k] -> nd_shape B = [k; n] ->
  (F_CONTIGUOUS A || C_CONTIGUOUS A) = true ->
  (F_CONTIGUOUS B || C_CONTIGUOUS B) = true ->
  mathutil.is_float (nd_dtype A) = true ->
  let same := dtype_eqb (nd_dtype B) (nd_dtype A) in
  let B0 := if same then B else mathutil.asarray cast B (nd_dtype A) in
  exists (A' B' : ndarray) (trans_a trans_b : bool) (R : ndarray),
    mathutil.gemm cast alpha A B None None = Ok (T R)
    /\ mathutil.fblas_gemm (nd_dtype A) alpha B' A' trans_b trans_a = Ok R
    /\ (nd_data A' = nd_data A /\ nd_offset A' = nd_offset A /\ F_CONTIGUOUS A' = true)
    /\ (nd_data B' = nd_data B0 /\ nd_offset B' = nd_offset B0 /\ F_CONTIGUOUS B' = true)
    /\ nd_shape (T R) = [m; n]
    /\ C_CONTIGUOUS (T R) = true
    /\ forall i j, (i < m)%nat -> (j < n)%nat ->
         get2 (T R) i j
         == nth j (nth i (mathutil.naive_gemm alpha m k n (get2 A)
                            (fun l j => if same then get2 B l j
                                        else cast (nd_dtype A) (get2 B l j))) []) 0.
Proof.
  intros HA HB HcA HcB Hfl same B0.
  destruct same eqn:Hsame; unfold same in Hsame; subst B0.
  - apply dtype_eqb_eq in Hsame.
    destruct (gemm_spec cast alpha A B m k n HA HB HcA HcB Hfl Hsame)
      as (A' & B' & ta & tb & R & H1 & H2 & H3 & H4 & H5 & H6 & H7).
    exists A', B', ta, tb, R. repeat (split; [assumption|]). exact H7.
  - destruct (asarray_spec B (nd_dtype A) k n HB) as (Hs & Hd & Hc & Hget).
    rewrite (gemm_converts_B alpha A B k n HB HcB Hsame).
    destruct (gemm_spec cast alpha A (mathutil.asarray cast B (nd_dtype A)) m k n HA Hs HcA)
      as (A' & B' & ta & tb & R & H1 & H2 & H3 & H4 & H5 & H6 & H7);
      [rewrite Hc; apply orb_true_r|exact Hfl|exact Hd|].
    exists A', B', ta, tb, R. repeat (split; [assumption|]).
    intros i j Hi Hj. rewrite (H7 i j Hi Hj), !nth_naive_gemm by assumption.
    apply Qmult_comp; [reflexivity|]. apply sumQ_ext. intros l Hl.
    rewrite Hget by assumption. reflexivity.
Qed.

End GemmConversion.

(** *** A [float32] first matrix and a [float64] second matrix *)

Lemma get2_singleton (a : ndarray) (x : Q) (i j : nat) :
  nd_data a = [x] -> get2 a i j = x \/ get2 a i j = 0.
Proof.
  intros H. unfold get2. rewrite H.
  destruct (nd_strides a) as [|s0 [|s1 [|s2 ss]]]; try (right; reflexivity).
  destruct (nd_offset a + i * s0 + j * s1)%nat as [|[|p]]; simpl; auto.
Qed.

Lemma op_get_singleton (a : ndarray) (x : Q) (trans : bool) (i j : nat) :
  nd_data a = [x] -> mathutil.op_get a trans i j = x \/ mathutil.op_get a trans i j = 0.
Proof. intros H. unfold mathutil.op_get. destruct trans; apply get2_singleton, H. Qed.

(** A sum of terms that are 0 or [b] is 0 or at least [b]. *)
Lemma sumQ_steps (b : Q) (K : nat) (f : nat -> Q) :
  0 < b -> (forall l, f l == 0 \/ f l == b) -> sumQ K f == 0 \/ b <= sumQ K f.
Proof.
  intros Hb Hf. induction K as [|K IH]; simpl.
  - left. reflexivity.
  - destruct IH as [IH|IH], (Hf K) as [H|H]; rewrite H.
    + left. rewrite IH. reflexivity.
    + right. rewrite IH. lra.
    + right. lra.
    + right. lra.
Qed.

(** What [gemm] returns on the [float32] matrix [[1]] and the [float64]
    matrix [[1 + 2^-30]] is no output of the kernel on views of the buffers
    of the two: the kernel has read the converted copy of the second. *)
Lemma gemm_mixed_dtypes_not_on_the_buffers :
  ~ exists (A' B' : ndarray) (trans_a trans_b : bool) (R : ndarray),
      mathutil.gemm reference.single 1 example.single_one example.double_near_one None None
      = Ok (T R)
      /\ mathutil.fblas_gemm (nd_dtype example.single_one) 1 B' A' trans_b trans_a = Ok R
      /\ nd_data A' = nd_data example.single_one
      /\ nd_data B' = nd_data example.double_near_one.
Proof.
  intros (A' & B' & ta & tb & R & Hg & HR & HA & HB).
  assert (Hd : exists v, nd_data R = [v] /\ v == 1).
  { vm_compute in Hg. injection Hg as _ _ _ _ Hd.
    eexists. split; [symmetry; exact Hd|]. reflexivity. }
  destruct Hd as (v & Hd & Hv).
  unfold mathutil.fblas_gemm in HR.
  destruct (negb _); [discriminate|]. injection HR as HR. rewrite <- HR in Hd. simpl in Hd.
  set (m := mathutil.op_rows B' tb) in *. set (n := mathutil.op_cols A' ta) in *.
  assert (Hmn : (m * n)%nat = 1%nat).
  { apply (f_equal (@length Q)) in Hd. rewrite length_map, length_seq in Hd. exact Hd. }
  rewrite Hmn in Hd. simpl in Hd. injection Hd as Hd.
  unfold mathutil.gemm_entry in Hd.
  set (b := 1073741825 # 1073741824).
  destruct (sumQ_steps b (mathutil.op_cols B' tb)
              (fun l => mathutil.op_get B' tb (0 mod m) l * mathutil.op_get A' ta l (0 / m)))
    as [H0|H1].
  - reflexivity.
  - intros l.
    destruct (op_get_singleton B' b tb (0 mod m) l) as [-> | ->];
      [vm_compute in HB; exact HB| |];
      (destruct (op_get_singleton A' 1 ta l (0 / m)) as [-> | ->];
        [vm_compute in HA; exact HA| |]).
    + right. ring.
    + left. ring.
    + left. ring.
    + left. ring.
  - rewrite <- Hd in Hv. rewrite H0 in Hv. revert Hv. vm_compute. discriminate.
  - rewrite <- Hd in Hv. unfold b in H1. lra.
Qed.

(** C2 (as stated) fails: at a [float32] [A] and a [float64] [B], [gemm]
    does not return the output of the kernel on column-major views of the
    buffers of [A] and [B]. *)
Lemma gemm_mixed_dtypes_reads_a_copy :
  ~ exists (A' B' : ndarray) (trans_a trans_b : bool) (R : ndarray),
      mathutil.gemm reference.single 1 example.single_one example.double_near_one None None
      = Ok (T R)
      /\ mathutil.fblas_gemm (nd_dtype example.single_one) 1 B' A' trans_b trans_a = Ok R
      /\ (nd_data A' = nd_data example.single_one
          /\ nd_offset A' = nd_offset example.single_one /\ F_CONTIGUOUS A' = true)
      /\ (nd_data B' = nd_data example.double_near_one
          /\ nd_offset B' = nd_offset example.double_near_one /\ F_CONTIGUOUS B' = true)
      /\ nd_shape (T R) = [1%nat; 1%nat]
      /\ C_CONTIGUOUS (T R) = true
      /\ forall i j, (i < 1)%nat -> (j < 1)%nat ->
           get2 (T R) i j
           == nth j (nth i (mathutil.naive_gemm 1 1 1 1 (get2 example.single_one)
                              (get2 example.double_near_one)) []) 0.
Proof.
  intros (A' & B' & ta & tb & R & Hg & HR & (HA & _) & (HB & _) & _).
  apply gemm_mixed_dtypes_not_on_the_buffers.
  exists A', B', ta, tb, R. repeat (split; [assumption|]). exact HB.
Qed.

(** ** [ThresholdEncoder] *)

Lemma as_vector_of_float (v : pyval) (a : Q) : as_float v = Ok a -> as_vector v = Ok [a].
Proof. destruct v; simpl; intros H; try discriminate; injection H as <-; reflexivity. Qed.

Lemma clip_pair_exclusive (v a : Q) :
  0 <= a -> Qmax (v - a) 0 == 0 \/ Qmax (- v - a) 0 == 0.
Proof.
  intros Ha. destruct (Qlt_le_dec 0 (v - a)) as [Hpos|Hneg].
  - right. apply Q.max_r. lra.
  - left. apply Q.max_r, Hneg.
Qed.

Section ThresholdProperties.

Variable cast : dtype -> Q -> Q.

(** C8: in two-side mode with a threshold [alpha >= 0], the output of
    [ThresholdEncoder.process] has last dimension [2 * N] for a dictionary of
    [N] rows, and for every projection value [v] the two entries
    [max(v - alpha, 0)] and [max(-v - alpha, 0)] that it yields in the two
    halves are not both nonzero. *)
Theorem threshold_twoside_doubles_and_excludes (self : FeatureEncoder.t) (im : image)
    (D : ndarray) (N d : nat) (alpha : Q) :
  FeatureEncoder.dictionary self = Some (DMatrix D) ->
  nd_shape D = [N; d] -> (F_CONTIGUOUS D || C_CONTIGUOUS D) = true ->
  nd_dtype D = im_dtype im -> mathutil.is_float (im_dtype im) = true ->
  im_c_contiguous im = true -> im_width im = d ->
  truthy (specs_get (FeatureEncoder.specs self) "twoside" (PyBool true)) = Ok true ->
  as_float (specs_get (FeatureEncoder.specs self) "alpha" (PyFloat (1 # 4))) = Ok alpha ->
  0 <= alpha ->
  exists proj out,
    mathutil.dot_image cast im (T D) = Ok proj
    /\ ThresholdEncoder.process cast self im = Ok out
    /\ im_width proj = N /\ im_width out = (2 * N)%nat
    /\ im_lead out = im_lead im
    /\ length (im_rows out) = length (im_rows proj)
    /\ forall r j, (r < length (im_rows proj))%nat -> (j < N)%nat ->
         let v := nth j (nth r (im_rows proj) []) 0 in
         let p := nth j (nth r (im_rows out) []) 0 in
         let q := nth (N + j) (nth r (im_rows out) []) 0 in
         length (nth r (im_rows out) []) = (2 * N)%nat
         /\ p == Qmax (v - alpha) 0 /\ q == Qmax (- v - alpha) 0
         /\ (p == 0 \/ q == 0).
Proof.
  intros Hdict HsD HcD Hdt Hfl Hc Hw Htwo Halpha Hpos.
  destruct (dot_image_spec cast im (T D) d N)
    as (proj & Hproj & Hlead & Hwidth & Hlen & Hrows & _); try assumption.
  { unfold T; simpl. rewrite HsD. reflexivity. }
  { rewrite F_CONTIGUOUS_T, C_CONTIGUOUS_T, orb_comm. exact HcD. }
  exists proj. unfold ThresholdEncoder.process, FeatureEncoder.matrix_dictionary.
  rewrite Hdict. cbn [bind]. rewrite Hproj. cbn [bind]. rewrite Htwo. cbn [bind].
  rewrite (as_vector_of_float _ _ Halpha). cbn [bind im_width im_rows].
  unfold broadcast_rows. cbn [length].
  replace (1 =? im_width proj * 2)%nat with false by (symmetry; apply Nat.eqb_neq; lia).
  cbn [bind]. eexists. split; [reflexivity|]. split; [reflexivity|].
  cbn [im_width im_lead im_rows im_dtype].
  split; [exact Hwidth|]. split; [lia|]. split; [exact Hlead|].
  split; [rewrite !length_map; reflexivity|].
  intros r j Hr Hj. cbv zeta.
  set (row := nth r (im_rows proj) []).
  assert (Hrow : length row = N).
  { rewrite Forall_forall in Hrows. apply Hrows, nth_In, Hr. }
  rewrite (nth_map_lt _ _ r []) by (rewrite !length_map; exact Hr).
  rewrite (nth_map_lt _ _ r []) by (rewrite length_map; exact Hr).
  rewrite (nth_map_lt _ _ r []) by exact Hr.
  fold row.
  assert (Hp : nth j (map (fun x => Qmax x 0) (map (fun a => a - alpha) (row ++ map Qopp row))) 0
               = Qmax (nth j row 0 - alpha) 0).
  { rewrite (nth_map_lt _ _ j 0) by (rewrite length_map, length_app, length_map; lia).
    rewrite (nth_map_lt _ _ j 0) by (rewrite length_app, length_map; lia).
    rewrite app_nth1 by lia. reflexivity. }
  assert (Hq : nth (N + j) (map (fun x => Qmax x 0)
                              (map (fun a => a - alpha) (row ++ map Qopp row))) 0
               = Qmax (- nth j row 0 - alpha) 0).
  { rewrite (nth_map_lt _ _ (N + j) 0) by (rewrite length_map, length_app, length_map; lia).
    rewrite (nth_map_lt _ _ (N + j) 0) by (rewrite length_app, length_map; lia).
    rewrite app_nth2 by lia. replace (N + j - length row)%nat with j by lia.
    rewrite (nth_map_lt _ _ j 0) by lia. reflexivity. }
  rewrite Hp, Hq.
  split; [rewrite !length_map, length_app, length_map; lia|].
  split; [reflexivity|]. split; [reflexivity|].
  apply clip_pair_exclusive, Hpos.
Qed.

(** C9: with [twoside] set to ['abs'] the call takes the two-side branch:
    the string is true as a condition, so the output is the one of
    [twoside = True]. *)
Theorem threshold_abs_takes_twoside_branch (specs : gmap string pyval)
    (trainer : option DictionaryTrainer) (dictionary : option dict) (im : image) :
  ThresholdEncoder.process cast
    (FeatureEncoder.mk (<["twoside" := PyStr "abs"]> specs) trainer dictionary) im
  = ThresholdEncoder.process cast
      (FeatureEncoder.mk (<["twoside" := PyBool true]> specs) trainer dictionary) im.
Proof.
  unfold ThresholdEncoder.process. cbn [FeatureEncoder.specs].
  unfold specs_get. rewrite !lookup_insert_eq.
  assert (Halpha : forall v : pyval,
            (<["twoside" := v]> specs : gmap string pyval) !! "alpha" = specs !! "alpha")
    by (intros v; apply lookup_insert_ne; discriminate).
  rewrite !Halpha. reflexivity.
Qed.

End ThresholdProperties.


(** ** [ReservoirSampler] *)

Lemma In_insert {A : Type} (l : list A) : forall (i : nat) (v r : A),
  In r (<[i := v]> l) -> r = v \/ In r l.
Proof.
  induction l as [|x l IH]; intros [|i] v r; simpl; try tauto.
  - intros [H|H]; [left; congruence|right; right; exact H].
  - intros [H|H]; [right; left; exact H|].
    destruct (IH i v r H) as [E|Hin]; [left; exact E|right; right; exact Hin].
Qed.

Lemma assign_at_ok {A : Type} (idx : list nat) : forall (data vals : list A),
  length idx = length vals ->
  Forall (fun i => (i < length data)%nat) idx ->
  exists data', assign_at data idx vals = Ok data'
    /\ length data' = length data
    /\ Forall (fun r => In r data \/ In r vals) data'.
Proof.
  induction idx as [|i idx IH]; intros data vals Hlen Hidx.
  - destruct vals; [|discriminate]. exists data. simpl. split; [reflexivity|].
    split; [reflexivity|]. apply Forall_forall. intros r Hr. left. exact Hr.
  - destruct vals as [|v vals]; [discriminate|]. simpl.
    inversion Hidx as [|? ? Hi Hrest]; subst.
    apply Nat.ltb_lt in Hi as Hi'. rewrite Hi'.
    destruct (IH (<[i := v]> data) vals) as (data' & Hdata' & Hl & Hall).
    + simpl in Hlen. lia.
    + rewrite length_insert. exact Hrest.
    + exists data'. split; [exact Hdata'|]. split.
      * rewrite Hl. apply length_insert.
      * apply Forall_forall. intros r Hr.
        rewrite Forall_forall in Hall. destruct (Hall r Hr) as [Hin|Hin].
        -- apply In_insert in Hin.
           destruct Hin as [E|Hin]; [right; left; congruence|left; exact Hin].
        -- right. right. exact Hin.
Qed.

Lemma length_select_selection {A : Type} (mask : list bool) (a : list A) :
  length mask = length a -> length (select mask a) = count_true mask.
Proof.
  revert a. induction mask as [|b mask IH]; intros [|x a] Hlen; try discriminate.
  - reflexivity.
  - unfold count_true in *. simpl. destruct b; simpl; rewrite IH by (simpl in Hlen; lia);
      reflexivity.
Qed.

Lemma In_select {A : Type} (mask : list bool) (a : list A) (r : A) :
  In r (select mask a) -> In r a.
Proof.
  revert a. induction mask as [|b mask IH]; intros [|x a]; simpl; try tauto.
  destruct b; simpl; intros H; [destruct H as [H|H]; [left; exact H|]|]; right; apply IH, H.
Qed.

Section SamplerProperties.

Context {row : Type}.
Variable uninit : nat -> row.
Variable G : Type.
Variable rand : G -> nat -> list Q * G.
Variable randint : G -> nat -> nat -> list nat * G.

Local Abbreviation consider := (ReservoirSampler.consider uninit G rand randint).
Local Abbreviation prepare := (ReservoirSampler.prepare uninit).

Lemma consider_eq (g : G) (s : ReservoirSampler.t row) (feature : ReservoirSampler.batch row) :
  consider g s feature =
  match prepare s feature with
  | Raise e => Raise e
  | Ok data =>
      if (ReservoirSampler._num_samples s <=? ReservoirSampler._current s)%nat then
        let batch_size := length (ReservoirSampler.rows feature) in
        let '(us, g) := rand g batch_size in
        let selected := ReservoirSampler.selection s us batch_size in
        let '(slots, g) := randint g (ReservoirSampler._num_samples s) (count_true selected) in
        do data <- assign_at data slots (select selected (ReservoirSampler.rows feature));
        Ok (ReservoirSampler.mk (ReservoirSampler._num_samples s) (ReservoirSampler._current s + batch_size)
               (Some (ReservoirSampler.trail feature, data)), g)
      else
        let count := Nat.min (ReservoirSampler._num_samples s - ReservoirSampler._current s) (length (ReservoirSampler.rows feature)) in
        if (count <? length (ReservoirSampler.rows feature))%nat then
          consider g (ReservoirSampler.filled s feature data count)
            (ReservoirSampler.mk_batch (ReservoirSampler.trail feature) (skipn count (ReservoirSampler.rows feature)))
        else Ok (ReservoirSampler.filled s feature data count, g)
  end.
Proof.
  funelim (consider g s feature).
  - rewrite Heq. reflexivity.
  - rewrite Heq, e. reflexivity.
  - rewrite Heq, Hfill. cbv zeta. rewrite Hrest. reflexivity.
  - rewrite Heq, Hfill. cbv zeta.
    match goal with E : (_ <? _)%nat = false |- _ => rewrite E end. reflexivity.
Qed.

(** *** The reservoir invariant *)

Hypothesis rand_nonneg : forall g n, Forall (Qle 0) (fst (rand g n)).
Hypothesis randint_range : forall g high size,
  length (fst (randint g high size)) = size
  /\ ((0 < high)%nat -> Forall (fun i => (i < high)%nat) (fst (randint g high size))).

Lemma selection_empty_reservoir (s : ReservoirSampler.t row) (us : list Q) (n : nat) :
  ReservoirSampler._num_samples s = 0%nat -> Forall (Qle 0) us ->
  count_true (ReservoirSampler.selection s us n) = 0%nat.
Proof.
  intros Hc Hus. unfold ReservoirSampler.selection, count_true. rewrite Hc.
  assert (Hgen : forall start,
    length (filter id (map (fun j => Qltb (nth j us 0)
                                       (Qnat 0 / Qnat (ReservoirSampler._current s + 1 + j)))
                           (seq start n))) = 0%nat); [|apply Hgen].
  induction n as [|n IH]; intros start; simpl; [reflexivity|].
  assert (Hu : 0 <= nth start us 0).
  { destruct (Nat.lt_ge_cases start (length us)) as [Hlt|Hge].
    - rewrite Forall_forall in Hus. apply Hus, nth_In, Hlt.
    - rewrite nth_overflow by exact Hge. apply Qle_refl. }
  assert (Hsel : Qltb (nth start us 0) (Qnat 0 / Qnat (ReservoirSampler._current s + 1 + start)) = false).
  { unfold Qltb. apply negb_false_iff, Qle_bool_iff.
    unfold Qdiv. change (Qnat 0) with 0. rewrite Qmult_0_l. exact Hu. }
  rewrite Hsel. apply IH.
Qed.

Lemma length_selection (s : ReservoirSampler.t row) (us : list Q) (n : nat) :
  length (ReservoirSampler.selection s us n) = n.
Proof. unfold ReservoirSampler.selection. rewrite length_map, length_seq. reflexivity. Qed.

Lemma prepare_filled (s : ReservoirSampler.t row) (feature : ReservoirSampler.batch row) (data : list row)
    (count k : nat) :
  prepare (ReservoirSampler.filled s feature data count)
    (ReservoirSampler.mk_batch (ReservoirSampler.trail feature) (skipn k (ReservoirSampler.rows feature)))
  = Ok (firstn (ReservoirSampler._current s) data ++ firstn count (ReservoirSampler.rows feature)
        ++ skipn (ReservoirSampler._current s + count) data).
Proof.
  unfold ReservoirSampler.prepare, ReservoirSampler.filled; simpl. unfold ReservoirSampler.list_eqb.
  rewrite bool_decide_eq_true_2 by reflexivity. reflexivity.
Qed.

Lemma consider_step (c : nat) : forall (n : nat) (g : G) (s : ReservoirSampler.t row)
    (feature : ReservoirSampler.batch row) (seen data : list row),
  (length (ReservoirSampler.rows feature) <= n)%nat ->
  ReservoirSampler._num_samples s = c -> ReservoirSampler._current s = length seen ->
  prepare s feature = Ok data -> slots_ok c seen data ->
  exists s' g', consider g s feature = Ok (s', g')
    /\ sampler_inv c (ReservoirSampler.trail feature) (seen ++ ReservoirSampler.rows feature) s'.
Proof.
  induction n as [n IH] using lt_wf_ind.
  intros g s feature seen data Hn Hc Hcur Hprep (Hlen & Hfirst & Hall).
  rewrite consider_eq, Hprep, Hc, Hcur.
  destruct (c <=? length seen)%nat eqn:Hfull.
  - (* the reservoir is full *)
    apply Nat.leb_le in Hfull. cbv zeta.
    destruct (rand g (length (ReservoirSampler.rows feature))) as [us g1] eqn:Hus.
    set (selected := ReservoirSampler.selection s us (length (ReservoirSampler.rows feature))).
    destruct (randint g1 c (count_true selected)) as [slots g2] eqn:Hslots.
    pose proof (randint_range g1 c (count_true selected)) as [Hsl Hrange].
    rewrite Hslots in Hsl, Hrange. simpl in Hsl, Hrange.
    pose proof (rand_nonneg g (length (ReservoirSampler.rows feature))) as Hnn.
    rewrite Hus in Hnn. simpl in Hnn.
    assert (Hvals : length (select selected (ReservoirSampler.rows feature)) = count_true selected).
    { apply length_select_selection. apply length_selection. }
    assert (Hin : Forall (fun i => (i < length data)%nat) slots).
    { destruct c as [|c'].
      - assert (Hz : count_true selected = 0%nat)
          by (apply selection_empty_reservoir; assumption).
        rewrite Hz in Hsl. destruct slots; [constructor|discriminate].
      - rewrite Hlen. apply Hrange. lia. }
    destruct (assign_at_ok slots data (select selected (ReservoirSampler.rows feature)))
      as (data' & Hassign & Hlen' & Hall'); [lia|exact Hin|].
    rewrite Hassign. simpl. eexists _, _. split; [reflexivity|].
    split; [reflexivity|]. split; [simpl; rewrite length_app; lia|].
    exists data'. split; [reflexivity|]. split; [lia|]. split.
    + intros Hle. rewrite length_app in Hle.
      assert (Hnil : ReservoirSampler.rows feature = []) by (apply length_zero_iff_nil; lia).
      rewrite Hnil in *. simpl in Hassign.
      assert (Hs0 : slots = []).
      { apply length_zero_iff_nil. rewrite Hsl. unfold selected. rewrite Hnil. reflexivity. }
      rewrite Hs0 in Hassign. unfold selected in Hassign. rewrite Hnil in Hassign.
      simpl in Hassign. injection Hassign as <-.
      rewrite app_nil_r. apply Hfirst. lia.
    + apply Forall_forall. intros r Hr. apply in_or_app.
      apply In_firstn in Hr.
      rewrite Forall_forall in Hall'. destruct (Hall' r Hr) as [Hd|Hv].
      * left. rewrite Forall_forall in Hall. apply Hall.
        rewrite Nat.min_l by lia. rewrite <- Hlen, firstn_all. exact Hd.
      * right. eapply In_select, Hv.
  - (* the reservoir is being filled *)
    apply Nat.leb_gt in Hfull. cbv zeta.
    set (count := Nat.min (c - length seen) (length (ReservoirSampler.rows feature))).
    assert (Hdata' : slots_ok c (seen ++ firstn count (ReservoirSampler.rows feature))
              (firstn (length seen) data ++ firstn count (ReservoirSampler.rows feature)
               ++ skipn (length seen + count) data)).
    { assert (Hcnt : length (firstn count (ReservoirSampler.rows feature)) = count)
        by (rewrite length_firstn; lia).
      rewrite Hfirst by lia.
      split; [|split].
      - rewrite !length_app, Hcnt, length_skipn. lia.
      - intros _. rewrite length_app, Hcnt, app_assoc.
        rewrite firstn_app, firstn_all2 by (rewrite length_app, Hcnt; lia).
        rewrite length_app, Hcnt, Nat.sub_diag. simpl. apply app_nil_r.
      - rewrite length_app, Hcnt, Nat.min_r by lia. rewrite app_assoc.
        rewrite firstn_app, length_app, Hcnt, Nat.sub_diag. simpl. rewrite app_nil_r.
        rewrite (firstn_all2 (seen ++ firstn count (ReservoirSampler.rows feature))
                   (n := length seen + count))
          by (rewrite length_app, Hcnt; lia).
        apply Forall_forall. intros r Hr. exact Hr. }
    destruct (count <? length (ReservoirSampler.rows feature))%nat eqn:Hrest.
    + apply Nat.ltb_lt in Hrest.
      destruct (IH (length (skipn count (ReservoirSampler.rows feature))))
        with (g := g) (s := ReservoirSampler.filled s feature data count)
             (feature := ReservoirSampler.mk_batch (ReservoirSampler.trail feature) (skipn count (ReservoirSampler.rows feature)))
             (seen := seen ++ firstn count (ReservoirSampler.rows feature))
             (data := firstn (length seen) data ++ firstn count (ReservoirSampler.rows feature)
                      ++ skipn (length seen + count) data)
        as (s' & g' & Hs' & Hinv).
      * rewrite length_skipn. lia.
      * simpl. lia.
      * simpl. exact Hc.
      * simpl. rewrite length_app, length_firstn, Hcur. lia.
      * rewrite prepare_filled, Hcur. reflexivity.
      * exact Hdata'.
      * exists s', g'. split; [exact Hs'|].
        simpl in Hinv. rewrite <- app_assoc, firstn_skipn in Hinv. exact Hinv.
    + apply Nat.ltb_ge in Hrest.
      assert (Hall_rows : firstn count (ReservoirSampler.rows feature) = ReservoirSampler.rows feature)
        by (apply firstn_all2; lia).
      eexists _, _. split; [reflexivity|].
      unfold ReservoirSampler.filled. split; [exact Hc|]. split; [simpl; rewrite length_app; lia|].
      eexists. split; [simpl; reflexivity|].
      rewrite Hcur. rewrite Hall_rows in Hdata' |- *. exact Hdata'.
Qed.

Local Abbreviation consider_all := (ReservoirSampler.consider_all uninit G rand randint).

Lemma consider_first (c : nat) (g : G) (feature : ReservoirSampler.batch row) :
  exists s' g', consider g (ReservoirSampler.__init__ c) feature = Ok (s', g')
    /\ sampler_inv c (ReservoirSampler.trail feature) (ReservoirSampler.rows feature) s'.
Proof.
  apply (consider_step c (length (ReservoirSampler.rows feature)) g (ReservoirSampler.__init__ c) feature []
           (map uninit (seq 0 c))); try reflexivity.
  split; [rewrite length_map, length_seq; reflexivity|].
  split; [reflexivity|]. rewrite Nat.min_0_r. constructor.
Qed.

Lemma consider_next (c : nat) (shape : list nat) (seen : list row) (g : G)
    (s : ReservoirSampler.t row) (feature : ReservoirSampler.batch row) :
  sampler_inv c shape seen s -> ReservoirSampler.trail feature = shape ->
  exists s' g', consider g s feature = Ok (s', g')
    /\ sampler_inv c shape (seen ++ ReservoirSampler.rows feature) s'.
Proof.
  intros (Hc & Hcur & data & Hdata & Hok) Hshape. subst shape.
  apply (consider_step c (length (ReservoirSampler.rows feature)) g s feature seen data);
    try assumption; try reflexivity.
  unfold ReservoirSampler.prepare. rewrite Hdata. unfold ReservoirSampler.list_eqb.
  rewrite bool_decide_eq_true_2 by reflexivity. reflexivity.
Qed.

Lemma consider_all_inv (c : nat) (shape : list nat) (batches : list (ReservoirSampler.batch row)) :
  forall (seen : list row) (g : G) (s : ReservoirSampler.t row),
  sampler_inv c shape seen s ->
  Forall (fun f => ReservoirSampler.trail f = shape) batches ->
  exists s' g', consider_all g s batches = Ok (s', g')
    /\ sampler_inv c shape (seen ++ concat (map ReservoirSampler.rows batches)) s'.
Proof.
  induction batches as [|f batches IH]; intros seen g s Hinv Hshape; simpl.
  - exists s, g. rewrite app_nil_r. split; [reflexivity|exact Hinv].
  - inversion Hshape as [|? ? Hf Hrest]; subst.
    destruct (consider_next c _ seen g s f Hinv eq_refl) as (s1 & g1 & H1 & Hinv1).
    rewrite H1. simpl.
    destruct (IH _ g1 s1 Hinv1 Hrest) as (s2 & g2 & H2 & Hinv2).
    exists s2, g2. split; [exact H2|]. rewrite app_assoc. exact Hinv2.
Qed.

(** C3 (the code departs from it on a sampler that considered no batch):
    after any run of [consider] calls on batches of one trailing shape,
    [num_considered] is the number [M] of rows considered.  When at least
    one batch was considered, [get] returns [min c M] rows, each a row of
    some considered batch, and while [M < c] they are exactly the rows
    considered so far.  When none was, [_data] is still [None]: [get]
    raises [TypeError] where it slices [_data] (capacity at least 1) and
    returns [None] otherwise, and in neither case an array of 0 rows. *)
Theorem reservoir_count_and_containment (c : nat) (g : G) (shape : list nat)
    (batches : list (ReservoirSampler.batch row)) :
  Forall (fun f => ReservoirSampler.trail f = shape) batches ->
  exists (s : ReservoirSampler.t row) (g' : G),
    consider_all g (ReservoirSampler.__init__ c) batches = Ok (s, g')
    /\ ReservoirSampler.num_considered s = length (concat (map ReservoirSampler.rows batches))
    /\ match batches with
       | [] =>
           ReservoirSampler.get s = if (0 <? c)%nat then Raise TypeError else Ok None
       | _ :: _ =>
           exists out : list row,
             ReservoirSampler.get s = Ok (Some out)
             /\ length out = Nat.min c (length (concat (map ReservoirSampler.rows batches)))
             /\ Forall (fun r => exists f, In f batches /\ In r (ReservoirSampler.rows f)) out
             /\ ((length (concat (map ReservoirSampler.rows batches)) < c)%nat ->
                 out = concat (map ReservoirSampler.rows batches))
       end.
Proof.
  intros Hshape. destruct batches as [|f batches].
  { exists (ReservoirSampler.__init__ c), g. split; [reflexivity|]. split; [reflexivity|].
    unfold ReservoirSampler.get. simpl. destruct (0 <? c)%nat; reflexivity. }
  inversion Hshape as [|? ? Hf Hrest]; subst. simpl.
  destruct (consider_first c g f) as (s1 & g1 & H1 & Hinv1). rewrite H1. simpl.
  destruct (consider_all_inv c _ batches _ g1 s1 Hinv1 Hrest)
    as (s & g' & Hs & Hc & Hcur & data & Hdata & Hlen & Hfirst & Hall).
  set (seen := ReservoirSampler.rows f ++ concat (map ReservoirSampler.rows batches)) in *.
  assert (Hseen : forall r, In r seen -> exists f', In f' (f :: batches) /\ In r (ReservoirSampler.rows f')).
  { intros r Hr. apply (in_concat (map ReservoirSampler.rows (f :: batches))) in Hr.
    destruct Hr as (l & Hl & Hr). apply in_map_iff in Hl.
    destruct Hl as (f' & <- & Hf'). exists f'. split; assumption. }
  exists s, g'. split; [exact Hs|]. split; [exact Hcur|].
  destruct (Nat.lt_ge_cases (length seen) c) as [Hlt|Hge].
  - exists (firstn (length seen) data).
    split.
    { unfold ReservoirSampler.get. rewrite Hc, Hcur, Hdata.
      apply Nat.ltb_lt in Hlt. rewrite Hlt. reflexivity. }
    rewrite Hfirst by lia. split; [lia|]. split; [|reflexivity].
    apply Forall_forall. exact Hseen.
  - exists data.
    split.
    { unfold ReservoirSampler.get. rewrite Hc, Hcur, Hdata.
      apply Nat.ltb_ge in Hge. rewrite Hge. reflexivity. }
    split; [lia|]. split; [|lia].
    rewrite Nat.min_l, <- Hlen, firstn_all in Hall by lia.
    apply Forall_forall. intros r Hr. rewrite Forall_forall in Hall.
    apply Hseen, Hall, Hr.
Qed.

End SamplerProperties.

(** ** [VQEncoder] *)

Lemma Qltb_lt (a b : Q) : a < b -> Qltb a b = true.
Proof.
  intros H. unfold Qltb. apply negb_true_iff.
  destruct (Qle_bool b a) eqn:E; [|reflexivity].
  apply Qle_bool_iff in E. exfalso. apply (Qlt_not_le _ _ H E).
Qed.

Lemma Qltb_ge (a b : Q) : b <= a -> Qltb a b = false.
Proof.
  intros H. unfold Qltb. apply negb_false_iff, Qle_bool_iff, H.
Qed.

Section VQ.

Variable sqrt : Q -> Q.

Hypothesis sqrt_0_lt_1 : sqrt 0 < sqrt 1.

(** C1 (the code departs from it): on the patches [0] and [1] and the centroids [0] and [1],
    each patch has its own nearest centroid, yet [output[:, idx] = 1] marks
    both winners in both rows: no row of the output is one-hot. *)
Theorem VQ_rows_share_all_winners :
  VQEncoder.process sqrt vq_encoder vq_batch
  = Ok (mk_image Float64 true [2%nat] 2 [[1; 1]; [1; 1]]).
Proof.
  unfold VQEncoder.process, FeatureEncoder.matrix_dictionary, vq_encoder.
  cbn [FeatureEncoder.dictionary bind].
  assert (Hd : VQEncoder.euclidean_distances sqrt (image_2d vq_batch) vq_dictionary
               = Ok [[sqrt 0; sqrt 1]; [sqrt 1; sqrt 0]]) by (vm_compute; reflexivity).
  rewrite Hd.
  cbn [mapM bind argmin argmin_from].
  rewrite (Qltb_ge (sqrt 1) (sqrt 0)) by (apply Qlt_le_weak, sqrt_0_lt_1).
  rewrite (Qltb_lt (sqrt 0) (sqrt 1)) by exact sqrt_0_lt_1.
  reflexivity.
Qed.

End VQ.

(** ** [ConvLayer] *)





Lemma until_Pooler_prefix (cs : list component) : forall i,
  (i <= until_Pooler cs)%nat -> until_Pooler cs = (i + until_Pooler (skipn i cs))%nat.
Proof.
  induction cs as [|c cs IH]; intros i Hi; simpl in *.
  - assert (i = 0%nat) by lia. subst. reflexivity.
  - destruct i as [|i]; [reflexivity|]. simpl.
    destruct (is_Pooler c); [lia|]. rewrite (IH i) at 1 by lia. reflexivity.
Qed.


Section LayerProperties.

Variable Dataset : Type.
Variable component_process : component -> image -> result image.
Variable component_sample :
  component -> Dataset -> nat -> option ConvLayer.t -> bool -> Q -> result image.
Variable component_processed : component -> image -> component.

Local Abbreviation train_loop :=
  (ConvLayer.train_loop component_process component_processed).



Local Abbreviation train :=
  (ConvLayer.train Dataset component_process component_sample component_processed).






End LayerProperties.

(** ** Statistics across workers *)

Lemma Qsum_map_ext {A : Type} (f g : A -> Q) (l : list A) :
  (forall x, In x l -> f x == g x) -> Qsum (map f l) == Qsum (map g l).
Proof.
  induction l as [|x l IH]; intros H; simpl; [reflexivity|].
  rewrite (H x) by (left; reflexivity). rewrite IH by (intros y Hy; apply H; right; exact Hy).
  reflexivity.
Qed.

Lemma length_vadd (u v : list Q) (d : nat) :
  length u = d -> length v = d -> length (vadd u v) = d.
Proof. intros Hu Hv. unfold vadd. rewrite length_zip_with. lia. Qed.

Lemma fold_vadd_spec (d : nat) (vs : list (list Q)) :
  Forall (fun v => length v = d) vs ->
  length (fold_right vadd (vzero d) vs) = d
  /\ forall j, (j < d)%nat ->
       nth j (fold_right vadd (vzero d) vs) 0 == Qsum (map (fun v => nth j v 0) vs).
Proof.
  induction 1 as [|v vs Hv _ [IHl IHn]]; simpl.
  - split; [apply repeat_length|]. intros j Hj. unfold vzero.
    rewrite nth_repeat. reflexivity.
  - split; [apply length_vadd; assumption|]. intros j Hj. unfold vadd at 1.
    rewrite (nth_zip_with _ _ _ _ 0 0) by lia. rewrite (IHn j Hj). reflexivity.
Qed.

Lemma fold_madd_spec (d : nat) (Ms : list (list (list Q))) :
  Forall (fun M => length M = d /\ Forall (fun v => length v = d) M) Ms ->
  let S := fold_right madd (repeat (vzero d) d) Ms in
  length S = d /\ Forall (fun v => length v = d) S
  /\ forall a b, (a < d)%nat -> (b < d)%nat ->
       entry S a b == Qsum (map (fun M => entry M a b) Ms).
Proof.
  induction 1 as [|M Ms [HMl HMw] _ IH]; cbv zeta in *; simpl.
  - split; [apply repeat_length|]. split.
    + apply Forall_forall. intros v Hv. apply repeat_spec in Hv. subst. apply repeat_length.
    + intros a b Ha Hb. unfold entry. rewrite nth_repeat_lt by exact Ha.
      unfold vzero. rewrite nth_repeat. reflexivity.
  - destruct IH as (IHl & IHw & IHe).
    set (S := fold_right madd (repeat (vzero d) d) Ms) in *.
    assert (Hrow : forall a, (a < d)%nat ->
              nth a (madd M S) [] = vadd (nth a M []) (nth a S [])).
    { intros a Ha. unfold madd. apply nth_zip_with; lia. }
    split; [unfold madd; rewrite length_zip_with; lia|]. split.
    + apply Forall_forall. intros v Hv.
      apply (In_nth _ _ []) in Hv. destruct Hv as (a & Ha & <-).
      unfold madd in Ha. rewrite length_zip_with in Ha.
      rewrite Hrow by lia. rewrite Forall_forall in HMw, IHw.
      apply length_vadd; [apply HMw|apply IHw]; apply nth_In; lia.
    + intros a b Ha Hb. unfold entry at 1. rewrite Hrow by exact Ha.
      rewrite Forall_forall in HMw, IHw.
      unfold vadd. rewrite (nth_zip_with _ _ _ _ 0 0).
      * fold (entry M a b). fold (entry S a b). rewrite (IHe a b Ha Hb). reflexivity.
      * rewrite (HMw (nth a M [])) by (apply nth_In; lia). exact Hb.
      * rewrite (IHw (nth a S [])) by (apply nth_In; lia). exact Hb.
Qed.

Lemma mapM_ok {A B : Type} (f : A -> result B) (P : A -> B -> Prop) (l : list A) :
  (forall x, In x l -> exists y, f x = Ok y /\ P x y) ->
  exists r, mapM f l = Ok r /\ Forall2 P l r.
Proof.
  induction l as [|x l IH]; intros H; simpl.
  - exists []. split; [reflexivity|constructor].
  - destruct (H x (or_introl eq_refl)) as (y & Hy & HP). rewrite Hy. simpl.
    destruct IH as (r & Hr & HF); [intros z Hz; apply H; right; exact Hz|].
    rewrite Hr. simpl. exists (y :: r). split; [reflexivity|]. constructor; assumption.
Qed.

Lemma Qsum_Forall2 {A : Type} (f : A -> Q) (l : list A) (r : list (list (list Q)))
    (a b : nat) :
  Forall2 (fun x M => entry M a b == f x) l r ->
  Qsum (map (fun M => entry M a b) r) == Qsum (map f l).
Proof.
  induction 1 as [|x M l r Hx _ IH]; simpl; [reflexivity|]. rewrite Hx, IH. reflexivity.
Qed.

Lemma sum0_spec (sh : ndarray) (d : nat) :
  ncols sh = d ->
  length (sum0 sh) = d
  /\ forall j, (j < d)%nat -> nth j (sum0 sh) 0 == sumQ (nrows sh) (fun r => get2 sh r j).
Proof.
  intros Hd. unfold sum0. rewrite Hd.
  pose proof (to_rows_width sh) as Hw. rewrite Hd in Hw.
  destruct (fold_vadd_spec d (to_rows sh) Hw) as [Hl Hn].
  split; [exact Hl|]. intros j Hj. rewrite (Hn j Hj).
  unfold to_rows. rewrite map_map, Qsum_map_seq. apply sumQ_ext. intros r Hr.
  rewrite nth_map_seq by lia. reflexivity.
Qed.

Section StatsProperties.

Variable cast : dtype -> Q -> Q.
Variable world : list ndarray.
Variable rank : nat.
Variable d : nat.

Hypothesis rank_in_world : exists data, world !! rank = Some data.
Hypothesis world_shape : Forall (fun sh =>
  nd_shape sh = [nrows sh; d] /\ is_float (nd_dtype sh) = true) world.

Lemma world_ncols (sh : ndarray) : In sh world -> ncols sh = d.
Proof.
  intros Hin. pose proof world_shape as Hws. rewrite Forall_forall in Hws.
  destruct (Hws sh Hin) as [Hs _]. unfold ncols. rewrite Hs. reflexivity.
Qed.

Lemma mpi_mean_spec :
  exists m, mpi_mean world rank = Ok m
    /\ length m = d
    /\ forall j, (j < d)%nat -> nth j m 0 == global_mean world j.
Proof.
  destruct rank_in_world as [data Hdata].
  assert (Hin : In data world)
    by (apply list_elem_of_In; eapply list_elem_of_lookup_2, Hdata).
  unfold mpi_mean, local_data. rewrite Hdata. cbn [bind].
  rewrite (world_ncols data Hin).
  assert (Hsums : Forall (fun v => length v = d) (map sum0 world)).
  { apply Forall_forall. intros v Hv. apply in_map_iff in Hv.
    destruct Hv as (sh & <- & Hsh). apply sum0_spec, world_ncols, Hsh. }
  unfold mpi.Allreduce_vec.
  replace (forallb _ (map sum0 world)) with true.
  2:{ symmetry. apply forallb_forall. intros v Hv. rewrite Forall_forall in Hsums.
      apply Nat.eqb_eq, Hsums, Hv. }
  cbn [bind]. eexists. split; [reflexivity|].
  destruct (fold_vadd_spec d (map sum0 world) Hsums) as [Hl Hn].
  split; [rewrite length_map; exact Hl|].
  intros j Hj. rewrite (nth_map_lt _ _ j 0) by lia.
  unfold global_mean, total_rows. apply Qmult_comp; [|reflexivity].
  rewrite (Hn j Hj), map_map. apply Qsum_map_ext. intros sh Hsh.
  exact (proj2 (sum0_spec sh d (world_ncols sh Hsh)) j Hj).
Qed.

Lemma cov_local_spec (m : list Q) (sh : ndarray) :
  length m = d -> In sh world ->
  exists M, cov_local cast m sh = Ok M
    /\ (length M = d /\ Forall (fun v => length v = d) M)
    /\ forall a b, (a < d)%nat -> (b < d)%nat ->
         entry M a b
         == sumQ (nrows sh)
              (fun r => (get2 sh r a - nth a m 0) * (get2 sh r b - nth b m 0)).
Proof.
  intros Hm Hin. pose proof world_shape as Hws. rewrite Forall_forall in Hws.
  destruct (Hws sh Hin) as [Hs Hfl].
  pose proof (world_ncols sh Hin) as Hc.
  unfold cov_local, broadcast_rows. rewrite Hc, Hm, Nat.eqb_refl. cbn [bind].
  assert (Hbw : broadcast_width d m = d)
    by (unfold broadcast_width; destruct m as [|x [|y m']]; simpl in *; lia).
  rewrite Hbw.
  set (centered := map (fun row => zip_with Qminus row m) (to_rows sh)).
  set (dc := of_rows (nd_dtype sh) (nrows sh) d centered).
  destruct (gemm_spec cast 1 (T dc) dc d (nrows sh) d)
    as (A' & B' & ta & tb & R & Hg & _ & _ & _ & HsR & _ & Hent);
    try reflexivity.
  - rewrite C_CONTIGUOUS_T, F_CONTIGUOUS_T. unfold dc.
    rewrite of_rows_contiguous. reflexivity.
  - unfold dc. rewrite of_rows_contiguous. apply orb_true_r.
  - exact Hfl.
  - unfold dot. rewrite Hg. cbn [bind]. eexists. split; [reflexivity|].
    assert (Hn : nrows (T R) = d /\ ncols (T R) = d)
      by (unfold nrows, ncols; rewrite HsR; split; reflexivity).
    destruct Hn as [Hnr Hnc].
    split.
    { split; [rewrite length_to_rows; exact Hnr|].
      pose proof (to_rows_width (T R)) as Hw. rewrite Hnc in Hw. exact Hw. }
    intros a b Ha Hb. unfold entry at 1. rewrite nth_to_rows by lia.
    rewrite (Hent a b Ha Hb), nth_naive_gemm by assumption.
    rewrite Qmult_1_l. apply sumQ_ext. intros r Hr.
    assert (Hcen : forall c, (c < d)%nat -> get2 dc r c = get2 sh r c - nth c m 0).
    { intros c Hcd. unfold dc. rewrite get2_of_rows by lia. unfold centered.
      rewrite (nth_map_lt _ _ r []) by (rewrite length_to_rows; exact Hr).
      pose proof (to_rows_width sh) as Hw. rewrite Hc, Forall_forall in Hw.
      rewrite (nth_zip_with _ _ _ _ 0 0).
      - unfold to_rows. rewrite (nth_map_seq _ _ r []) by exact Hr.
        rewrite nth_map_seq by lia. reflexivity.
      - rewrite (Hw (nth r (to_rows sh) [])); [exact Hcd|].
        apply nth_In. rewrite length_to_rows. exact Hr.
      - lia. }
    rewrite get2_T, !Hcen by assumption. reflexivity.
Qed.

Lemma mpi_cov_spec :
  exists m covmat, mpi_mean world rank = Ok m /\ mpi_cov cast world rank = Ok covmat
    /\ length m = d
    /\ (forall j, (j < d)%nat -> nth j m 0 == global_mean world j)
    /\ length covmat = d
    /\ forall a b, (a < d)%nat -> (b < d)%nat ->
         entry covmat a b == global_cov world m a b.
Proof.
  destruct mpi_mean_spec as (m & Hmean & Hml & Hmj).
  destruct (mapM_ok (cov_local cast m)
              (fun sh M => (length M = d /\ Forall (fun v => length v = d) M)
                 /\ forall a b, (a < d)%nat -> (b < d)%nat ->
                      entry M a b
                      == sumQ (nrows sh)
                           (fun r => (get2 sh r a - nth a m 0) * (get2 sh r b - nth b m 0)))
              world) as (locals & Hlocals & HF).
  { intros sh Hsh. apply cov_local_spec; assumption. }
  assert (Hshape : Forall (fun M => length M = d /\ Forall (fun v => length v = d) M) locals).
  { clear -HF. induction HF as [|sh M l r [HM _] _ IH]; constructor; assumption. }
  exists m. unfold mpi_cov. rewrite Hmean. cbn [bind].
  destruct rank_in_world as [data Hdata]. unfold local_data. rewrite Hdata. cbn [bind].
  rewrite Hlocals. cbn [bind]. unfold mpi.Allreduce_mat. rewrite Hml.
  replace (forallb _ locals) with true.
  2:{ symmetry. apply forallb_forall. intros M HM. rewrite Forall_forall in Hshape.
      destruct (Hshape M HM) as [Hl Hw]. apply andb_true_iff.
      split; [apply Nat.eqb_eq, Hl|]. apply forallb_forall. intros v Hv.
      rewrite Forall_forall in Hw. apply Nat.eqb_eq, Hw, Hv. }
  cbn [bind]. eexists. split; [exact eq_refl|]. split; [reflexivity|].
  split; [reflexivity|]. split; [exact Hmj|].
  destruct (fold_madd_spec d locals Hshape) as (Sl & Sw & Se).
  split; [rewrite length_map; exact Sl|].
  intros a b Ha Hb. unfold entry at 1.
  rewrite (nth_map_lt _ _ a []) by lia.
  rewrite (nth_map_lt _ _ b 0).
  2:{ rewrite Forall_forall in Sw. rewrite (Sw (nth a _ [])); [exact Hb|].
      apply nth_In. lia. }
  unfold global_cov. apply Qmult_comp; [|reflexivity].
  fold (entry (fold_right madd (repeat (vzero d) d) locals) a b).
  rewrite (Se a b Ha Hb). apply Qsum_Forall2.
  clear -HF Ha Hb. induction HF as [|sh M l r [_ HM] _ IH]; constructor; [|exact IH].
  apply HM; assumption.
Qed.

End StatsProperties.

(** ** Trainers *)

Lemma entry_naive_gemm (alpha : Q) (m k n : nat) (A B : nat -> nat -> Q) (i j : nat) :
  (i < m)%nat -> (j < n)%nat ->
  entry (mathutil.naive_gemm alpha m k n A B) i j
  = alpha * sumQ k (fun l => A i l * B l j).
Proof. apply nth_naive_gemm. Qed.

Lemma sumQ_diag (n j : nat) (f : nat -> Q) (v : list Q) :
  (j < n)%nat -> sumQ n (fun k => f k * diag v k j) == f j * nth j v 0.
Proof.
  induction n as [|n IH]; intros Hj; [lia|]. simpl.
  destruct (Nat.eq_dec j n) as [->|Hne].
  - rewrite sumQ_zero.
    + unfold diag. rewrite Nat.eqb_refl. ring.
    + intros l Hl. unfold diag.
      replace (l =? n)%nat with false by (symmetry; apply Nat.eqb_neq; lia). ring.
  - rewrite IH by lia. unfold diag at 1.
    replace (n =? j)%nat with false by (symmetry; apply Nat.eqb_neq; lia). ring.
Qed.

Section TrainerProperties.

Variable cast : dtype -> Q -> Q.
Variable sqrt : Q -> Q.
Variable eigh : list (list Q) -> list Q * list (list Q).
Variable world : list ndarray.
Variable rank : nat.

(** [eigh] of an [n x n] matrix returns [n] eigenvalues and an [n x n]
    matrix of eigenvectors. *)
Hypothesis eigh_shape : forall C,
  length (fst (eigh C)) = length C
  /\ length (snd (eigh C)) = length C
  /\ Forall (fun row => length row = length C) (snd (eigh C)).

Lemma width_eigvec (C : list (list Q)) : width (snd (eigh C)) = length C \/ length C = 0%nat.
Proof.
  destruct (eigh_shape C) as (_ & Hl & Hall).
  destruct (snd (eigh C)) as [|row rows]; simpl in *; [right; lia|].
  left. inversion Hall; assumption.
Qed.

(** What the trainers return once the statistics are known. *)
Lemma whitening_from_statistics (specs : gmap string pyval) (m : list Q)
    (covmat : list (list Q)) (reg : Q) :
  mathutil.mpi_mean world rank = Ok m ->
  mathutil.mpi_cov cast world rank = Ok covmat ->
  as_float (specs_get specs "reg" (PyFloat float64_eps)) = Ok reg ->
  let eigval := fst (eigh covmat) in
  let eigvec := snd (eigh covmat) in
  let n := length covmat in
  let scale := map (fun l => 1 / (sqrt (Qmax l 0) + reg)) eigval in
  exists W_pca W_zca,
    PcaTrainer.train cast sqrt eigh world rank specs
    = Ok ((W_pca, map Qopp m), (eigval, eigvec, covmat))
    /\ ZcaTrainer.train cast sqrt eigh world rank specs
       = Ok ((W_zca, map Qopp m), (eigval, eigvec, covmat))
    /\ (forall i j, (i < n)%nat -> (j < n)%nat ->
          entry W_pca i j
          == entry (mathutil.naive_gemm 1 n n n (entry eigvec) (diag scale)) i j)
    /\ (forall i j, (i < n)%nat -> (j < n)%nat ->
          entry W_zca i j
          == entry (mathutil.naive_gemm 1 n n n (entry W_pca)
                      (fun k j => entry eigvec j k)) i j)
    /\ (specs !! "reg" = None -> reg = float64_eps).
Proof.
  intros Hm Hcov Hreg. cbv zeta.
  destruct (eigh_shape covmat) as (Hval & Hvec & Hrows).
  set (n := length covmat) in *.
  assert (Hpca : exists W,
    PcaTrainer.train cast sqrt eigh world rank specs
    = Ok ((W, map Qopp m), (fst (eigh covmat), snd (eigh covmat), covmat))
    /\ length W = n
    /\ forall i j, (i < n)%nat -> (j < n)%nat ->
         entry W i j == entry (snd (eigh covmat)) i j
                        * (1 / (sqrt (Qmax (nth j (fst (eigh covmat)) 0) 0) + reg))).
  { unfold PcaTrainer.train, mathutil.mpi_meancov. rewrite Hm, Hcov. cbn [bind].
    unfold mpi.bcast, PcaTrainer.root_block. cbn [mpi.is_root Nat.eqb].
    destruct (eigh covmat) as [eigval eigvec] eqn:He. cbn [fst snd] in *.
    rewrite Hreg. cbn [bind].
    destruct (broadcast_rows false Qdiv (width eigvec)
                (map (map (fun x => x * 1)) eigvec)
                (map (fun l => sqrt (Qmax l 0) + reg) eigval)) as [W|e] eqn:HW.
    2:{ exfalso. unfold broadcast_rows in HW. rewrite length_map, Hval in HW.
        destruct eigvec as [|row rows]; simpl in *.
        - rewrite <- Hvec in HW. simpl in HW. discriminate.
        - inversion Hrows as [|? ? Hr _]; subst. rewrite Hr, Nat.eqb_refl in HW.
          discriminate. }
    cbn [bind option_map fst snd]. exists W. split; [reflexivity|].
    unfold broadcast_rows in HW. rewrite length_map, Hval in HW.
    assert (Hz : W = map (fun row => zip_with Qdiv row
                                       (map (fun l => sqrt (Qmax l 0) + reg) eigval))
                         (map (map (fun x => x * 1)) eigvec)).
    { destruct eigvec as [|row rows]; simpl in *.
      - rewrite <- Hvec in HW. simpl in HW. injection HW as <-. reflexivity.
      - inversion Hrows as [|? ? Hr _]; subst. rewrite Hr, Nat.eqb_refl in HW.
        injection HW as <-. reflexivity. }
    subst W. split; [rewrite !length_map; exact Hvec|].
    intros i j Hi Hj. unfold entry.
    rewrite (nth_map_lt _ _ i []) by (rewrite length_map, Hvec; exact Hi).
    rewrite (nth_map_lt _ _ i []) by (rewrite Hvec; exact Hi).
    assert (Hrow : length (nth i eigvec []) = n).
    { rewrite Forall_forall in Hrows. apply Hrows, nth_In. rewrite Hvec. exact Hi. }
    rewrite (nth_zip_with _ _ _ _ 0 0) by (rewrite ?length_map; lia).
    rewrite (nth_map_lt _ _ j 0) by lia.
    rewrite (nth_map_lt _ _ j 0) by lia.
    unfold Qdiv. ring. }
  destruct Hpca as (W & HW & HlenW & HentW).
  exists W. eexists. split; [exact HW|].
  split; [unfold ZcaTrainer.train; rewrite HW; cbn [bind]; reflexivity|].
  split.
  { intros i j Hi Hj. rewrite (HentW i j Hi Hj).
    rewrite entry_naive_gemm by assumption.
    rewrite sumQ_diag by exact Hj.
    rewrite (nth_map_lt _ _ j 0) by lia. ring. }
  split.
  { intros i j Hi Hj. rewrite entry_naive_gemm by assumption.
    unfold entry at 1. unfold np_dot. rewrite (nth_map_lt _ _ i []) by lia.
    rewrite Hvec, nth_map_seq by exact Hj.
    unfold transpose. rewrite length_map, length_seq.
    destruct (width_eigvec covmat) as [Hwd|Hz]; [|fold n in Hz; lia].
    rewrite Hwd. fold n. rewrite Qmult_1_l. apply sumQ_ext. intros l Hl.
    rewrite (nth_map_seq _ n l []) by exact Hl.
    rewrite (nth_map_lt _ _ j []) by lia. reflexivity. }
  intros Hnone. unfold specs_get in Hreg. rewrite Hnone in Hreg. simpl in Hreg.
  injection Hreg as <-. reflexivity.
Qed.

End TrainerProperties.

(** A non-negative square root and a positive [reg] keep every divisor of
    the whitening away from zero. *)
Lemma whitening_divisors_positive (sqrt : Q -> Q) (reg : Q) (eigval : list Q) :
  (forall x, 0 <= sqrt x) -> 0 < reg ->
  Forall (fun l => ~ sqrt (Qmax l 0) + reg == 0) eigval.
Proof.
  intros Hsqrt Hreg. apply Forall_forall. intros l _ H.
  pose proof (Hsqrt (Qmax l 0)) as Hl. lra.
Qed.

(** C5: on the patch batches of all workers (float matrices of [d]
    columns) that hold at least one row, and where no
    [sqrt(max(eigval, 0)) + reg] is zero, [PcaTrainer.train] returns
    [((W, -m), (eigval, eigvec, covmat))] where [m] is the mean and
    [covmat] the covariance of all rows, [(eigval, eigvec)] is the
    eigendecomposition of [covmat], and
    [W = eigvec * diag(1 / (sqrt(max(eigval, 0)) + reg))], with [reg] the
    machine epsilon unless [specs] sets it; [ZcaTrainer.train] returns the
    same with [W] replaced by [W * eigvec.T]. *)
Theorem pca_zca_train_whitening (cast : dtype -> Q -> Q) (sqrt : Q -> Q)
    (eigh : list (list Q) -> list Q * list (list Q)) (world : list ndarray)
    (rank d : nat) (specs : gmap string pyval) (reg : Q) :
  (forall C, length (fst (eigh C)) = length C
             /\ length (snd (eigh C)) = length C
             /\ Forall (fun row => length row = length C) (snd (eigh C))) ->
  (exists data, world !! rank = Some data) ->
  Forall (fun sh => nd_shape sh = [nrows sh; d] /\ is_float (nd_dtype sh) = true) world ->
  (0 < total_rows world)%nat ->
  as_float (specs_get specs "reg" (PyFloat float64_eps)) = Ok reg ->
  (forall m covmat, mpi_meancov cast world rank = Ok (m, covmat) ->
     Forall (fun l => ~ sqrt (Qmax l 0) + reg == 0) (fst (eigh covmat))) ->
  exists m covmat W_pca W_zca,
    let eigval := fst (eigh covmat) in
    let eigvec := snd (eigh covmat) in
    let scale := map (fun l => 1 / (sqrt (Qmax l 0) + reg)) eigval in
    PcaTrainer.train cast sqrt eigh world rank specs
    = Ok ((W_pca, map Qopp m), (eigval, eigvec, covmat))
    /\ ZcaTrainer.train cast sqrt eigh world rank specs
       = Ok ((W_zca, map Qopp m), (eigval, eigvec, covmat))
    /\ length m = d
    /\ (forall j, (j < d)%nat -> nth j m 0 == global_mean world j)
    /\ length covmat = d
    /\ (forall a b, (a < d)%nat -> (b < d)%nat ->
          entry covmat a b == global_cov world m a b)
    /\ Forall (fun l => ~ sqrt (Qmax l 0) + reg == 0) eigval
    /\ (forall i j, (i < d)%nat -> (j < d)%nat ->
          entry W_pca i j
          == entry (naive_gemm 1 d d d (entry eigvec) (diag scale)) i j)
    /\ (forall i j, (i < d)%nat -> (j < d)%nat ->
          entry W_zca i j
          == entry (naive_gemm 1 d d d (entry W_pca) (fun k j => entry eigvec j k)) i j)
    /\ (specs !! "reg" = None -> reg = float64_eps).
Proof.
  intros Heigh Hrank Hworld Hrows Hreg Hdiv.
  destruct (mpi_cov_spec cast world rank d Hrank Hworld)
    as (m & covmat & Hmean & Hcov & Hml & Hmj & Hcl & Hce).
  destruct (whitening_from_statistics cast sqrt eigh world rank Heigh specs m covmat reg
              Hmean Hcov Hreg) as (W_pca & W_zca & H1 & H2 & H3 & H4 & H5).
  rewrite Hcl in H3, H4.
  assert (Hmc : mpi_meancov cast world rank = Ok (m, covmat))
    by (unfold mpi_meancov; rewrite Hmean, Hcov; reflexivity).
  exists m, covmat, W_pca, W_zca. cbv zeta.
  split; [exact H1|]. split; [exact H2|]. split; [exact Hml|]. split; [exact Hmj|].
  split; [exact Hcl|]. split; [exact Hce|]. split; [exact (Hdiv m covmat Hmc)|].
  split; [exact H3|]. split; [exact H4|exact H5].
Qed.

(** ** Scattering values into a row *)

Lemma nth_insert {A : Type} (l : list A) : forall (i j : nat) (v d : A),
  nth j (<[i := v]> l) d = if (i =? j)%nat && (i <? length l)%nat then v else nth j l d.
Proof.
  induction l as [|x l IH]; intros [|i] [|j] v d; simpl; try reflexivity.
  - rewrite andb_false_r. reflexivity.
  - rewrite IH. reflexivity.
Qed.



Lemma Qnonzero_zero (q : Q) : Qnonzero q = false -> q == 0.
Proof.
  unfold Qnonzero. intros H. apply negb_false_iff in H. apply Qeq_bool_iff, H.
Qed.




Lemma assign_row_eq (row : list Q) (idx : list nat) (vals : list Q) :
  length idx = length vals -> assign_row row idx vals = assign_at row idx vals.
Proof.
  intros Hlen. unfold assign_row.
  destruct vals as [|x [|y vals]]; try reflexivity.
  destruct idx as [|i [|j idx]]; try discriminate. reflexivity.
Qed.

(** ** Shapes of a product that returned *)



(** ** [LLCEncoder] *)







Section LLCProperties.

Variable cast : dtype -> Q -> Q.
Variable bn : option (list Q -> nat -> list nat).
Variable argsort : list Q -> list nat.
Variable solve : list (list Q) -> list Q -> result (list Q).

Hypothesis argsort_perm : forall row, Permutation (argsort row) (seq 0 (length row)).
Hypothesis argpartsort_perm : forall f, bn = Some f ->
  forall row K, Permutation (f row K) (seq 0 (length row)).
Hypothesis solve_spec : forall C b w, solve C b = Ok w ->
  length w = length b
  /\ forall a, (a < length b)%nat -> dotQ (nth a C []) w == nth a b 0.

Local Abbreviation encode_row := (LLCEncoder.encode_row cast solve).



Lemma NoDup_firstn {A : Type} (n : nat) (l : list A) : NoDup l -> NoDup (firstn n l).
Proof.
  intros H. rewrite <- (firstn_skipn n l) in H. apply NoDup_app_remove_r in H. exact H.
Qed.

Lemma nearest_spec (K nD : nat) (distance : list (list Q)) :
  (K <= nD)%nat -> Forall (fun row => length row = nD) distance ->
  length (LLCEncoder.nearest bn argsort K distance) = length distance
  /\ Forall (fun idx => NoDup idx /\ length idx = K
                        /\ Forall (fun i => (i < nD)%nat) idx)
       (LLCEncoder.nearest bn argsort K distance).
Proof.
  intros HK Hd.
  assert (Hone : forall (perm : list nat), Permutation perm (seq 0 nD) ->
            NoDup (firstn K perm) /\ length (firstn K perm) = K
            /\ Forall (fun i => (i < nD)%nat) (firstn K perm)).
  { intros perm Hp. split; [|split].
    - apply NoDup_firstn. eapply Permutation_NoDup; [symmetry; exact Hp|apply seq_NoDup].
    - rewrite length_firstn, (Permutation_length Hp), length_seq. lia.
    - apply Forall_forall. intros i Hi. apply In_firstn in Hi.
      apply (Permutation_in _ Hp), in_seq in Hi. lia. }
  unfold LLCEncoder.nearest. destruct bn as [f|] eqn:Hbn.
  - split; [apply length_map|]. apply Forall_forall. intros idx Hidx.
    apply in_map_iff in Hidx. destruct Hidx as (row & <- & Hrow).
    apply Hone. rewrite Forall_forall in Hd. rewrite <- (Hd row Hrow).
    apply (argpartsort_perm f eq_refl).
  - split; [apply length_map|]. apply Forall_forall. intros idx Hidx.
    apply in_map_iff in Hidx. destruct Hidx as (row & <- & Hrow).
    apply Hone. rewrite Forall_forall in Hd. rewrite <- (Hd row Hrow).
    apply argsort_perm.
Qed.


Lemma Forall2_nth {A B : Type} (P : A -> B -> Prop) (l : list A) (l' : list B)
    (r : nat) (d : A) (d' : B) :
  Forall2 P l l' -> (r < length l')%nat -> P (nth r l d) (nth r l' d').
Proof.
  intros H. revert r. induction H as [|a b l l' Hab _ IH]; intros [|r] Hr; simpl in *;
    try lia; [exact Hab|apply IH; lia].
Qed.


Local Abbreviation process := (LLCEncoder.process cast bn argsort solve).



End LLCProperties.

(** *** When [process] returns *)

Section LLCReturns.

Variable cast : dtype -> Q -> Q.
Variable bn : option (list Q -> nat -> list nat).
Variable argsort : list Q -> list nat.
Variable solve : list (list Q) -> list Q -> result (list Q).

Hypothesis argsort_perm : forall row, Permutation (argsort row) (seq 0 (length row)).
Hypothesis argpartsort_perm : forall f, bn = Some f ->
  forall row K, Permutation (f row K) (seq 0 (length row)).
Hypothesis solve_spec : forall C b w, solve C b = Ok w ->
  length w = length b
  /\ forall a, (a < length b)%nat -> dotQ (nth a C []) w == nth a b 0.

Lemma local_system_returns (K : nat) (regv : pyval) (reg : Q) (D : ndarray) (nD d : nat)
    (x : list Q) (idx : list nat) :
  nd_shape D = [nD; d] -> as_float regv = Ok reg -> length x = d ->
  length idx = K -> Forall (fun i => (i < nD)%nat) idx ->
  exists C, LLCEncoder.local_system cast K regv D x idx = Ok C.
Proof.
  intros HsD Hreg Hx Hlen Hrange.
  assert (HcD : ncols D = d) by (unfold ncols; rewrite HsD; reflexivity).
  assert (HrD : nrows D = nD) by (unfold nrows; rewrite HsD; reflexivity).
  unfold LLCEncoder.local_system. rewrite HcD.
  destruct (mapM_ok (fun k => match to_rows D !! k with
                              | Some dd => Ok dd
                              | None => Raise IndexError
                              end)
              (fun k dd => length dd = d) idx) as (picked & Hpick & HF).
  { intros k Hk. rewrite Forall_forall in Hrange.
    destruct (lookup_lt_is_Some_2 (to_rows D) k) as [dd Hdd];
      [rewrite length_to_rows, HrD; apply Hrange, Hk|].
    rewrite Hdd. exists dd. split; [reflexivity|].
    pose proof (to_rows_width D) as Hw. rewrite HcD, Forall_forall in Hw.
    apply Hw, list_elem_of_In. eapply list_elem_of_lookup_2, Hdd. }
  unfold LLCEncoder.take_rows. rewrite Hpick. cbn [bind].
  assert (Hpl : length picked = K) by (rewrite <- Hlen; symmetry; eapply Forall2_length, HF).
  unfold LLCEncoder.fill_rows. rewrite Hpl, Nat.eqb_refl. cbn [bind].
  unfold broadcast_rows. rewrite Hx, Nat.eqb_refl. cbn [bind].
  set (Z := map (fun row => zip_with Qminus row x) picked).
  assert (HZl : length Z = K) by (unfold Z; rewrite length_map; exact Hpl).
  destruct (gemm_spec cast 1 (array_of d Z) (T (array_of d Z)) K d K)
    as (A' & B' & ta & tb & R0 & Hg & _); try reflexivity.
  { unfold array_of, of_rows; simpl. rewrite HZl. reflexivity. }
  { unfold array_of, of_rows, T; simpl. rewrite HZl. reflexivity. }
  { unfold array_of. rewrite of_rows_contiguous. apply orb_true_r. }
  { rewrite F_CONTIGUOUS_T. unfold array_of. rewrite of_rows_contiguous. reflexivity. }
  unfold dot. rewrite Hg. cbn [bind]. rewrite Hreg. cbn [bind].
  eexists. reflexivity.
Qed.

Lemma encode_row_returns (K : nat) (regv : pyval) (reg : Q) (D : ndarray) (nD d : nat)
    (x : list Q) (idx : list nat) :
  nd_shape D = [nD; d] -> as_float regv = Ok reg -> length x = d ->
  length idx = K -> Forall (fun i => (i < nD)%nat) idx ->
  (forall C, LLCEncoder.local_system cast K regv D x idx = Ok C ->
             exists w, solve C (repeat 1 K) = Ok w) ->
  exists row, LLCEncoder.encode_row cast solve K regv D x idx = Ok row.
Proof.
  intros HsD Hreg Hx Hlen Hrange Hsolve.
  destruct (local_system_returns K regv reg D nD d x idx HsD Hreg Hx Hlen Hrange)
    as [C HC].
  unfold LLCEncoder.encode_row. rewrite HC. cbn [bind].
  destruct (Hsolve C HC) as [w Hw]. rewrite Hw. cbn [bind].
  destruct (solve_spec _ _ _ Hw) as [Hwl _]. rewrite repeat_length in Hwl.
  rewrite assign_row_eq by (rewrite length_map; lia).
  destruct (assign_at_ok idx (repeat 0 (nrows D)) (map (fun a => a / Qsum w) w))
    as (row & Hrow & _).
  - rewrite length_map. lia.
  - rewrite repeat_length. unfold nrows. rewrite HsD. exact Hrange.
  - exists row. exact Hrow.
Qed.

(** On a contiguous float dictionary of [nD] rows of width [d], a row-major
    image of that width and dtype, and [K <= nD] neighbours, the first
    [process] call returns an image as soon as [solve] returns on the local
    system of every input row. *)
Lemma llc_process_returns (self : FeatureEncoder.t) (im : image) (D : ndarray)
    (nD d K : nat) (reg : Q) :
  FeatureEncoder.dictionary self = Some (DMatrix D) ->
  FeatureEncoder.specs self !! "D_norm" = None ->
  nd_shape D = [nD; d] -> (F_CONTIGUOUS D || C_CONTIGUOUS D) = true ->
  nd_dtype D = im_dtype im -> is_float (im_dtype im) = true -> im_width im = d ->
  as_int (specs_get (FeatureEncoder.specs self) "k" (PyInt 5)) = Ok (Z.of_nat K) ->
  (K <= nD)%nat ->
  as_float (specs_get (FeatureEncoder.specs self) "reg" (PyFloat (1 # 10000))) = Ok reg ->
  (forall distance x idx C,
     LLCEncoder.distances cast D (LLCEncoder.half_sq_norms D) (image_2d im) = Ok distance ->
     In (x, idx) (zip (to_rows (image_2d im)) (LLCEncoder.nearest bn argsort K distance)) ->
     LLCEncoder.local_system cast K
       (specs_get (FeatureEncoder.specs self) "reg" (PyFloat (1 # 10000))) D x idx = Ok C ->
     exists w, solve C (repeat 1 K) = Ok w) ->
  exists out, snd (LLCEncoder.process cast bn argsort solve self im) = Ok out.
Proof.
  intros Hdict Hnone HsD HcD Hdt Hfl Hw HKv HK Hreg Hsolve.
  unfold LLCEncoder.process, FeatureEncoder.matrix_dictionary.
  rewrite Hdict, Hnone. cbn [snd]. unfold specs_item. rewrite lookup_insert_eq.
  cbn [bind as_vector]. unfold LLCEncoder.encode.
  assert (HTc : (F_CONTIGUOUS (T D) || C_CONTIGUOUS (T D)) = true)
    by (rewrite F_CONTIGUOUS_T, C_CONTIGUOUS_T, orb_comm; exact HcD).
  assert (Hneg : LLCEncoder.neg (T D)
                 = mk_ndarray (nd_dtype D) [d; nD] (rev (nd_strides D)) (nd_offset D)
                     (map Qopp (nd_data D))).
  { unfold LLCEncoder.neg. rewrite HTc. unfold T; simpl. rewrite HsD. reflexivity. }
  destruct (gemm_spec cast 1 (image_2d im) (LLCEncoder.neg (T D))
              (prod (im_lead im)) d nD)
    as (A' & B' & ta & tb & R0 & Hg & _ & _ & _ & HsR & _).
  { unfold image_2d, of_rows; simpl. rewrite Hw. reflexivity. }
  { rewrite Hneg. reflexivity. }
  { unfold image_2d. rewrite of_rows_contiguous. apply orb_true_r. }
  { rewrite Hneg. unfold F_CONTIGUOUS, C_CONTIGUOUS, has_zero_dim in *.
    unfold T in HTc; simpl in *. rewrite HsD in HTc. exact HTc. }
  { exact Hfl. }
  { rewrite Hneg. exact Hdt. }
  assert (HR : nrows (T R0) = prod (im_lead im) /\ ncols (T R0) = nD)
    by (unfold nrows, ncols; rewrite HsR; split; reflexivity).
  destruct HR as [HrR HcR].
  assert (Hnorm : length (LLCEncoder.half_sq_norms D) = nD).
  { unfold LLCEncoder.half_sq_norms. rewrite length_map, length_to_rows.
    unfold nrows. rewrite HsD. reflexivity. }
  set (distance := map (fun row => zip_with Qplus row (LLCEncoder.half_sq_norms D))
                       (to_rows (T R0))).
  assert (Hdist : LLCEncoder.distances cast D (LLCEncoder.half_sq_norms D) (image_2d im)
                  = Ok distance).
  { unfold LLCEncoder.distances, dot. rewrite Hg. cbn [bind]. rewrite HcR.
    unfold broadcast_rows. rewrite Hnorm, Nat.eqb_refl. reflexivity. }
  rewrite Hdist. cbn [bind]. rewrite HKv. cbn [bind].
  replace (Z.of_nat K <? 0)%Z with false by (symmetry; apply Z.ltb_ge; lia).
  rewrite Nat2Z.id.
  assert (Hdw : Forall (fun row => length row = nD) distance).
  { apply Forall_forall. intros row Hrow. apply in_map_iff in Hrow.
    destruct Hrow as (r0 & <- & Hr0).
    pose proof (to_rows_width (T R0)) as Hwd. rewrite HcR, Forall_forall in Hwd.
    rewrite length_zip_with, (Hwd r0 Hr0), Hnorm. apply Nat.min_id. }
  destruct (nearest_spec bn argsort argsort_perm argpartsort_perm K nD distance HK Hdw)
    as [_ Hidx].
  destruct (mapM_ok (fun xi => LLCEncoder.encode_row cast solve K
                                 (specs_get (FeatureEncoder.specs self) "reg"
                                    (PyFloat (1 # 10000)))
                                 D (fst xi) (snd xi))
              (fun _ _ => True)
              (zip (to_rows (image_2d im)) (LLCEncoder.nearest bn argsort K distance)))
    as (coeff & Hcoeff & _).
  { intros [x idx] Hin'. pose proof (Hsolve distance x idx) as Hsol.
    pose proof Hin' as Hin. apply list_elem_of_In, elem_of_zip_with in Hin.
    destruct Hin as (x' & idx' & Heq & Hx' & Hidx'). injection Heq as -> ->.
    apply list_elem_of_In in Hx', Hidx'. rewrite Forall_forall in Hidx.
    destruct (Hidx idx' Hidx') as (_ & Hl & Hr).
    destruct (encode_row_returns K _ reg D nD d x' idx' HsD Hreg) as [row Hrow];
      try assumption.
    - pose proof (to_rows_width (image_2d im)) as Hwx. rewrite Forall_forall in Hwx.
      rewrite (Hwx x' Hx'). unfold image_2d, of_rows, ncols; simpl. exact Hw.
    - intros C HC. apply (Hsol C Hdist Hin' HC).
    - exists row. split; [exact Hrow|exact I]. }
  rewrite Hcoeff. cbn [bind]. eexists. reflexivity.
Qed.

End LLCReturns.

(** ** [FeatureEncoder.train] *)

(** C7 (as amended): [train] on an encoder without a trainer returns
    normally and leaves the encoder, its dictionary included, as it was. *)
Theorem train_without_trainer_is_silent (specs : gmap string pyval)
    (dictionary : option dict) (patches : image) :
  FeatureEncoder.train (FeatureEncoder.mk specs None dictionary) patches
  = Ok (FeatureEncoder.mk specs None dictionary).
Proof. reflexivity. Qed.

(** C7 (as stated) fails: on an encoder built without a trainer, [train]
    raises nothing. *)
Lemma train_without_trainer_does_not_raise :
  ~ exists e, FeatureEncoder.train example.untrained example.pixel = Raise e.
Proof. intros [e H]. discriminate H. Qed.

(** ** The reference routines meet the assumptions *)

Lemma reference_rand_nonneg (g n : nat) : Forall (Qle 0) (fst (reference.rand g n)).
Proof.
  unfold reference.rand. cbn [fst]. apply Forall_forall. intros u Hu.
  apply in_map_iff in Hu. destruct Hu as (i & <- & _).
  unfold Qle. simpl. lia.
Qed.

Lemma reference_randint_range (g high size : nat) :
  length (fst (reference.randint g high size)) = size
  /\ ((0 < high)%nat ->
      Forall (fun i => (i < high)%nat) (fst (reference.randint g high size))).
Proof.
  unfold reference.randint. cbn [fst]. split.
  - rewrite length_map, length_seq. reflexivity.
  - intros Hh. apply Forall_forall. intros i Hi.
    apply in_map_iff in Hi. destruct Hi as (j & <- & _).
    apply Nat.mod_upper_bound. lia.
Qed.





Lemma reference_sqrt_nonneg (x : Q) : 0 <= reference.sqrt x.
Proof.
  unfold reference.sqrt, Qle. cbn [Qnum Qden]. rewrite Z.mul_1_r. simpl.
  apply Z.sqrt_nonneg.
Qed.

Lemma reference_eigh_shape (C : list (list Q)) :
  length (fst (reference.eigh_diagonal C)) = length C
  /\ length (snd (reference.eigh_diagonal C)) = length C
  /\ Forall (fun row => length row = length C) (snd (reference.eigh_diagonal C)).
Proof.
  unfold reference.eigh_diagonal. cbn [fst snd].
  rewrite !length_map, !length_seq. split; [reflexivity|]. split; [reflexivity|].
  apply Forall_forall. intros row Hrow. apply in_map_iff in Hrow.
  destruct Hrow as (a & <- & _). rewrite length_map, length_seq. reflexivity.
Qed.

(** ** The statements at concrete inputs *)

(** C1 at the reference square root. *)
Lemma VQ_rows_share_all_winners_witness :
  VQEncoder.process reference.sqrt vq_encoder vq_batch
  = Ok (mk_image Float64 true [2%nat] 2 [[1; 1]; [1; 1]]).
Proof. apply (VQ_rows_share_all_winners reference.sqrt). reflexivity. Defined.

(** C2 on a [float32] [A] and a [float64] [B]. *)
Lemma gemm_row_major_product_witness :
  let A := example.single_one in
  let B := example.double_near_one in
  let B0 := mathutil.asarray reference.single B (nd_dtype A) in
  exists (A' B' : ndarray) (trans_a trans_b : bool) (R : ndarray),
    mathutil.gemm reference.single 1 A B None None = Ok (T R)
    /\ mathutil.fblas_gemm (nd_dtype A) 1 B' A' trans_b trans_a = Ok R
    /\ (nd_data A' = nd_data A /\ nd_offset A' = nd_offset A /\ F_CONTIGUOUS A' = true)
    /\ (nd_data B' = nd_data B0 /\ nd_offset B' = nd_offset B0 /\ F_CONTIGUOUS B' = true)
    /\ nd_shape (T R) = [1%nat; 1%nat]
    /\ C_CONTIGUOUS (T R) = true
    /\ forall i j, (i < 1)%nat -> (j < 1)%nat ->
         get2 (T R) i j
         == nth j (nth i (mathutil.naive_gemm 1 1 1 1 (get2 A)
                            (fun l j => reference.single (nd_dtype A) (get2 B l j))) []) 0.
Proof.
  apply (gemm_row_major_product reference.single 1 example.single_one
           example.double_near_one 1 1 1); reflexivity.
Defined.

(** C3 on five rows in two batches and a reservoir of two slots. *)
Lemma reservoir_count_and_containment_witness :
  exists (s : ReservoirSampler.t (list Q)) (g' : nat),
    ReservoirSampler.consider_all (fun _ => []) nat reference.rand reference.randint
      0%nat (ReservoirSampler.__init__ 2) example.batches = Ok (s, g')
    /\ ReservoirSampler.num_considered s
       = length (concat (map ReservoirSampler.rows example.batches))
    /\ exists out : list (list Q),
         ReservoirSampler.get s = Ok (Some out)
         /\ length out
            = Nat.min 2 (length (concat (map ReservoirSampler.rows example.batches)))
         /\ Forall (fun r => exists f, In f example.batches /\ In r (ReservoirSampler.rows f))
              out
         /\ ((length (concat (map ReservoirSampler.rows example.batches)) < 2)%nat ->
             out = concat (map ReservoirSampler.rows example.batches)).
Proof.
  apply (reservoir_count_and_containment (fun _ => []) nat reference.rand reference.randint
           reference_rand_nonneg reference_randint_range 2 0%nat [1%nat] example.batches).
  repeat constructor.
Defined.



(** C8 with the default options. *)
Lemma threshold_twoside_doubles_and_excludes_witness :
  exists proj out,
    mathutil.dot_image reference.exact example.im (T example.D) = Ok proj
    /\ ThresholdEncoder.process reference.exact example.threshold example.im = Ok out
    /\ im_width proj = 3%nat /\ im_width out = (2 * 3)%nat
    /\ im_lead out = im_lead example.im
    /\ length (im_rows out) = length (im_rows proj)
    /\ forall r j, (r < length (im_rows proj))%nat -> (j < 3)%nat ->
         let v := nth j (nth r (im_rows proj) []) 0 in
         let p := nth j (nth r (im_rows out) []) 0 in
         let q := nth (3 + j) (nth r (im_rows out) []) 0 in
         length (nth r (im_rows out) []) = (2 * 3)%nat
         /\ p == Qmax (v - (1 # 4)) 0 /\ q == Qmax (- v - (1 # 4)) 0
         /\ (p == 0 \/ q == 0).
Proof.
  apply (threshold_twoside_doubles_and_excludes reference.exact example.threshold
           example.im example.D 3 2 (1 # 4)); try reflexivity.
  discriminate.
Defined.

(** C5 on two workers, seen from the worker of rank 1. *)
Lemma pca_zca_train_whitening_witness :
  exists m covmat W_pca W_zca,
    let eigval := fst (reference.eigh_diagonal covmat) in
    let eigvec := snd (reference.eigh_diagonal covmat) in
    let scale := map (fun l => 1 / (reference.sqrt (Qmax l 0) + float64_eps)) eigval in
    PcaTrainer.train reference.exact reference.sqrt reference.eigh_diagonal
      example.world 1 ∅
    = Ok ((W_pca, map Qopp m), (eigval, eigvec, covmat))
    /\ ZcaTrainer.train reference.exact reference.sqrt reference.eigh_diagonal
         example.world 1 ∅
       = Ok ((W_zca, map Qopp m), (eigval, eigvec, covmat))
    /\ length m = 2%nat
    /\ (forall j, (j < 2)%nat -> nth j m 0 == global_mean example.world j)
    /\ length covmat = 2%nat
    /\ (forall a b, (a < 2)%nat -> (b < 2)%nat ->
          entry covmat a b == global_cov example.world m a b)
    /\ Forall (fun l => ~ reference.sqrt (Qmax l 0) + float64_eps == 0) eigval
    /\ (forall i j, (i < 2)%nat -> (j < 2)%nat ->
          entry W_pca i j
          == entry (naive_gemm 1 2 2 2 (entry eigvec) (diag scale)) i j)
    /\ (forall i j, (i < 2)%nat -> (j < 2)%nat ->
          entry W_zca i j
          == entry (naive_gemm 1 2 2 2 (entry W_pca) (fun k j => entry eigvec j k)) i j)
    /\ ((∅ : gmap string pyval) !! "reg" = None -> float64_eps = float64_eps).
Proof.
  apply (pca_zca_train_whitening reference.exact reference.sqrt reference.eigh_diagonal
           example.world 1 2 ∅ float64_eps reference_eigh_shape).
  - eexists. reflexivity.
  - repeat constructor.
  - vm_compute. lia.
  - reflexivity.
  - intros m covmat _.
    apply whitening_divisors_positive; [apply reference_sqrt_nonneg|reflexivity].
Defined.

(** ** Runs of the model *)

(** The layer [example.layer] trains its components 1 and 2 and stops at
    the Pooler; only component 1 hands a processed batch on. *)
Example convlayer_train_run :
  ConvLayer.train unit example.shift example.sample example.processed example.layer
    tt 10 false (1 # 10)
  = ([EvSample;
      EvBarrier; EvTrain 1 example.pixel; EvProcess 1 example.pixel;
      EvBarrier; EvTrain 2 (mk_image Float64 true [1%nat] 1 [[1 + 1]])],
     Ok example.layer).
Proof. reflexivity. Qed.

(** The layer [example.deep] is handed back with the encoder that its own
    [process] call left: new dictionary, and the norms stored in [specs]. *)
Example convlayer_train_keeps_processed_run :
  snd (ConvLayer.train unit example.encode_or_shift example.sample_rows example.processed
         example.deep tt 10 false (1 # 10))
  = Ok example.deep_trained.
Proof. vm_compute. reflexivity. Qed.

(** A sampler of five slots that considered no batch: [get] raises
    [TypeError] at the slice of [_data], which is still [None]. *)
Example reservoir_get_before_consider_run :
  ReservoirSampler.get (ReservoirSampler.__init__ (row := list Q) 5) = Raise TypeError.
Proof. reflexivity. Qed.

(** With ['twoside': 'abs'] the projection [1] of a one-entry image on a
    one-entry dictionary comes back as the two entries [3/4] and [0] of the
    two-side mode, not as the single entry [3/4] of the absolute-value mode. *)
Example threshold_abs_run :
  exists p q,
    ThresholdEncoder.process reference.exact example.threshold_abs example.pixel
    = Ok (mk_image Float64 true [1%nat] 2 [[p; q]])
    /\ p == 3 # 4 /\ q == 0.
Proof. eexists _, _. split; [vm_compute; reflexivity|]. split; reflexivity. Qed.

(** A batch of a single patch is encoded as a one-hot row. *)
Example VQ_single_row_run :
  VQEncoder.process reference.sqrt vq_encoder (mk_image Float64 true [1%nat] 1 [[1]])
  = Ok (mk_image Float64 true [1%nat] 2 [[0; 1]]).
Proof. vm_compute. reflexivity. Qed.

(** After retraining from [D] to [D'] the second input row keeps the
    neighbours that the norms of [D] select, while fresh norms of [D'] would
    select others. *)
Example llc_stale_norms_run :
  LLCEncoder.nearest None reference.argsort 2
    (match LLCEncoder.distances reference.exact example.D'
             (LLCEncoder.half_sq_norms example.D) (image_2d example.im) with
     | Ok distance => distance
     | Raise _ => []
     end)
  <> LLCEncoder.nearest None reference.argsort 2
       (match LLCEncoder.distances reference.exact example.D'
                (LLCEncoder.half_sq_norms example.D') (image_2d example.im) with
        | Ok distance => distance
        | Raise _ => []
        end).
Proof. vm_compute. discriminate. Qed.

(** * Further properties of [mathutil.py] *)

(** ** [gemm] with an output array *)

Lemma T_involutive (a : ndarray) : T (T a) = a.
Proof. destruct a. unfold T; simpl. rewrite !rev_involutive. reflexivity. Qed.

Lemma nth_window {A : Type} (data new : list A) (off p : nat) (d : A) :
  (off <= length data)%nat -> (p < length new)%nat ->
  nth (off + p) (firstn off data ++ new ++ skipn (off + length new) data) d = nth p new d.
Proof.
  intros Hoff Hp.
  rewrite app_nth2 by (rewrite length_firstn; lia).
  rewrite length_firstn, Nat.min_l by exact Hoff.
  replace (off + p - off)%nat with p by lia.
  apply app_nth1, Hp.
Qed.

Lemma nth_outside_window {A : Type} (data new : list A) (off p : nat) (d : A) :
  (off + length new <= length data)%nat ->
  (p < off)%nat \/ (off + length new <= p)%nat ->
  nth p (firstn off data ++ new ++ skipn (off + length new) data) d = nth p data d.
Proof.
  intros Hlen [Hp|Hp].
  - rewrite app_nth1 by (rewrite length_firstn; lia).
    rewrite <- (firstn_skipn off data) at 2.
    rewrite app_nth1 by (rewrite length_firstn; lia). reflexivity.
  - rewrite app_nth2 by (rewrite length_firstn; lia).
    rewrite length_firstn, Nat.min_l by lia.
    rewrite app_nth2 by lia.
    rewrite <- (firstn_skipn (off + length new) data) at 2.
    rewrite app_nth2 by (rewrite length_firstn; lia).
    rewrite length_firstn, Nat.min_l by lia. f_equal. lia.
Qed.

Lemma contig_from_2 (d0 d1 : nat) (strides : list nat) :
  contig_from [d0; d1] strides 1 = true ->
  exists s0 s1, strides = [s0; s1] /\ (d0 = 1%nat \/ s0 = 1%nat) /\ (d1 = 1%nat \/ s1 = d0).
Proof.
  destruct strides as [|s0 [|s1 [|s2 ss]]]; simpl; try discriminate.
  - rewrite andb_false_r. discriminate.
  - intros H. exists s0, s1. split; [reflexivity|].
    apply andb_true_iff in H. destruct H as [H1 H2].
    apply andb_true_iff in H2. destruct H2 as [H2 _].
    apply orb_true_iff in H1, H2. rewrite !Nat.eqb_eq in H1, H2. lia.
  - rewrite !andb_false_r. discriminate.
Qed.

Section GemmOut.

Variable cast : dtype -> Q -> Q.

(** X1: With [out] given, a row-major array of the dtype and shape of the
    product, [gemm] returns [out] itself: the same shape, strides, offset
    and buffer length, the product written into the [m * n] cells of its
    window, and every cell of the buffer outside the window as it was. *)
Theorem gemm_writes_product_into_out (alpha : Q) (A B out : ndarray) (m k n : nat) :
  nd_shape A = [m; k] -> nd_shape B = [k; n] ->
  (F_CONTIGUOUS A || C_CONTIGUOUS A) = true ->
  (F_CONTIGUOUS B || C_CONTIGUOUS B) = true ->
  mathutil.is_float (nd_dtype A) = true -> nd_dtype B = nd_dtype A ->
  nd_dtype out = nd_dtype A -> nd_shape out = [m; n] -> C_CONTIGUOUS out = true ->
  (nd_offset out + m * n <= length (nd_data out))%nat ->
  exists R,
    mathutil.gemm cast alpha A B None (Some out) = Ok R
    /\ nd_dtype R = nd_dtype out /\ nd_shape R = nd_shape out
    /\ nd_strides R = nd_strides out /\ nd_offset R = nd_offset out
    /\ length (nd_data R) = length (nd_data out)
    /\ (forall p, (p < nd_offset out)%nat \/ (nd_offset out + m * n <= p)%nat ->
          nth p (nd_data R) 0 = nth p (nd_data out) 0)
    /\ forall i j, (i < m)%nat -> (j < n)%nat ->
         get2 R i j
         == nth j (nth i (mathutil.naive_gemm alpha m k n (get2 A) (get2 B)) []) 0.
Proof.
  intros HA HB HcA HcB Hfl Hdt Hdo Hso Hco Hbuf.
  pose proof (gemm_operand_view A HcA) as VA.
  pose proof (gemm_operand_view B HcB) as VB.
  unfold mathutil.gemm, ndim. rewrite HA, HB. simpl length. simpl negb at 1 2. simpl orb at 1.
  cbv iota. rewrite Hfl, HcA, HcB. simpl negb. simpl orb. cbv iota.
  rewrite Hdt, dtype_eqb_refl. simpl negb. cbv iota.
  destruct (mathutil.gemm_operand B) as [B' tb].
  destruct (mathutil.gemm_operand A) as [A' ta].
  destruct VA as (FA & DA & OA & TA & GA & SA).
  destruct VB as (FB & DB & OB & TB & GB & SB).
  destruct (SA m k HA) as [rA cA]. destruct (SB k n HB) as [rB cB].
  rewrite Hdo, dtype_eqb_refl, Hco. simpl negb. cbv iota.
  unfold mathutil.fblas_gemm_into. rewrite rA, rB, cA, cB, Nat.eqb_refl.
  assert (HsT : nrows (T out) = n /\ ncols (T out) = m)
    by (apply nrows_T; exact Hso).
  destruct HsT as [HrT HcT]. rewrite HrT, HcT, !Nat.eqb_refl. simpl negb. cbv iota.
  cbn [bind]. eexists. split; [reflexivity|].
  set (new := map (fun p => mathutil.gemm_entry alpha B' A' tb ta (p mod n) (p / n))
                  (seq 0 (n * m))).
  assert (Hnew : length new = (n * m)%nat) by (unfold new; rewrite length_map, length_seq; reflexivity).
  unfold T; cbn [nd_dtype nd_shape nd_strides nd_offset nd_data].
  rewrite !rev_involutive.
  split; [exact Hdo|]. split; [reflexivity|]. split; [reflexivity|]. split; [reflexivity|].
  split.
  { rewrite !length_app, length_firstn, length_skipn, Hnew. lia. }
  split.
  { intros p Hp. rewrite <- Hnew. apply nth_outside_window; rewrite Hnew; lia. }
  intros i j Hi Hj.
  assert (Hpos : exists s0 s1, nd_strides out = [s0; s1]
            /\ (i * s0 + j * s1 = j + i * n)%nat).
  { assert (Hcf : contig_from [n; m] (rev (nd_strides out)) 1 = true).
    { unfold C_CONTIGUOUS, has_zero_dim in Hco. rewrite Hso in Hco.
      destruct m as [|m']; [lia|]. destruct n as [|n']; [lia|]. exact Hco. }
    apply contig_from_2 in Hcf. destruct Hcf as (a & b & Hrev & Ha & Hb).
    exists b, a. split.
    { rewrite <- (rev_involutive (nd_strides out)), Hrev. reflexivity. }
    assert (j * a = j)%nat by (destruct Ha as [->| ->]; lia).
    assert (i * b = i * n)%nat by (destruct Hb as [->| ->]; lia).
    lia. }
  destruct Hpos as (s0 & s1 & Hst & Hpos).
  unfold get2; cbn [nd_strides nd_offset nd_data]. rewrite Hst.
  rewrite <- Nat.add_assoc, Hpos.
  replace (n * m)%nat with (length new) by exact Hnew.
  rewrite nth_window by (rewrite ?Hnew; nia).
  unfold new. rewrite nth_map_seq by nia.
  replace ((j + i * n) mod n)%nat with j
    by (rewrite Nat.Div0.mod_add; symmetry; apply Nat.mod_small, Hj).
  replace ((j + i * n) / n)%nat with i
    by (rewrite Nat.div_add by lia; rewrite Nat.div_small by exact Hj; reflexivity).
  rewrite nth_naive_gemm by assumption.
  unfold mathutil.gemm_entry. rewrite cB.
  apply Qmult_comp; [reflexivity|].
  apply sumQ_ext. intros l _. rewrite GA, GB. apply Qmult_comm.
Qed.

(** ** Transposes *)

(** X2: [dot(B.T, A.T)] is the transpose of [dot(A, B)]: both calls return, with
    shapes [n x m] and [m x n], and entry [(j, i)] of the first is entry
    [(i, j)] of the second. *)
Theorem dot_of_transposes (A B : ndarray) (m k n : nat) :
  nd_shape A = [m; k] -> nd_shape B = [k; n] ->
  (F_CONTIGUOUS A || C_CONTIGUOUS A) = true ->
  (F_CONTIGUOUS B || C_CONTIGUOUS B) = true ->
  mathutil.is_float (nd_dtype A) = true -> nd_dtype B = nd_dtype A ->
  exists R R',
    mathutil.dot cast A B = Ok R /\ mathutil.dot cast (T B) (T A) = Ok R'
    /\ nd_shape R = [m; n] /\ nd_shape R' = [n; m]
    /\ forall i j, (i < m)%nat -> (j < n)%nat -> get2 R' j i == get2 R i j.
Proof.
  intros HA HB HcA HcB Hfl Hdt.
  destruct (gemm_spec cast 1 A B m k n HA HB HcA HcB Hfl Hdt)
    as (A1 & B1 & ta & tb & R & Hg & _ & _ & _ & HsR & _ & Hent).
  destruct (gemm_spec cast 1 (T B) (T A) n k m)
    as (A2 & B2 & ta' & tb' & R' & Hg' & _ & _ & _ & HsR' & _ & Hent').
  { unfold T; simpl. rewrite HB. reflexivity. }
  { unfold T; simpl. rewrite HA. reflexivity. }
  { rewrite F_CONTIGUOUS_T, C_CONTIGUOUS_T, orb_comm. exact HcB. }
  { rewrite F_CONTIGUOUS_T, C_CONTIGUOUS_T, orb_comm. exact HcA. }
  { simpl. rewrite Hdt. exact Hfl. }
  { simpl. symmetry. exact Hdt. }
  exists (T R), (T R'). unfold mathutil.dot.
  split; [exact Hg|]. split; [exact Hg'|]. split; [exact HsR|]. split; [exact HsR'|].
  intros i j Hi Hj. rewrite (Hent i j Hi Hj), (Hent' j i Hj Hi).
  rewrite !nth_naive_gemm by assumption.
  apply Qmult_comp; [reflexivity|]. apply sumQ_ext. intros l _.
  rewrite !get2_T. apply Qmult_comm.
Qed.

(** ** [dot_image] *)

(** X3: [dot_image] refuses an image that is not C-contiguous with a
    [TypeError]; on a C-contiguous float image of shape [lead + (d,)] and a
    contiguous [d x N] matrix of its dtype it returns an image of shape
    [lead + (N,)] whose row [r] holds the products of row [r] of the image
    with the columns of the matrix. *)
Theorem dot_image_keeps_leading_shape (im : image) (B : ndarray) (d N : nat) :
  mathutil.is_float (im_dtype im) = true ->
  im_width im = d -> nd_shape B = [d; N] -> nd_dtype B = im_dtype im ->
  (F_CONTIGUOUS B || C_CONTIGUOUS B) = true ->
  if im_c_contiguous im then
    exists out, mathutil.dot_image cast im B = Ok out
      /\ im_shape out = im_lead im ++ [N]
      /\ im_c_contiguous out = true
      /\ length (im_rows out) = prod (im_lead im)
      /\ forall r j, (r < prod (im_lead im))%nat -> (j < N)%nat ->
           length (nth r (im_rows out) []) = N
           /\ nth j (nth r (im_rows out) []) 0
              == sumQ d (fun l => nth l (nth r (im_rows im) []) 0 * get2 B l j)
  else mathutil.dot_image cast im B = Raise TypeError.
Proof.
  intros Hfl Hw HB Hdt HcB.
  destruct (im_c_contiguous im) eqn:Hc.
  - destruct (dot_image_spec cast im B d N Hc Hfl Hw HB Hdt HcB)
      as (out & Hout & Hlead & Hwidth & Hlen & Hrows & Hent).
    exists out. split; [exact Hout|].
    split; [unfold im_shape; rewrite Hlead, Hwidth; reflexivity|].
    split.
    { unfold mathutil.dot_image in Hout. rewrite Hc in Hout. simpl in Hout.
      destruct (mathutil.gemm _ _ _ _ _ _); simpl in Hout; [|discriminate].
      injection Hout as <-. reflexivity. }
    split; [exact Hlen|].
    intros r j Hr Hj. split.
    + rewrite Forall_forall in Hrows. apply Hrows, nth_In. lia.
    + rewrite (Hent r j Hr Hj). apply Qmult_1_l.
  - unfold mathutil.dot_image. rewrite Hc. reflexivity.
Qed.

End GemmOut.

(** ** [mpi_std] *)

Lemma std_local_spec (d : nat) (m : list Q) (sh : ndarray) :
  length m = d -> ncols sh = d ->
  exists v, mathutil.std_local m sh = Ok v
    /\ length v = d
    /\ forall j, (j < d)%nat ->
         nth j v 0
         == sumQ (nrows sh) (fun r => (get2 sh r j - nth j m 0) * (get2 sh r j - nth j m 0)).
Proof.
  intros Hm Hc. unfold mathutil.std_local, broadcast_rows.
  rewrite Hc, Hm, Nat.eqb_refl. cbn [bind].
  assert (Hbw : broadcast_width d m = d)
    by (unfold broadcast_width; destruct m as [|x [|y m']]; simpl in *; lia).
  rewrite Hbw. eexists. split; [reflexivity|].
  set (squared := map (map (fun x => x * x))
                      (map (fun row => zip_with Qminus row m) (to_rows sh))).
  assert (Hw : Forall (fun v => length v = d) squared).
  { unfold squared. apply Forall_forall. intros v Hv.
    apply in_map_iff in Hv. destruct Hv as (u & <- & Hu).
    apply in_map_iff in Hu. destruct Hu as (row & <- & Hrow).
    pose proof (to_rows_width sh) as Hrw. rewrite Hc, Forall_forall in Hrw.
    rewrite length_map, length_zip_with, (Hrw row Hrow). lia. }
  destruct (fold_vadd_spec d squared Hw) as [Hl Hn].
  split; [exact Hl|]. intros j Hj. rewrite (Hn j Hj).
  unfold squared, to_rows. rewrite !map_map, Qsum_map_seq.
  apply sumQ_ext. intros r Hr. rewrite Hc.
  rewrite (nth_map_lt _ _ j 0) by (rewrite length_zip_with, length_map, length_seq; lia).
  rewrite (nth_zip_with _ _ _ _ 0 0) by (rewrite ?length_map, ?length_seq; lia).
  rewrite nth_map_seq by exact Hj. reflexivity.
Qed.

(** X4: [mpi_std] returns, on every worker, the mean squared deviation of each
    column over the rows of all workers: the variance, of which no square
    root is taken, and so the diagonal of what [mpi_cov] returns. *)
Theorem mpi_std_is_variance (cast : dtype -> Q -> Q) (world : list ndarray)
    (rank d : nat) :
  (exists data, world !! rank = Some data) ->
  Forall (fun sh => nd_shape sh = [nrows sh; d] /\ mathutil.is_float (nd_dtype sh) = true)
         world ->
  (0 < total_rows world)%nat ->
  exists m covmat std,
    mathutil.mpi_mean world rank = Ok m
    /\ mathutil.mpi_cov cast world rank = Ok covmat
    /\ mathutil.mpi_std world rank = Ok std
    /\ length std = d
    /\ forall j, (j < d)%nat ->
         nth j std 0 == global_cov world m j j /\ nth j std 0 == entry covmat j j.
Proof.
  intros Hrank Hworld _.
  destruct (mpi_cov_spec cast world rank d Hrank Hworld)
    as (m & covmat & Hmean & Hcov & Hml & _ & _ & Hce).
  exists m, covmat.
  assert (Hcols : forall sh, In sh world -> ncols sh = d).
  { intros sh Hin. rewrite Forall_forall in Hworld.
    destruct (Hworld sh Hin) as [Hs _]. unfold ncols. rewrite Hs. reflexivity. }
  destruct (mapM_ok (mathutil.std_local m)
              (fun sh v => length v = d
                 /\ forall j, (j < d)%nat ->
                      nth j v 0
                      == sumQ (nrows sh)
                           (fun r => (get2 sh r j - nth j m 0) * (get2 sh r j - nth j m 0)))
              world) as (locals & Hlocals & HF).
  { intros sh Hsh. apply std_local_spec; [exact Hml|apply Hcols, Hsh]. }
  assert (Hshape : Forall (fun v => length v = d) locals).
  { clear -HF. induction HF as [|sh v l r [Hv _] _ IH]; constructor; assumption. }
  destruct Hrank as [data Hdata].
  assert (Hin : In data world)
    by (apply list_elem_of_In; eapply list_elem_of_lookup_2, Hdata).
  assert (Hbw : broadcast_width (ncols data) m = d).
  { rewrite (Hcols data Hin). unfold broadcast_width.
    destruct m as [|x [|y m']]; simpl in *; lia. }
  unfold mathutil.mpi_std. rewrite Hmean. cbn [bind].
  unfold mathutil.local_data. rewrite Hdata. cbn [bind]. rewrite Hlocals. cbn [bind].
  rewrite Hbw. unfold mpi.Allreduce_vec.
  replace (forallb _ locals) with true.
  2:{ symmetry. apply forallb_forall. intros v Hv. rewrite Forall_forall in Hshape.
      apply Nat.eqb_eq, Hshape, Hv. }
  cbn [bind]. eexists. split; [reflexivity|]. split; [exact Hcov|].
  split; [reflexivity|].
  destruct (fold_vadd_spec d locals Hshape) as [Sl Sn].
  split; [rewrite length_map; exact Sl|].
  intros j Hj.
  assert (Hvar : nth j (map (fun x => x / Qnat (mpi.allreduce_nat (map nrows world)))
                            (fold_right vadd (vzero d) locals)) 0
                 == global_cov world m j j).
  { rewrite (nth_map_lt _ _ j 0) by lia.
    unfold global_cov, total_rows. apply Qmult_comp; [|reflexivity].
    rewrite (Sn j Hj). clear -HF Hj.
    induction HF as [|sh v l r [_ Hv] _ IH]; simpl; [reflexivity|].
    rewrite (Hv j Hj), IH. reflexivity. }
  split; [exact Hvar|]. rewrite Hvar. symmetry. apply Hce; exact Hj.
Qed.

(** ** [ReservoirSampler]: filling, and batches of another shape *)

Section SamplerFill.

Context {row : Type}.
Variable uninit : nat -> row.
Variable G : Type.
Variable rand : G -> nat -> list Q * G.
Variable randint : G -> nat -> nat -> list nat * G.

Local Abbreviation consider := (ReservoirSampler.consider uninit G rand randint).
Local Abbreviation consider_all := (ReservoirSampler.consider_all uninit G rand randint).

(** A batch that fits in the free slots is copied into them, and nothing
    is drawn. *)
Lemma consider_fits (c : nat) (g : G) (s : ReservoirSampler.t row)
    (feature : ReservoirSampler.batch row) (data : list row) :
  ReservoirSampler.prepare uninit s feature = Ok data ->
  ReservoirSampler._num_samples s = c ->
  (ReservoirSampler._current s < c)%nat ->
  (ReservoirSampler._current s + length (ReservoirSampler.rows feature) <= c)%nat ->
  consider g s feature
  = Ok (ReservoirSampler.filled s feature data (length (ReservoirSampler.rows feature)), g).
Proof.
  intros Hprep Hc Hcur Hfit.
  rewrite consider_eq, Hprep, Hc.
  replace (c <=? ReservoirSampler._current s)%nat with false
    by (symmetry; apply Nat.leb_gt; exact Hcur).
  cbv zeta. rewrite Nat.min_r by lia. rewrite Nat.ltb_irrefl. reflexivity.
Qed.

Lemma filled_filling (c : nat) (s : ReservoirSampler.t row)
    (feature : ReservoirSampler.batch row) (seen data : list row) :
  ReservoirSampler._num_samples s = c -> ReservoirSampler._current s = length seen ->
  length data = c -> firstn (length seen) data = seen ->
  (length seen + length (ReservoirSampler.rows feature) <= c)%nat ->
  filling c (ReservoirSampler.trail feature) (seen ++ ReservoirSampler.rows feature)
    (ReservoirSampler.filled s feature data (length (ReservoirSampler.rows feature))).
Proof.
  intros Hc Hcur Hlen Hfirst Hfit. unfold filling, ReservoirSampler.filled. cbn.
  split; [exact Hc|]. split; [rewrite length_app; lia|].
  eexists. split; [reflexivity|].
  rewrite Hcur, Hfirst, firstn_all. split.
  - rewrite !length_app, length_skipn. lia.
  - rewrite app_assoc. rewrite firstn_app, firstn_all, Nat.sub_diag. simpl.
    apply app_nil_r.
Qed.

Lemma consider_all_filling (c : nat) (shape : list nat)
    (batches : list (ReservoirSampler.batch row)) :
  forall (seen : list row) (g : G) (s : ReservoirSampler.t row),
  filling c shape seen s ->
  Forall (fun f => ReservoirSampler.trail f = shape /\ ReservoirSampler.rows f <> []) batches ->
  (length seen + length (concat (map ReservoirSampler.rows batches)) <= c)%nat ->
  exists s', consider_all g s batches = Ok (s', g)
    /\ filling c shape (seen ++ concat (map ReservoirSampler.rows batches)) s'.
Proof.
  induction batches as [|f batches IH]; intros seen g s Hinv Hall Hfit; simpl.
  - exists s. rewrite app_nil_r. split; [reflexivity|exact Hinv].
  - inversion Hall as [|? ? [Hf Hne] Hrest]; subst.
    destruct Hinv as (Hc & Hcur & data & Hdata & Hlen & Hfirst).
    simpl in Hfit. rewrite length_app in Hfit.
    assert (Hpos : (0 < length (ReservoirSampler.rows f))%nat)
      by (destruct (ReservoirSampler.rows f); [congruence|simpl; lia]).
    rewrite (consider_fits c g s f data); try lia.
    2:{ unfold ReservoirSampler.prepare. rewrite Hdata. unfold ReservoirSampler.list_eqb.
        rewrite bool_decide_eq_true_2 by reflexivity. reflexivity. }
    cbn [bind fst snd].
    destruct (IH (seen ++ ReservoirSampler.rows f) g
                 (ReservoirSampler.filled s f data (length (ReservoirSampler.rows f))))
      as (s' & Hs' & Hinv').
    + apply filled_filling; try assumption. lia.
    + exact Hrest.
    + rewrite length_app. lia.
    + exists s'. split; [exact Hs'|]. rewrite app_assoc. exact Hinv'.
Qed.

(** X5: While the non-empty batches considered so far fit in the reservoir,
    [consider] draws no random number: the generator comes back as it went
    in, and [get] returns exactly the rows considered, in the order in which
    they arrived. *)
Theorem reservoir_fills_in_order_without_drawing (c : nat) (g : G) (shape : list nat)
    (batches : list (ReservoirSampler.batch row)) :
  batches <> [] ->
  Forall (fun f => ReservoirSampler.trail f = shape /\ ReservoirSampler.rows f <> []) batches ->
  (length (concat (map ReservoirSampler.rows batches)) <= c)%nat ->
  exists s,
    consider_all g (ReservoirSampler.__init__ c) batches = Ok (s, g)
    /\ ReservoirSampler.get s = Ok (Some (concat (map ReservoirSampler.rows batches))).
Proof.
  intros Hne Hall Hfit. destruct batches as [|f batches]; [congruence|].
  inversion Hall as [|? ? [Hf Hnf] Hrest]; subst.
  simpl in Hfit |- *. rewrite length_app in Hfit.
  assert (Hpos : (0 < length (ReservoirSampler.rows f))%nat)
    by (destruct (ReservoirSampler.rows f); [congruence|simpl; lia]).
  rewrite (consider_fits c g (ReservoirSampler.__init__ c) f (map uninit (seq 0 c)));
    try reflexivity; try (simpl; lia).
  cbn [bind fst snd].
  destruct (consider_all_filling c (ReservoirSampler.trail f) batches
              (ReservoirSampler.rows f) g
              (ReservoirSampler.filled (ReservoirSampler.__init__ c) f (map uninit (seq 0 c))
                 (length (ReservoirSampler.rows f))))
    as (s & Hs & Hc & Hcur & data & Hdata & Hlen & Hfirst).
  - apply (filled_filling c (ReservoirSampler.__init__ c) f [] (map uninit (seq 0 c)));
      try reflexivity; [rewrite length_map, length_seq; reflexivity|simpl; lia].
  - exact Hrest.
  - lia.
  - exists s. split; [exact Hs|].
    unfold ReservoirSampler.get. rewrite Hc, Hcur, Hdata.
    destruct (_ <? c)%nat eqn:Hlt.
    + rewrite Hfirst. reflexivity.
    + apply Nat.ltb_ge in Hlt. simpl. f_equal. f_equal.
      etransitivity; [|exact Hfirst]. symmetry. apply firstn_all2.
      rewrite Hlen. rewrite length_app in *. lia.
Qed.

Hypothesis rand_nonneg : forall g n, Forall (Qle 0) (fst (rand g n)).
Hypothesis randint_range : forall g high size,
  length (fst (randint g high size)) = size
  /\ ((0 < high)%nat -> Forall (fun i => (i < high)%nat) (fst (randint g high size))).

Lemma consider_all_app (g : G) (s : ReservoirSampler.t row)
    (l1 l2 : list (ReservoirSampler.batch row)) :
  consider_all g s (l1 ++ l2)
  = do sg <- consider_all g s l1; consider_all (snd sg) (fst sg) l2.
Proof.
  revert g s. induction l1 as [|f l1 IH]; intros g s; simpl; [reflexivity|].
  destruct (consider g s f) as [[s1 g1]|e]; simpl; [apply IH|reflexivity].
Qed.

(** X6: Once a batch has been considered, a batch whose trailing shape differs
    from the one of the batches before it makes [consider] raise
    [ValueError], however full the reservoir is. *)
Theorem reservoir_rejects_another_shape (c : nat) (g : G) (shape : list nat)
    (batches rest : list (ReservoirSampler.batch row)) (f : ReservoirSampler.batch row) :
  batches <> [] ->
  Forall (fun b => ReservoirSampler.trail b = shape) batches ->
  ReservoirSampler.trail f <> shape ->
  consider_all g (ReservoirSampler.__init__ c) (batches ++ f :: rest) = Raise ValueError.
Proof.
  intros Hne Hshape Hf. rewrite consider_all_app.
  destruct batches as [|b batches]; [congruence|].
  inversion Hshape as [|? ? Hb Hrest]; subst. simpl.
  destruct (consider_first uninit G rand randint rand_nonneg randint_range c g b)
    as (s1 & g1 & H1 & Hinv1).
  rewrite H1. cbn [bind fst snd].
  destruct (consider_all_inv uninit G rand randint rand_nonneg randint_range c _ batches
              _ g1 s1 Hinv1 Hrest)
    as (s & g' & Hs & Hc & Hcur & data & Hdata & _).
  rewrite Hs. cbn [bind fst snd ReservoirSampler.consider_all].
  rewrite consider_eq. unfold ReservoirSampler.prepare. rewrite Hdata.
  unfold ReservoirSampler.list_eqb. rewrite bool_decide_eq_false_2 by congruence.
  reflexivity.
Qed.

End SamplerFill.

(** * Normalizers *)

Lemma nth_per_row (op : Q -> Q -> Q) (rows : list (list Q)) (m : list Q) (r : nat) :
  (r < length rows)%nat -> length m = length rows ->
  nth r (per_row op rows m) [] = map (fun x => op x (nth r m 0)) (nth r rows []).
Proof.
  intros Hr Hm. unfold per_row.
  rewrite (nth_zip_with _ _ _ _ [] 0) by lia. reflexivity.
Qed.

Lemma length_per_row (op : Q -> Q -> Q) (rows : list (list Q)) (m : list Q) :
  length m = length rows -> length (per_row op rows m) = length rows.
Proof. intros Hm. unfold per_row. rewrite length_zip_with. lia. Qed.

Lemma Qsum_map_minus (c : Q) (row : list Q) :
  Qsum (map (fun x => x - c) row) == Qsum row - Qnat (length row) * c.
Proof.
  induction row as [|x row IH].
  - simpl. unfold Qnat. simpl. ring.
  - cbn [map Qsum fold_right length]. fold (Qsum (map (fun x => x - c) row)).
    fold (Qsum row). rewrite IH. unfold Qnat.
    rewrite Nat2Z.inj_succ, <- Z.add_1_r, inject_Z_plus. ring.
Qed.

Lemma Qnat_pos (n : nat) : (0 < n)%nat -> 0 < Qnat n.
Proof.
  intros Hn. unfold Qnat. change 0 with (inject_Z 0). rewrite <- Zlt_Qlt. lia.
Qed.

Lemma Qpos_nonzero (s : Q) : 0 < s -> ~ s == 0.
Proof. intros H H0. rewrite H0 in H. apply (Qlt_irrefl 0 H). Qed.

Lemma Qdiv_mult_cancel (a t : Q) : ~ t == 0 -> a / t * t == a.
Proof. intros Ht. field. exact Ht. Qed.

Lemma Qsum_centered (n : nat) (row : list Q) :
  length row = n -> (0 < n)%nat ->
  Qsum (map (fun x => x - mean n row) row) == 0.
Proof.
  intros Hl Hn. rewrite Qsum_map_minus, Hl. unfold mean.
  pose proof (Qnat_pos _ Hn) as Hpos. field. lra.
Qed.

Lemma iadd_reg_number (v : list Q) (regv : pyval) (reg : Q) :
  as_float regv = Ok reg -> iadd_reg v regv = Ok (map (fun y => y + reg) v).
Proof.
  intros H. destruct regv; simpl in *; try discriminate; injection H as <-; reflexivity.
Qed.

(** ** [MeanNormalizer] *)

(** X7: [MeanNormalizer.process] returns a float64 image of the shape of its
    input in which every patch is the input patch minus its own mean, so
    that the entries of every output patch sum to zero. *)
Theorem mean_normalizer_centres_every_patch (fresh : image -> bool) (im : image) :
  (0 < im_width im)%nat ->
  Forall (fun row => length row = im_width im) (im_rows im) ->
  exists out,
    MeanNormalizer.process fresh im = Ok out
    /\ im_dtype out = Float64 /\ im_shape out = im_shape im
    /\ length (im_rows out) = length (im_rows im)
    /\ forall r, (r < length (im_rows im))%nat ->
         let x := nth r (im_rows im) [] in
         let y := nth r (im_rows out) [] in
         length y = im_width im
         /\ (forall j, (j < im_width im)%nat ->
               nth j y 0 == nth j x 0 - Qsum x / Qnat (im_width im))
         /\ Qsum y == 0.
Proof.
  intros Hw Hrows. unfold MeanNormalizer.process. eexists. split; [reflexivity|].
  cbn [im_dtype im_rows]. split; [reflexivity|]. split; [reflexivity|].
  split; [apply length_per_row; apply length_map|].
  intros r Hr. cbv zeta.
  rewrite nth_per_row by (rewrite ?length_map; lia).
  rewrite (nth_map_lt _ _ r []) by exact Hr.
  set (x := nth r (im_rows im) []).
  assert (Hx : length x = im_width im).
  { rewrite Forall_forall in Hrows. apply Hrows, nth_In, Hr. }
  split; [rewrite length_map; exact Hx|]. split.
  - intros j Hj. rewrite (nth_map_lt _ _ j 0) by lia. reflexivity.
  - apply Qsum_centered; [exact Hx|lia].
Qed.

(** ** [MeanvarNormalizer] *)

Section MeanvarProperties.

Variable sqrt : Q -> Q.
Variable strided : gmap string pyval -> image -> result image.

Hypothesis sqrt_nonneg : forall x, 0 <= sqrt x.

(** X8: On a C-contiguous image and with a regulariser [reg > 0],
    [MeanvarNormalizer.process] returns a float64 image of the same shape
    in which every entry, multiplied by the divisor [std + reg] of its
    patch, is the input entry minus the mean of the patch; the divisor is
    positive. *)
Theorem meanvar_normalizer_centres_and_scales (specs : gmap string pyval) (im : image)
    (reg : Q) :
  im_c_contiguous im = true -> (0 < im_width im)%nat ->
  Forall (fun row => length row = im_width im) (im_rows im) ->
  as_float (specs_get specs "reg" (PyFloat float64_eps)) = Ok reg -> 0 < reg ->
  exists out,
    MeanvarNormalizer.process sqrt strided specs im = Ok out
    /\ im_dtype out = Float64 /\ im_shape out = im_shape im
    /\ length (im_rows out) = length (im_rows im)
    /\ forall r, (r < length (im_rows im))%nat ->
         let x := nth r (im_rows im) [] in
         let y := nth r (im_rows out) [] in
         let m := Qsum x / Qnat (im_width im) in
         let s := MeanvarNormalizer.std sqrt (im_width im) x + reg in
         length y = im_width im /\ 0 < s
         /\ forall j, (j < im_width im)%nat -> nth j y 0 * s == nth j x 0 - m.
Proof.
  intros Hc Hw Hrows Hreg Hpos. unfold MeanvarNormalizer.process. rewrite Hc. cbn [negb].
  rewrite (iadd_reg_number _ _ _ Hreg). cbn [bind].
  eexists. split; [reflexivity|]. cbn [im_dtype im_rows].
  split; [reflexivity|]. split; [reflexivity|].
  assert (Hl1 : length (per_row Qminus (im_rows im)
                          (map (mean (im_width im)) (im_rows im)))
                = length (im_rows im))
    by (apply length_per_row, length_map).
  split; [rewrite length_per_row; [exact Hl1|rewrite !length_map; lia]|].
  intros r Hr. cbv zeta.
  rewrite nth_per_row by (rewrite ?length_map; lia).
  rewrite nth_per_row by (rewrite ?length_map; lia).
  rewrite (nth_map_lt _ _ r 0) by (rewrite length_map; exact Hr).
  rewrite (nth_map_lt _ _ r []) by exact Hr.
  rewrite (nth_map_lt _ _ r []) by exact Hr.
  set (x := nth r (im_rows im) []).
  assert (Hx : length x = im_width im).
  { rewrite Forall_forall in Hrows. apply Hrows, nth_In, Hr. }
  set (s := MeanvarNormalizer.std sqrt (im_width im) x + reg).
  assert (Hs : 0 < s).
  { unfold s, MeanvarNormalizer.std. cbv zeta.
    pose proof (sqrt_nonneg
      (Qsum (map (fun x0 => (x0 - mean (im_width im) x) * (x0 - mean (im_width im) x)) x)
       / Qnat (im_width im))). lra. }
  split; [rewrite !length_map; exact Hx|]. split; [exact Hs|].
  intros j Hj. rewrite (nth_map_lt _ _ j 0) by (rewrite length_map; lia).
  rewrite (nth_map_lt _ _ j 0) by lia. unfold mean.
  set (m := Qsum x / Qnat (im_width im)). field.
  apply Qpos_nonzero, Hs.
Qed.

End MeanvarProperties.

(** ** [L2Normalizer] *)

Lemma Qsum_squares_scaled (t : Q) (row : list Q) :
  ~ t == 0 ->
  Qsum (map (fun y => y * y) (map (fun x => x / t) row))
  == Qsum (map (fun x => x * x) row) / (t * t).
Proof.
  intros Ht. induction row as [|x row IH]; simpl.
  - field. exact Ht.
  - rewrite IH. field. exact Ht.
Qed.

Section L2Properties.

Variable sqrt : Q -> Q.
Variable strided : gmap string pyval -> image -> image * result image.

(** X9: On a C-contiguous image, with a regulariser [reg >= 0] and wherever
    [sqrt] is exact on the squared norm of a patch, [L2Normalizer.process]
    hands the caller's image back as it was and returns the patches divided
    by [norm + reg]: every output patch has squared norm
    [norm^2 / (norm + reg)^2], at most 1, and exactly 1 when [reg] is 0. *)
Theorem l2_normalizer_output_in_unit_ball (specs : gmap string pyval) (im : image)
    (reg : Q) :
  im_c_contiguous im = true ->
  as_float (specs_get specs "reg" (PyFloat float64_eps)) = Ok reg -> 0 <= reg ->
  Forall (fun row =>
            let n2 := Qsum (map (fun x => x * x) row) in
            0 <= sqrt n2 /\ sqrt n2 * sqrt n2 == n2 /\ 0 < sqrt n2 + reg)
         (im_rows im) ->
  exists out,
    L2Normalizer.process sqrt strided specs im = (im, Ok out)
    /\ im_shape out = im_shape im
    /\ length (im_rows out) = length (im_rows im)
    /\ forall r, (r < length (im_rows im))%nat ->
         let x := nth r (im_rows im) [] in
         let y := nth r (im_rows out) [] in
         let norm := sqrt (Qsum (map (fun a => a * a) x)) in
         let n2 := Qsum (map (fun a => a * a) y) in
         y = map (fun a => a / (norm + reg)) x
         /\ n2 == (norm * norm) / ((norm + reg) * (norm + reg))
         /\ n2 <= 1
         /\ (reg == 0 -> n2 == 1).
Proof.
  intros Hc Hreg Hpos Hrows. unfold L2Normalizer.process. rewrite Hc. cbn [negb].
  rewrite (iadd_reg_number _ _ _ Hreg).
  eexists. split; [reflexivity|]. cbn [im_rows].
  split; [reflexivity|].
  split; [apply length_per_row; rewrite !length_map; reflexivity|].
  intros r Hr. cbv zeta.
  rewrite nth_per_row by (rewrite ?length_map; lia).
  rewrite (nth_map_lt _ _ r 0) by (rewrite length_map; exact Hr).
  rewrite (nth_map_lt _ _ r []) by exact Hr.
  set (x := nth r (im_rows im) []).
  rewrite Forall_forall in Hrows.
  destruct (Hrows x (nth_In _ _ Hr)) as (Hs0 & Hss & Hst). cbv zeta in Hs0, Hss, Hst.
  set (s := sqrt (Qsum (map (fun a => a * a) x))) in *.
  split; [reflexivity|].
  assert (Hn2 : Qsum (map (fun a => a * a) (map (fun a => a / (s + reg)) x))
                == (s * s) / ((s + reg) * (s + reg))).
  { rewrite Qsum_squares_scaled by lra. rewrite Hss. reflexivity. }
  split; [exact Hn2|]. split.
  - rewrite Hn2. apply Qle_shift_div_r; [nra|]. nra.
  - intros Hz. rewrite Hn2. field_simplify_eq; [nra|lra].
Qed.

(** X10: When the regulariser of [specs] is not a number, the call raises after
    [image.resize(shape_temp)]: the caller's image stays reshaped to the
    2-D array of its patches. *)
Theorem l2_normalizer_failure_leaves_image_flattened (specs : gmap string pyval)
    (im : image) (e : exn) :
  im_c_contiguous im = true ->
  as_float (specs_get specs "reg" (PyFloat float64_eps)) = Raise e ->
  (forall a, specs_get specs "reg" (PyFloat float64_eps) <> PyArr a) ->
  exists im',
    L2Normalizer.process sqrt strided specs im = (im', Raise e)
    /\ im_shape im' = [prod (im_lead im); im_width im]
    /\ im_rows im' = im_rows im.
Proof.
  intros Hc Hreg Harr. unfold L2Normalizer.process. rewrite Hc. cbn [negb].
  destruct (specs_get specs "reg" (PyFloat float64_eps)) as [| | | | |a] eqn:Hv;
    simpl in Hreg |- *; try discriminate.
  - injection Hreg as <-. eexists. split; [reflexivity|]. split; reflexivity.
  - injection Hreg as <-. eexists. split; [reflexivity|]. split; reflexivity.
  - exfalso. apply (Harr a). reflexivity.
Qed.

End L2Properties.

(** ** [L1Normalizer] *)

Lemma Qsum_map_div_const (c : Q) (row : list Q) :
  Qsum (map (fun x => x / c) row) == Qsum row / c.
Proof. apply (Qsum_map_div c row). Qed.

(** X11: On a float image and with a number [reg] as regulariser,
    [L1Normalizer.process] divides every patch by the plain sum of its
    entries plus [reg] (no absolute value is taken): where that divisor [d]
    is not zero the output patch sums to [(d - reg) / d], which is 1 when
    [reg] is 0. *)
Theorem l1_normalizer_divides_by_plain_sum (fresh : image -> bool)
    (specs : gmap string pyval) (im : image) (reg : Q) :
  mathutil.is_float (im_dtype im) = true ->
  as_float (specs_get specs "reg" (PyFloat float64_eps)) = Ok reg ->
  exists out,
    L1Normalizer.process fresh specs im = Ok out
    /\ im_dtype out = im_dtype im /\ im_shape out = im_shape im
    /\ length (im_rows out) = length (im_rows im)
    /\ forall r, (r < length (im_rows im))%nat ->
         let x := nth r (im_rows im) [] in
         let y := nth r (im_rows out) [] in
         let d := Qsum x + reg in
         ~ d == 0 ->
         y = map (fun a => a / d) x
         /\ Qsum y == (d - reg) / d
         /\ (reg == 0 -> Qsum y == 1).
Proof.
  intros Hfl Hreg. unfold L1Normalizer.process.
  set (regv := specs_get specs "reg" (PyFloat float64_eps)) in *.
  assert (Hd : L1Normalizer.denominators (im_lead im) (im_rows im) regv
               = Ok (map (fun y => y + reg) (map Qsum (im_rows im)))).
  { unfold L1Normalizer.denominators.
    destruct regv; simpl in *; try discriminate; injection Hreg as <-; reflexivity. }
  assert (Hdt : L1Normalizer.result_dtype (im_dtype im) regv = im_dtype im).
  { destruct (im_dtype im); try discriminate; destruct regv; try discriminate; reflexivity. }
  rewrite Hd, Hdt. cbn [bind]. eexists. split; [reflexivity|]. cbn [im_dtype im_rows].
  split; [reflexivity|]. split; [reflexivity|].
  split; [apply length_per_row; rewrite !length_map; reflexivity|].
  intros r Hr. cbv zeta.
  rewrite nth_per_row by (rewrite ?length_map; lia).
  rewrite (nth_map_lt _ _ r 0) by (rewrite length_map; exact Hr).
  rewrite (nth_map_lt _ _ r []) by exact Hr.
  set (x := nth r (im_rows im) []).
  assert (Hdiv : map (fun a => L1Normalizer.divide (im_dtype im) a (Qsum x + reg)) x
                 = map (fun a => a / (Qsum x + reg)) x).
  { destruct (im_dtype im); try discriminate; reflexivity. }
  rewrite Hdiv. intros Hnz. split; [reflexivity|]. split.
  - rewrite Qsum_map_div_const. field. exact Hnz.
  - intros Hz. rewrite Qsum_map_div_const. rewrite Hz. field.
    intros H. apply Hnz. rewrite Hz. lra.
Qed.

(** ** [SpatialMeanvarNormalizer] *)

Lemma sumQ_squares_nonneg (n : nat) (f : nat -> Q) : 0 <= sumQ n (fun p => f p * f p).
Proof.
  induction n as [|n IH]; cbn [sumQ]; [apply Qle_refl|].
  pose proof (Qsquare_nonneg (f n)). lra.
Qed.

Section SpatialMeanvarProperties.

Variable strided : gmap string pyval -> image -> result image.
Variable irregular : gmap string pyval -> image -> result image.

(** The centred row, entry by entry. *)
Lemma centred_spec (c s : nat) (x : list Q) :
  (0 < c)%nat -> length x = (s * c)%nat ->
  let m := fun ch => sumQ s (fun k => nth (k * c + ch) x 0) / Qnat s in
  length (SpatialMeanvarNormalizer.centred c x) = (s * c)%nat
  /\ (forall p, (p < s * c)%nat ->
        nth p (SpatialMeanvarNormalizer.centred c x) 0 == nth p x 0 - m (p mod c)%nat)
  /\ Qsum (map (fun a => a * a) (SpatialMeanvarNormalizer.centred c x))
     == sumQ (s * c) (fun p => (nth p x 0 - m (p mod c)%nat) * (nth p x 0 - m (p mod c)%nat)).
Proof.
  intros Hc Hx m. unfold SpatialMeanvarNormalizer.centred.
  assert (Hs : (length x / c)%nat = s) by (rewrite Hx; apply Nat.div_mul; lia).
  assert (Hm : forall ch, (ch < c)%nat ->
            nth ch (SpatialMeanvarNormalizer.channel_means c x) 0 == m ch).
  { intros ch Hch. unfold SpatialMeanvarNormalizer.channel_means.
    rewrite nth_map_seq by exact Hch. rewrite Hs. unfold m, Qdiv.
    apply Qmult_comp; [|reflexivity]. apply Qsum_map_seq. }
  assert (Hentry : forall p, (p < s * c)%nat ->
            nth p x 0 - nth (p mod c) (SpatialMeanvarNormalizer.channel_means c x) 0
            == nth p x 0 - m (p mod c)%nat).
  { intros p Hp. rewrite Hm by (apply Nat.mod_upper_bound; lia). reflexivity. }
  rewrite Hx. split; [rewrite length_map, length_seq; reflexivity|]. split.
  - intros p Hp. rewrite nth_map_seq by exact Hp. apply Hentry, Hp.
  - rewrite map_map, Qsum_map_seq. apply sumQ_ext. intros p Hp.
    rewrite (Hentry p Hp). reflexivity.
Qed.

(** X12: [SpatialMeanvarNormalizer.process] subtracts from every entry the mean
    of its channel over the positions of the patch and then divides the
    patch by its squared norm plus [reg], not by its norm: every entry of
    an output patch, multiplied by [n2 + reg] for the squared norm [n2] of
    the centred patch, is the input entry minus the mean of its channel;
    the divisor is positive. *)
Theorem spatial_meanvar_normalizer_divides_by_squared_norm
    (specs : gmap string pyval) (im : image) (c s : nat) (reg : Q) :
  im_c_contiguous im = true ->
  specs !! "channels" = Some (PyInt (Z.of_nat c)) ->
  (0 < c)%nat -> (0 < s)%nat -> im_width im = (s * c)%nat ->
  Forall (fun row => length row = im_width im) (im_rows im) ->
  as_float (specs_get specs "reg" (PyFloat float64_eps)) = Ok reg -> 0 < reg ->
  exists out,
    SpatialMeanvarNormalizer.process strided irregular specs im = Ok out
    /\ im_dtype out = Float64 /\ im_shape out = im_shape im
    /\ length (im_rows out) = length (im_rows im)
    /\ forall r, (r < length (im_rows im))%nat ->
         let x := nth r (im_rows im) [] in
         let y := nth r (im_rows out) [] in
         let m := fun ch => sumQ s (fun k => nth (k * c + ch) x 0) / Qnat s in
         let n2 := sumQ (s * c) (fun p => (nth p x 0 - m (p mod c)%nat)
                                          * (nth p x 0 - m (p mod c)%nat)) in
         length y = (s * c)%nat /\ 0 < n2 + reg
         /\ forall k ch, (k < s)%nat -> (ch < c)%nat ->
              nth (k * c + ch) y 0 * (n2 + reg) == nth (k * c + ch) x 0 - m ch.
Proof.
  intros Hcontig Hchannels Hc Hs Hwidth Hrows Hreg Hregpos.
  unfold SpatialMeanvarNormalizer.process, specs_item.
  rewrite Hcontig, Hchannels. cbn [negb bind].
  replace ((0 <? Z.of_nat c) && (Z.of_nat (im_width im) mod Z.of_nat c =? 0))%Z with true.
  2:{ symmetry. apply andb_true_iff. split; [apply Z.ltb_lt; lia|].
      apply Z.eqb_eq. rewrite Hwidth, Nat2Z.inj_mul. apply Z.mod_mul. lia. }
  rewrite Nat2Z.id, (iadd_reg_number _ _ reg Hreg). cbn [bind].
  eexists. split; [reflexivity|]. cbn [im_dtype im_shape im_lead im_width im_rows].
  split; [reflexivity|]. split; [reflexivity|].
  split; [rewrite length_per_row; rewrite !length_map; reflexivity|].
  intros r Hr.
  rewrite nth_per_row by (rewrite !length_map; lia || reflexivity).
  rewrite (nth_map_lt _ _ r 0) by (rewrite !length_map; exact Hr).
  rewrite (nth_map_lt _ _ r []) by (rewrite length_map; exact Hr).
  rewrite (nth_map_lt _ _ r []) by exact Hr.
  set (x := nth r (im_rows im) []).
  assert (Hx : length x = (s * c)%nat).
  { rewrite <- Hwidth. pose proof Hrows as Hall. rewrite Forall_forall in Hall.
    apply Hall, nth_In, Hr. }
  destruct (centred_spec c s x Hc Hx) as (Hlen & Hentry & Hnorm).
  cbv zeta in Hentry, Hnorm |- *.
  set (m := fun ch => sumQ s (fun k => nth (k * c + ch) x 0) / Qnat s) in *.
  set (n2 := sumQ (s * c) (fun p => (nth p x 0 - m (p mod c)%nat)
                                    * (nth p x 0 - m (p mod c)%nat))) in *.
  set (cx := SpatialMeanvarNormalizer.centred c x) in *.
  assert (Hn2 : 0 <= n2) by apply sumQ_squares_nonneg.
  assert (Hpos : 0 < n2 + reg) by lra.
  split; [rewrite length_map; exact Hlen|]. split; [exact Hpos|].
  intros k ch Hk Hch.
  rewrite (nth_map_lt _ _ _ 0) by (rewrite Hlen; nia).
  rewrite Hentry by nia. rewrite Hnorm.
  replace ((k * c + ch) mod c)%nat with ch
    by (rewrite Nat.add_comm, Nat.Div0.mod_add; symmetry; apply Nat.mod_small, Hch).
  apply Qdiv_mult_cancel, Qpos_nonzero, Hpos.
Qed.

End SpatialMeanvarProperties.

(** * Encoders *)

Lemma matrix_of_spec (W : list (list Q)) (d N : nat) :
  length W = d -> (0 < d)%nat -> Forall (fun row => length row = N) W ->
  nd_shape (matrix_of W) = [d; N]
  /\ nd_dtype (matrix_of W) = Float64
  /\ (F_CONTIGUOUS (matrix_of W) || C_CONTIGUOUS (matrix_of W)) = true
  /\ forall l j, (l < d)%nat -> (j < N)%nat -> get2 (matrix_of W) l j = entry W l j.
Proof.
  intros Hd Hpos Hrows.
  assert (Hw : width W = N).
  { destruct W as [|row W]; simpl in *; [lia|]. inversion Hrows; assumption. }
  unfold matrix_of, array_of. rewrite Hw, Hd.
  split; [reflexivity|]. split; [reflexivity|].
  split; [rewrite of_rows_contiguous; apply orb_true_r|].
  intros l j Hl Hj. rewrite get2_of_rows by assumption. reflexivity.
Qed.

Lemma broadcast_rows_same_width (inplace : bool) (op : Q -> Q -> Q) (w : nat)
    (M : list (list Q)) (v : list Q) :
  length v = w ->
  broadcast_rows inplace op w M v = Ok (map (fun row => zip_with op row v) M).
Proof. intros Hv. unfold broadcast_rows. rewrite Hv, Nat.eqb_refl. reflexivity. Qed.

Lemma nth_broadcast_row (op : Q -> Q -> Q) (M : list (list Q)) (v : list Q)
    (w r l : nat) :
  Forall (fun row => length row = w) M -> length v = w ->
  (r < length M)%nat -> (l < w)%nat ->
  nth l (nth r (map (fun row => zip_with op row v) M) []) 0
  = op (nth l (nth r M []) 0) (nth l v 0).
Proof.
  intros HM Hv Hr Hl. rewrite (nth_map_lt _ _ r []) by exact Hr.
  assert (Hrow : length (nth r M []) = w).
  { rewrite Forall_forall in HM. apply HM, nth_In, Hr. }
  apply nth_zip_with; lia.
Qed.

(** ** [LinearEncoderBW] and [LinearEncoderWB] *)

Section LinearProperties.

Variable cast : dtype -> Q -> Q.

(** X13: On a C-contiguous float64 image of width [d] and a dictionary
    [(W, b)] with [W] of shape [d x N] and [b] of [d] entries,
    [LinearEncoderBW.process] returns the image [(x + b) W] of shape
    [lead + (N,)], and leaves the caller's image with its shape, its dtype
    and its number of rows. *)
Theorem linear_encoder_bw_adds_offset_then_projects
    (unpacked : ndarray -> image -> image * result image)
    (self : FeatureEncoder.t) (im : image) (W : list (list Q)) (b : list Q) (d N : nat) :
  FeatureEncoder.dictionary self = Some (DPair W b) ->
  length W = d -> (0 < d)%nat -> Forall (fun row => length row = N) W -> length b = d ->
  im_c_contiguous im = true -> im_dtype im = Float64 -> im_width im = d ->
  length (im_rows im) = prod (im_lead im) ->
  Forall (fun row => length row = d) (im_rows im) ->
  exists im' out,
    LinearEncoderBW.process cast unpacked self im = (im', Ok out)
    /\ im_shape out = im_lead im ++ [N]
    /\ length (im_rows out) = prod (im_lead im)
    /\ (forall r j, (r < prod (im_lead im))%nat -> (j < N)%nat ->
          nth j (nth r (im_rows out) []) 0
          == sumQ d (fun l => (nth l (nth r (im_rows im) []) 0 + nth l b 0) * entry W l j))
    /\ im_shape im' = im_shape im /\ im_dtype im' = im_dtype im
    /\ length (im_rows im') = length (im_rows im).
Proof.
  intros Hdict HW Hd HWrows Hb Hc Hdt Hw Hlen Hrows.
  destruct (matrix_of_spec W d N HW Hd HWrows) as (HsW & HtW & HcW & HgW).
  unfold LinearEncoderBW.process. rewrite Hdict.
  unfold inplace at 1. rewrite Hw, (broadcast_rows_same_width _ _ _ _ _ Hb). cbn [bind].
  rewrite Hdt. cbn [mathutil.is_float].
  set (shifted := mk_image Float64 (im_c_contiguous im) (im_lead im) d
                    (map (fun row => zip_with Qplus row b) (im_rows im))).
  destruct (dot_image_spec cast shifted (matrix_of W) d N)
    as (out & Hout & Hlead & Hwidth & Hlo & _ & Hent); try assumption; try reflexivity.
  rewrite Hout.
  unfold inplace. cbn [im_width im_rows im_dtype shifted].
  rewrite (broadcast_rows_same_width _ _ _ _ _ Hb). cbn [bind mathutil.is_float].
  eexists _, out. split; [reflexivity|].
  split; [unfold im_shape; rewrite Hlead, Hwidth; reflexivity|].
  split; [exact Hlo|].
  split.
  { intros r j Hr Hj. rewrite (Hent r j Hr Hj), Qmult_1_l.
    apply sumQ_ext. intros l Hl. cbn [im_rows shifted].
    rewrite (nth_broadcast_row Qplus _ _ d) by (try assumption; lia).
    rewrite HgW by assumption. reflexivity. }
  cbn [im_rows im_dtype im_lead im_width].
  split; [unfold im_shape; cbn; rewrite Hw; reflexivity|].
  split; [reflexivity|].
  rewrite !length_map. reflexivity.
Qed.

(** X14: When the product fails — here on an image that is not C-contiguous,
    which [dot_image] refuses — [LinearEncoderBW.process] raises after
    [image += b] and before [image -= b]: the caller's image stays shifted
    by [b]. *)
Theorem linear_encoder_bw_failure_leaves_offset
    (unpacked : ndarray -> image -> image * result image)
    (self : FeatureEncoder.t) (im : image) (W : list (list Q)) (b : list Q) :
  FeatureEncoder.dictionary self = Some (DPair W b) ->
  length b = im_width im -> mathutil.is_float (im_dtype im) = true ->
  im_c_contiguous im = false ->
  exists im',
    LinearEncoderBW.process cast unpacked self im = (im', Raise TypeError)
    /\ im_shape im' = im_shape im
    /\ im_rows im' = map (fun row => zip_with Qplus row b) (im_rows im).
Proof.
  intros Hdict Hb Hfl Hc. unfold LinearEncoderBW.process. rewrite Hdict.
  unfold inplace. rewrite (broadcast_rows_same_width _ _ _ _ _ Hb), Hfl. cbn [bind].
  unfold mathutil.dot_image. cbn [im_c_contiguous]. rewrite Hc. cbn [negb].
  eexists. split; [reflexivity|]. split; reflexivity.
Qed.

(** X15: On a C-contiguous float64 image of width [d] and a dictionary
    [(W, b)] with [W] of shape [d x N] and [b] of [N] entries,
    [LinearEncoderWB.process] returns the image [x W + b] of shape
    [lead + (N,)]. *)
Theorem linear_encoder_wb_projects_then_adds_offset
    (unpacked : ndarray -> image -> result image)
    (self : FeatureEncoder.t) (im : image) (W : list (list Q)) (b : list Q) (d N : nat) :
  FeatureEncoder.dictionary self = Some (DPair W b) ->
  length W = d -> (0 < d)%nat -> Forall (fun row => length row = N) W -> length b = N ->
  im_c_contiguous im = true -> im_dtype im = Float64 -> im_width im = d ->
  exists out,
    LinearEncoderWB.process cast unpacked self im = Ok out
    /\ im_shape out = im_lead im ++ [N]
    /\ length (im_rows out) = prod (im_lead im)
    /\ forall r j, (r < prod (im_lead im))%nat -> (j < N)%nat ->
         nth j (nth r (im_rows out) []) 0
         == sumQ d (fun l => nth l (nth r (im_rows im) []) 0 * entry W l j) + nth j b 0.
Proof.
  intros Hdict HW Hd HWrows Hb Hc Hdt Hw.
  destruct (matrix_of_spec W d N HW Hd HWrows) as (HsW & HtW & HcW & HgW).
  unfold LinearEncoderWB.process. rewrite Hdict.
  destruct (dot_image_spec cast im (matrix_of W) d N)
    as (out & Hout & Hlead & Hwidth & Hlen & Hrows & Hent); try assumption.
  { rewrite Hdt. reflexivity. }
  { rewrite Hdt. exact HtW. }
  rewrite Hout. cbn [bind]. unfold inplace.
  rewrite Hwidth, (broadcast_rows_same_width _ _ _ _ _ Hb). cbn [bind].
  assert (Hfl : mathutil.is_float (im_dtype out) = true).
  { unfold mathutil.dot_image in Hout. rewrite Hc in Hout. cbn [negb] in Hout.
    destruct (mathutil.gemm cast 1 (image_2d im) (matrix_of W) None None) as [R|e] eqn:Hg;
      [|discriminate].
    cbn [bind] in Hout. injection Hout as <-. cbn [im_dtype].
    unfold mathutil.gemm in Hg.
    destruct (negb (ndim (image_2d im) =? 2)%nat || negb (ndim (matrix_of W) =? 2)%nat);
      [discriminate|].
    cbv zeta in Hg.
    destruct (negb (mathutil.is_float (nd_dtype (image_2d im)))) eqn:Hf; [discriminate|].
    destruct (negb _ || negb _); [discriminate|].
    destruct (mathutil.gemm_operand _) as [B' tb].
    destruct (mathutil.gemm_operand _) as [A' ta].
    unfold mathutil.fblas_gemm in Hg. destruct (negb _) in Hg; [discriminate|].
    cbn [bind] in Hg. injection Hg as <-. simpl. rewrite Hdt. reflexivity. }
  rewrite Hfl. eexists. split; [reflexivity|]. cbn [im_rows].
  split; [unfold im_shape; cbn; rewrite Hlead; reflexivity|].
  split; [rewrite length_map; exact Hlen|].
  intros r j Hr Hj.
  rewrite (nth_broadcast_row Qplus _ _ N) by (try assumption; lia).
  rewrite (Hent r j Hr Hj), Qmult_1_l.
  apply Qplus_comp; [|reflexivity].
  apply sumQ_ext. intros l Hl. rewrite HgW by assumption. reflexivity.
Qed.

(** ** [InnerProductEncoder] and [ReLUEncoder] *)

(** X16: A [ReLUEncoder] asked for one-side thresholding returns the positive
    part of what [InnerProductEncoder] returns on the same dictionary,
    whatever ['alpha'] its [specs] were given: the constructor overwrites it
    with 0.  Entry [j] of an output patch is [max(x . D[j], 0)]. *)
Theorem relu_encoder_is_positive_part_of_inner_product (specs : gmap string pyval)
    (trainer : option DictionaryTrainer) (D : ndarray) (im : image) (N d : nat) :
  truthy (specs_get specs "twoside" (PyBool true)) = Ok false ->
  nd_shape D = [N; d] -> (F_CONTIGUOUS D || C_CONTIGUOUS D) = true ->
  nd_dtype D = im_dtype im -> mathutil.is_float (im_dtype im) = true ->
  im_c_contiguous im = true -> im_width im = d ->
  let built := ReLUEncoder.__init__ specs trainer in
  let self := FeatureEncoder.mk (FeatureEncoder.specs built) (FeatureEncoder.trainer built)
                (Some (DMatrix D)) in
  exists ip out,
    InnerProductEncoder.process cast self im = Ok ip
    /\ ThresholdEncoder.process cast self im = Ok out
    /\ im_shape ip = im_lead im ++ [N] /\ im_shape out = im_shape ip
    /\ length (im_rows out) = length (im_rows ip)
    /\ forall r j, (r < prod (im_lead im))%nat -> (j < N)%nat ->
         nth j (nth r (im_rows ip) []) 0
         == sumQ d (fun l => nth l (nth r (im_rows im) []) 0 * get2 D j l)
         /\ nth j (nth r (im_rows out) []) 0 == Qmax (nth j (nth r (im_rows ip) []) 0) 0.
Proof.
  intros Htwo HsD HcD Hdt Hfl Hc Hw. cbv zeta.
  destruct (dot_image_spec cast im (T D) d N)
    as (ip & Hip & Hlead & Hwidth & Hlen & Hrows & Hent); try assumption.
  { unfold T; simpl. rewrite HsD. reflexivity. }
  { rewrite F_CONTIGUOUS_T, C_CONTIGUOUS_T, orb_comm. exact HcD. }
  exists ip.
  unfold InnerProductEncoder.process, ThresholdEncoder.process,
    FeatureEncoder.matrix_dictionary, ReLUEncoder.__init__, FeatureEncoder.__init__.
  cbn [FeatureEncoder.dictionary FeatureEncoder.specs FeatureEncoder.trainer bind].
  rewrite Hip. cbn [bind].
  assert (Hkey : (<["alpha" := PyFloat 0]> specs : gmap string pyval) !! "twoside"
                 = specs !! "twoside") by (apply lookup_insert_ne; discriminate).
  unfold specs_get, specs_item. rewrite Hkey, lookup_insert_eq.
  unfold specs_get in Htwo.
  destruct (specs !! "twoside") as [v|] eqn:Hv; [|discriminate].
  cbn [default] in Htwo |- *. rewrite Htwo. cbn [bind].
  assert (Habs : is_str v "abs" = false).
  { destruct v; try reflexivity. simpl in Htwo |- *.
    destruct (String.eqb s "abs") eqn:Hs; [|reflexivity].
    apply String.eqb_eq in Hs. subst s. discriminate. }
  rewrite Habs. cbn [bind as_vector as_float default].
  assert (Hb : broadcast_rows true Qminus (im_width ip) (im_rows ip) [0]
               = Ok (map (map (fun a => a - 0)) (im_rows ip))).
  { unfold broadcast_rows. cbn [length].
    destruct (1 =? im_width ip)%nat eqn:Hone; [|reflexivity].
    apply Nat.eqb_eq in Hone. f_equal. apply map_ext_in. intros row Hrow.
    rewrite Forall_forall in Hrows. pose proof (Hrows row Hrow) as Hl.
    rewrite <- Hwidth, <- Hone in Hl.
    destruct row as [|a [|a' row]]; try discriminate. reflexivity. }
  change (id (PyFloat 0)) with (PyFloat 0). cbn [as_vector as_float bind].
  rewrite Hb. cbn [bind]. eexists. split; [reflexivity|]. split; [reflexivity|].
  cbn [im_rows]. split; [unfold im_shape; rewrite Hlead, Hwidth; reflexivity|].
  split; [reflexivity|]. split; [rewrite !length_map; reflexivity|].
  intros r j Hr Hj. split.
  - rewrite (Hent r j Hr Hj), Qmult_1_l. apply sumQ_ext. intros l Hl.
    rewrite get2_T. reflexivity.
  - rewrite (nth_map_lt _ _ r []) by (rewrite length_map; lia).
    rewrite (nth_map_lt _ _ r []) by lia.
    assert (Hrow : length (nth r (im_rows ip) []) = N).
    { rewrite Forall_forall in Hrows. apply Hrows, nth_In. lia. }
    rewrite (nth_map_lt _ _ j 0) by (rewrite length_map; lia).
    rewrite (nth_map_lt _ _ j 0) by lia.
    apply Q.max_compat; [ring|reflexivity].
Qed.

End LinearProperties.

(** ** Distances to the dictionary *)

Section DistanceProperties.

Variable sqrt : Q -> Q.

Lemma euclidean_distances_shape (X Y : ndarray) :
  ncols X = ncols Y ->
  exists dist, VQEncoder.euclidean_distances sqrt X Y = Ok dist
    /\ length dist = nrows X
    /\ Forall (fun row => length row = nrows Y) dist.
Proof.
  intros Hc. unfold VQEncoder.euclidean_distances. rewrite Hc, Nat.eqb_refl. cbn [negb].
  eexists. split; [reflexivity|].
  split; [rewrite length_map; apply length_to_rows|].
  apply Forall_forall. intros row Hrow. apply in_map_iff in Hrow.
  destruct Hrow as (x & <- & _). rewrite length_map. apply length_to_rows.
Qed.

Lemma image_2d_shape (im : image) :
  nrows (image_2d im) = prod (im_lead im) /\ ncols (image_2d im) = im_width im.
Proof. split; reflexivity. Qed.

(** *** [TriangleEncoder] *)

(** Some entry of a non-empty row is at least the mean of the row. *)
Lemma some_entry_reaches_mean (ds : list Q) :
  ds <> [] -> exists j, (j < length ds)%nat /\ Qsum ds <= Qnat (length ds) * nth j ds 0.
Proof.
  induction ds as [|x ds IH]; [congruence|]. intros _.
  destruct ds as [|y ds].
  - exists 0%nat. split; [simpl; lia|].
    change (x + 0 <= 1 * x). lra.
  - destruct IH as (j & Hj & Hle); [discriminate|].
    set (tl := y :: ds) in *.
    assert (Hn : Qnat (length (x :: tl)) == Qnat (length tl) + 1).
    { unfold Qnat. cbn [length]. rewrite Nat2Z.inj_succ, <- Z.add_1_r, inject_Z_plus.
      reflexivity. }
    assert (Hpos : 0 <= Qnat (length tl)).
    { unfold Qnat. change 0 with (inject_Z 0). rewrite <- Zle_Qle. lia. }
    change (Qsum (x :: tl)) with (x + Qsum tl).
    generalize dependent (Qnat (length tl)). intros n Hle Hn Hpos.
    generalize dependent (Qsum tl). intros s Hle.
    destruct (Qlt_le_dec (nth j tl 0) x) as [Hlt|Hge].
    + exists 0%nat. split; [simpl; lia|]. rewrite Hn. cbn [nth]. 
      assert (nth j tl 0 * n <= x * n)
        by (apply Qmult_le_compat_r; [apply Qlt_le_weak, Hlt|exact Hpos]).
      clearbody tl. lra.
    + exists (S j). split; [cbn [length]; lia|]. rewrite Hn. cbn [nth].
      change (nth j (y :: ds) 0) with (nth j tl 0).
      assert (x <= nth j tl 0) by exact Hge. clearbody tl. lra.
Qed.

(** X17: [TriangleEncoder.process] returns an image of shape [lead + (N,)] for a
    dictionary of [N >= 1] entries, whose entry [j] of a patch is
    [max(0, mu - d_j)] with [d_j] the distance of the patch to entry [j] and
    [mu] the mean of these distances: no entry is negative, and every patch
    has an entry that is 0 (at a dictionary entry that is at least as far as
    the mean). *)
Theorem triangle_encoder_activations (self : FeatureEncoder.t) (im : image)
    (D : ndarray) (N d : nat) :
  FeatureEncoder.dictionary self = Some (DMatrix D) ->
  nd_shape D = [N; d] -> (0 < N)%nat -> im_width im = d ->
  exists dist out,
    VQEncoder.euclidean_distances sqrt (image_2d im) D = Ok dist
    /\ TriangleEncoder.process sqrt self im = Ok out
    /\ im_shape out = im_lead im ++ [N]
    /\ length (im_rows out) = prod (im_lead im)
    /\ forall r, (r < prod (im_lead im))%nat ->
         let ds := nth r dist [] in
         let y := nth r (im_rows out) [] in
         length y = N
         /\ (forall j, (j < N)%nat ->
               nth j y 0 = Qmax 0 (Qsum ds / Qnat N - nth j ds 0) /\ 0 <= nth j y 0)
         /\ exists j, (j < N)%nat /\ nth j y 0 == 0.
Proof.
  intros Hdict HsD HN Hw.
  assert (HrD : nrows D = N) by (unfold nrows; rewrite HsD; reflexivity).
  assert (HcD : ncols D = d) by (unfold ncols; rewrite HsD; reflexivity).
  destruct (euclidean_distances_shape (image_2d im) D) as (dist & Hdist & Hlen & Hrows).
  { rewrite HcD. exact Hw. }
  rewrite HrD in Hrows. change (nrows (image_2d im)) with (prod (im_lead im)) in Hlen.
  exists dist. unfold TriangleEncoder.process, FeatureEncoder.matrix_dictionary.
  rewrite Hdict. cbn [bind]. rewrite Hdist. cbn [bind]. rewrite HrD.
  eexists. split; [reflexivity|]. split; [reflexivity|]. cbn [im_rows].
  split; [reflexivity|].
  split; [rewrite length_per_row; [exact Hlen|apply length_map]|].
  intros r Hr. cbv zeta.
  rewrite nth_per_row by (rewrite ?length_map; lia).
  rewrite (nth_map_lt _ _ r []) by lia.
  set (ds := nth r dist []).
  assert (Hds : length ds = N).
  { rewrite Forall_forall in Hrows. apply Hrows, nth_In. lia. }
  assert (Hent : forall j, (j < N)%nat ->
            nth j (map (fun x => Qmax 0 (mean N ds - x)) ds) 0
            = Qmax 0 (Qsum ds / Qnat N - nth j ds 0)).
  { intros j Hj. rewrite (nth_map_lt _ _ j 0) by lia. reflexivity. }
  split; [rewrite length_map; exact Hds|]. split.
  - intros j Hj. split; [apply Hent, Hj|]. rewrite (Hent j Hj). apply Q.le_max_l.
  - destruct (some_entry_reaches_mean ds) as (j & Hj & Hle).
    { intros E. rewrite E in Hds. simpl in Hds. lia. }
    rewrite Hds in Hj, Hle. exists j. split; [exact Hj|].
    rewrite (Hent j Hj). apply Q.max_l.
    pose proof (Qnat_pos N HN) as Hpos.
    assert (Qsum ds / Qnat N <= nth j ds 0); [|lra].
    apply Qle_shift_div_r; [exact Hpos|]. lra.
Qed.

(** *** [VQEncoder] *)

Lemma argmin_from_spec (l : list Q) : forall (best_i : nat) (best : Q) (i : nat) (full : list Q),
  (best_i < i)%nat -> length full = i -> nth best_i full 0 = best ->
  (forall j, (j < i)%nat -> best <= nth j full 0) ->
  let k := argmin_from best_i best i l in
  (k < i + length l)%nat
  /\ forall j, (j < i + length l)%nat -> nth k (full ++ l) 0 <= nth j (full ++ l) 0.
Proof.
  induction l as [|x l IH]; intros best_i best i full Hbi Hlen Hbest Hmin; cbv zeta.
  - simpl. rewrite app_nil_r, Nat.add_0_r. split; [lia|].
    intros j Hj. rewrite Hbest. apply Hmin, Hj.
  - cbn [argmin_from length].
    replace (full ++ x :: l) with ((full ++ [x]) ++ l) by (rewrite <- app_assoc; reflexivity).
    replace (i + S (length l))%nat with (S i + length l)%nat by lia.
    assert (Hx : nth i (full ++ [x]) 0 = x).
    { rewrite app_nth2 by lia. rewrite Hlen, Nat.sub_diag. reflexivity. }
    assert (Hold : forall j, (j < i)%nat -> nth j (full ++ [x]) 0 = nth j full 0).
    { intros j Hj. apply app_nth1. lia. }
    destruct (Qltb x best) eqn:Hcmp.
    + apply (IH i x (S i) (full ++ [x])); try lia.
      * rewrite length_app, Hlen. simpl. lia.
      * exact Hx.
      * intros j Hj. unfold Qltb in Hcmp. apply negb_true_iff in Hcmp.
        assert (Hlt : x < best).
        { destruct (Qlt_le_dec x best) as [H|H]; [exact H|].
          apply Qle_bool_iff in H. congruence. }
        destruct (Nat.eq_dec j i) as [->|Hne].
        -- rewrite Hx. apply Qle_refl.
        -- rewrite Hold by lia. apply Qle_trans with best; [lra|]. apply Hmin. lia.
    + apply (IH best_i best (S i) (full ++ [x])); try lia.
      * rewrite length_app, Hlen. simpl. lia.
      * rewrite Hold by lia. exact Hbest.
      * intros j Hj. unfold Qltb in Hcmp. apply negb_false_iff, Qle_bool_iff in Hcmp.
        destruct (Nat.eq_dec j i) as [->|Hne].
        -- rewrite Hx. exact Hcmp.
        -- rewrite Hold by lia. apply Hmin. lia.
Qed.

Lemma argmin_spec (l : list Q) :
  l <> [] ->
  exists k, argmin l = Ok k /\ (k < length l)%nat
    /\ forall j, (j < length l)%nat -> nth k l 0 <= nth j l 0.
Proof.
  destruct l as [|x l]; [congruence|]. intros _. eexists. split; [reflexivity|].
  apply (argmin_from_spec l 0 x 1 [x]); try reflexivity; try lia.
  intros j Hj. assert (j = 0%nat) by lia. subst. apply Qle_refl.
Qed.

Lemma assign_at_constant (c : Q) (idx : list nat) : forall (row : list Q),
  Forall (fun i => (i < length row)%nat) idx ->
  exists row', assign_at row idx (map (fun _ => c) idx) = Ok row'
    /\ length row' = length row
    /\ forall j, nth j row' 0 = if existsb (Nat.eqb j) idx then c else nth j row 0.
Proof.
  induction idx as [|i idx IH]; intros row Hidx.
  - exists row. repeat split; reflexivity.
  - inversion Hidx as [|? ? Hi Hrest]; subst. cbn [map assign_at].
    apply Nat.ltb_lt in Hi as Hi'. rewrite Hi'.
    destruct (IH (<[i := c]> row)) as (row' & Hrow' & Hl & Hn).
    { rewrite length_insert. exact Hrest. }
    exists row'. split; [exact Hrow'|]. split; [rewrite Hl; apply length_insert|].
    intros j. rewrite (Hn j). cbn [existsb].
    destruct (existsb (Nat.eqb j) idx); [rewrite orb_true_r; reflexivity|].
    rewrite orb_false_r, nth_insert, Hi', andb_true_r, (Nat.eqb_sym j i). reflexivity.
Qed.

(** X18: For a dictionary of [N >= 1] entries [VQEncoder.process] finds, for
    every patch, the index of an entry at minimal distance; it then writes a
    1 into the columns of all these indices in every row.  All rows of the
    output are therefore the same: column [j] holds 1 if entry [j] is the
    winner of some patch of the batch and 0 otherwise, and a batch of a
    single patch is encoded as the one-hot row of its winner. *)
Theorem vq_encoder_marks_winners_of_whole_batch (self : FeatureEncoder.t) (im : image)
    (D : ndarray) (N d : nat) :
  FeatureEncoder.dictionary self = Some (DMatrix D) ->
  nd_shape D = [N; d] -> (0 < N)%nat -> im_width im = d ->
  exists dist idx out,
    VQEncoder.euclidean_distances sqrt (image_2d im) D = Ok dist
    /\ mapM argmin dist = Ok idx
    /\ length idx = prod (im_lead im)
    /\ (forall r, (r < prod (im_lead im))%nat ->
          (nth r idx 0%nat < N)%nat
          /\ forall j, (j < N)%nat ->
               nth (nth r idx 0%nat) (nth r dist []) 0 <= nth j (nth r dist []) 0)
    /\ VQEncoder.process sqrt self im = Ok out
    /\ im_shape out = im_lead im ++ [N]
    /\ length (im_rows out) = prod (im_lead im)
    /\ (forall r j, (r < prod (im_lead im))%nat -> (j < N)%nat ->
          nth j (nth r (im_rows out) []) 0 = if existsb (Nat.eqb j) idx then 1 else 0)
    /\ (forall k, idx = [k] ->
          forall j, (j < N)%nat ->
            nth j (nth 0 (im_rows out) []) 0 = if (j =? k)%nat then 1 else 0).
Proof.
  intros Hdict HsD HN Hw.
  assert (HrD : nrows D = N) by (unfold nrows; rewrite HsD; reflexivity).
  assert (HcD : ncols D = d) by (unfold ncols; rewrite HsD; reflexivity).
  destruct (euclidean_distances_shape (image_2d im) D) as (dist & Hdist & Hlen & Hrows).
  { rewrite HcD. exact Hw. }
  rewrite HrD in Hrows. change (nrows (image_2d im)) with (prod (im_lead im)) in Hlen.
  destruct (mapM_ok argmin
              (fun (l : list Q) (k : nat) =>
                 (k < length l)%nat
                 /\ forall j, (j < length l)%nat -> nth k l 0 <= nth j l 0) dist)
    as (idx & Hidx & HF).
  { intros l Hl. apply argmin_spec. rewrite Forall_forall in Hrows.
    intros E. specialize (Hrows l Hl). rewrite E in Hrows. simpl in Hrows. lia. }
  assert (Hli : length idx = length dist) by (symmetry; eapply Forall2_length, HF).
  assert (Hwin : forall r, (r < length dist)%nat ->
            (nth r idx 0%nat < N)%nat
            /\ forall j, (j < N)%nat ->
                 nth (nth r idx 0%nat) (nth r dist []) 0 <= nth j (nth r dist []) 0).
  { intros r Hr.
    assert (Hl : length (nth r dist []) = N).
    { rewrite Forall_forall in Hrows. apply Hrows, nth_In, Hr. }
    pose proof (Forall2_nth _ _ _ r [] 0%nat HF ltac:(lia)) as [Hk Hmin]. rewrite Hl in Hk, Hmin.
    split; assumption. }
  assert (Hbound : Forall (fun i => (i < N)%nat) idx).
  { apply Forall_forall. intros i Hi. apply (In_nth _ _ 0%nat) in Hi.
    destruct Hi as (r & Hr & <-). apply Hwin. lia. }
  destruct (mapM_ok (fun row => assign_row row idx [1])
              (fun (row row' : list Q) =>
                 forall j, nth j row' 0 = if existsb (Nat.eqb j) idx then 1 else nth j row 0)
              (map (map (fun _ => 0)) dist))
    as (rows' & Hrows' & HF').
  { intros row Hrow. apply in_map_iff in Hrow. destruct Hrow as (l & <- & Hl).
    destruct (assign_at_constant 1 idx (map (fun _ => 0) l))
      as (row' & Hrow' & _ & Hn).
    { rewrite length_map. rewrite Forall_forall in Hrows. rewrite (Hrows l Hl).
      exact Hbound. }
    exists row'. split; [exact Hrow'|exact Hn]. }
  assert (Hlr : length rows' = length dist).
  { pose proof HF' as Hx. apply Forall2_length in Hx. rewrite <- Hx. apply length_map. }
  assert (Hout : forall r j, (r < length dist)%nat -> (j < N)%nat ->
            nth j (nth r rows' []) 0 = if existsb (Nat.eqb j) idx then 1 else 0).
  { intros r j Hr Hj.
    pose proof (Forall2_nth _ _ _ r [] [] HF' ltac:(lia)) as Hn.
    rewrite (Hn j). destruct (existsb (Nat.eqb j) idx); [reflexivity|].
    rewrite (nth_map_lt _ _ r []) by exact Hr.
    assert (Hl : length (nth r dist []) = N).
    { rewrite Forall_forall in Hrows. apply Hrows, nth_In, Hr. }
    rewrite (nth_map_lt _ _ j 0) by lia. reflexivity. }
  exists dist, idx. unfold VQEncoder.process, FeatureEncoder.matrix_dictionary.
  rewrite Hdict. cbn [bind]. rewrite Hdist. cbn [bind]. rewrite Hidx. cbn [bind].
  rewrite Hrows'. cbn [bind]. rewrite HrD.
  eexists. split; [reflexivity|]. split; [reflexivity|]. split; [lia|].
  split; [intros r Hr; apply Hwin; lia|].
  split; [reflexivity|]. cbn [im_rows]. split; [reflexivity|]. split; [lia|].
  split; [intros r j Hr Hj; apply Hout; [lia|exact Hj]|].
  intros k Hk j Hj. rewrite Hout; [|rewrite <- Hli, Hk; simpl; lia|exact Hj].
  rewrite Hk. simpl. rewrite orb_false_r. reflexivity.
Qed.

End DistanceProperties.

(** * Extractors *)

(** ** Lists of cells *)

Lemma nth_concat_uniform {A : Type} (n : nat) (ls : list (list A)) (d : A) :
  Forall (fun l => length l = n) ls ->
  forall i c, (i < length ls)%nat -> (c < n)%nat ->
  nth (i * n + c) (concat ls) d = nth c (nth i ls []) d.
Proof.
  induction 1 as [|l ls Hl _ IH]; intros i c Hi Hc; simpl in *; [lia|].
  destruct i as [|i].
  - simpl. apply app_nth1. lia.
  - rewrite app_nth2 by (rewrite Hl; simpl; nia).
    rewrite Hl. replace (S i * n + c - n)%nat with (i * n + c)%nat by (simpl; lia).
    apply IH; [lia|exact Hc].
Qed.

Lemma length_concat_uniform {A : Type} (n : nat) (ls : list (list A)) :
  Forall (fun l => length l = n) ls -> length (concat ls) = (length ls * n)%nat.
Proof.
  induction 1 as [|l ls Hl _ IH]; simpl; [reflexivity|].
  rewrite length_app, Hl, IH. reflexivity.
Qed.

Lemma map_add_seq (c n : nat) : map (fun j => (c + j)%nat) (seq 0 n) = seq c n.
Proof.
  revert c. induction n as [|n IH]; intros c; [reflexivity|].
  simpl. rewrite Nat.add_0_r. f_equal.
  rewrite <- seq_shift, map_map. rewrite <- (IH (S c)).
  apply map_ext. intros j. lia.
Qed.

(** Row-major numbering of the cells of a grid. *)
Lemma cells_row_major (nw nh a : nat) :
  map (fun ij : nat * nat => (fst ij * nw + snd ij)%nat) (list_prod (seq a nh) (seq 0 nw))
  = seq (a * nw) (nh * nw).
Proof.
  revert a. induction nh as [|nh IH]; intros a; [reflexivity|].
  cbn [seq list_prod]. rewrite map_app, map_map, IH. cbn [fst snd].
  rewrite map_add_seq. replace (S a * nw)%nat with (a * nw + nw)%nat by lia.
  replace (S nh * nw)%nat with (nw + nh * nw)%nat by lia.
  symmetry. apply seq_app.
Qed.

(** Writing the cells of a list one after the other: a cell written once
    holds what was written, and the list keeps its length. *)
Lemma fold_insert_spec {A B : Type} (key : A -> nat) (val : A -> B) (d : B) (l : list A) :
  forall g : list B,
  NoDup (map key l) -> (forall a, In a l -> (key a < length g)%nat) ->
  let g' := fold_left (fun g a => <[key a := val a]> g) l g in
  length g' = length g
  /\ (forall a, In a l -> nth (key a) g' d = val a)
  /\ (forall c, ~ In c (map key l) -> nth c g' d = nth c g d).
Proof.
  induction l as [|a0 l IH]; intros g Hnd Hin; cbv zeta; simpl.
  - split; [reflexivity|]. split; [tauto|reflexivity].
  - inversion Hnd as [|? ? Hni Hnd']; subst.
    destruct (IH (<[key a0 := val a0]> g) Hnd') as (Hl & Hv & Hf).
    { intros a Ha. rewrite length_insert. apply Hin. right. exact Ha. }
    cbv zeta in Hl, Hv, Hf. rewrite length_insert in Hl.
    split; [exact Hl|]. split.
    + intros a [->|Ha]; [|apply Hv, Ha].
      rewrite (Hf _ Hni), nth_insert, Nat.eqb_refl.
      specialize (Hin a (or_introl eq_refl)). apply Nat.ltb_lt in Hin. rewrite Hin.
      reflexivity.
    + intros c Hc. rewrite Hf by tauto. rewrite nth_insert.
      destruct (Nat.eqb_spec (key a0) c) as [E|_]; [|reflexivity].
      exfalso. apply Hc. left. exact E.
Qed.

Lemma foldM_raises {A S : Type} (f : S -> A -> result S) (e : exn) (l : list A) :
  (forall s a, In a l -> (exists s', f s a = Ok s') \/ f s a = Raise e) ->
  (exists a, In a l /\ forall s, f s a = Raise e) ->
  forall s, foldM f l s = Raise e.
Proof.
  induction l as [|a l IH]; intros Hstep (a0 & Ha0 & Hfail) s; [destruct Ha0|].
  simpl. destruct (Hstep s a (or_introl eq_refl)) as [[s' Hs']|Hr].
  - rewrite Hs'. simpl. destruct Ha0 as [->|Ha0].
    + rewrite Hfail in Hs'. discriminate.
    + apply IH; [intros; apply Hstep; right; assumption|].
      exists a0. split; assumption.
  - rewrite Hr. reflexivity.
Qed.

Lemma foldM_ok {A S : Type} (f : S -> A -> result S) (g : S -> A -> S) (l : list A) :
  (forall s a, In a l -> f s a = Ok (g s a)) ->
  forall s, foldM f l s = Ok (fold_left g l s).
Proof.
  induction l as [|a l IH]; intros Hstep s; [reflexivity|].
  simpl. rewrite (Hstep s a (or_introl eq_refl)). simpl.
  apply IH. intros; apply Hstep; right; assumption.
Qed.

Lemma nth_map_seq_from {A : Type} (f : nat -> A) (a n p : nat) (d : A) :
  (p < n)%nat -> nth p (map f (seq a n)) d = f (a + p)%nat.
Proof.
  intros Hp. rewrite (nth_map_lt _ _ p 0%nat) by (rewrite length_seq; exact Hp).
  rewrite seq_nth by exact Hp. reflexivity.
Qed.

(** ** [PatchExtractor] on an image of shape [(H, W, C)] *)

Section PatchExtractorProperties.

Variable uninit : nat -> list Q.
Variable im : image.
Variables H W C : nat.

Hypothesis im_lead_HW : im_lead im = [H; W].
Hypothesis im_width_C : im_width im = C.
Hypothesis im_rows_length : length (im_rows im) = (H * W)%nat.
Hypothesis im_rows_width : Forall (fun row => length row = C) (im_rows im).

Lemma pixel_row (y x : nat) :
  (y < H)%nat -> (x < W)%nat ->
  PatchExtractor.pixel im 1 W y x = nth (y * W + x) (im_rows im) []
  /\ length (PatchExtractor.pixel im 1 W y x) = C.
Proof.
  intros Hy Hx. unfold PatchExtractor.pixel. rewrite Nat.mul_1_r.
  assert (Hk : (y * W + x < length (im_rows im))%nat) by (rewrite im_rows_length; nia).
  assert (Hone : firstn 1 (skipn (y * W + x) (im_rows im))
                 = [nth (y * W + x) (im_rows im) []]).
  { revert Hk. generalize (y * W + x)%nat (im_rows im). clear.
    intros k l. revert k. induction l as [|r l IH]; intros [|k] Hk; simpl in *; try lia.
    - reflexivity.
    - apply IH. lia. }
  rewrite Hone. simpl. rewrite app_nil_r. split; [reflexivity|].
  pose proof im_rows_width as Hw. rewrite Forall_forall in Hw. apply Hw, nth_In, Hk.
Qed.

Lemma window_spec (i j p0 p1 : nat) :
  (i + p0 <= H)%nat -> (j + p1 <= W)%nat ->
  let v := PatchExtractor.window im 1 W i j p0 p1 in
  length v = (p0 * p1 * C)%nat
  /\ forall di dj c, (di < p0)%nat -> (dj < p1)%nat -> (c < C)%nat ->
       nth ((di * p1 + dj) * C + c) v 0
       = nth c (nth ((i + di) * W + (j + dj)) (im_rows im) []) 0.
Proof.
  intros Hi Hj. cbv zeta. unfold PatchExtractor.window.
  set (line := fun y => concat (map (fun x => PatchExtractor.pixel im 1 W y x) (seq j p1))).
  assert (Hpix : forall y, (y < H)%nat ->
            Forall (fun l => length l = C)
                   (map (fun x => PatchExtractor.pixel im 1 W y x) (seq j p1))).
  { intros y Hy. apply Forall_forall. intros l Hl. apply in_map_iff in Hl.
    destruct Hl as (x & <- & Hx). apply in_seq in Hx. apply pixel_row; lia. }
  assert (Hline : Forall (fun l => length l = (p1 * C)%nat) (map line (seq i p0))).
  { apply Forall_forall. intros l Hl. apply in_map_iff in Hl.
    destruct Hl as (y & <- & Hy). apply in_seq in Hy. unfold line.
    rewrite (length_concat_uniform C) by (apply Hpix; lia).
    rewrite length_map, length_seq. reflexivity. }
  split.
  - rewrite (length_concat_uniform (p1 * C)) by exact Hline.
    rewrite length_map, length_seq. lia.
  - intros di dj c Hdi Hdj Hc.
    replace ((di * p1 + dj) * C + c)%nat with (di * (p1 * C) + (dj * C + c))%nat by lia.
    rewrite (nth_concat_uniform (p1 * C)); try assumption;
      [|rewrite length_map, length_seq; exact Hdi|nia].
    rewrite (nth_map_seq_from _ _ _ _ []) by exact Hdi. unfold line.
    rewrite (nth_concat_uniform C); try assumption;
      [|apply Hpix; lia|rewrite length_map, length_seq; exact Hdj].
    rewrite (nth_map_seq_from _ _ _ _ []) by exact Hdj.
    destruct (pixel_row (i + di) (j + dj)) as [-> _]; [lia|lia|]. reflexivity.
Qed.

Lemma atleast_3d_same : atleast_3d im = im.
Proof. unfold atleast_3d. rewrite im_lead_HW. reflexivity. Qed.

Lemma range_unit (n : nat) : range n 1 = Ok (seq 0 n).
Proof.
  unfold range. cbn [Nat.eqb].
  replace ((n + 1 - 1) / 1)%nat with n by (rewrite Nat.add_sub, Nat.div_1_r; reflexivity).
  f_equal. rewrite <- (map_id (seq 0 n)) at 2. apply map_ext. intros k. lia.
Qed.

(** X19: With stride 1 and a patch of [p0 x p1] pixels that fits in the image,
    [PatchExtractor.process] returns the float64 image of shape
    [(H - p0 + 1, W - p1 + 1, p0 * p1 * C)] whose cell [(a, b)] is the
    flattened window with top-left pixel [(a, b)]: channel [c] of pixel
    [(a + di, b + dj)] sits at offset [(di * p1 + dj) * C + c]. *)
Theorem patch_extractor_dense_windows (p0 p1 : nat) :
  (p0 <= H)%nat -> (p1 <= W)%nat ->
  let nh := (H + 1 - p0)%nat in
  let nw := (W + 1 - p1)%nat in
  exists out,
    PatchExtractor.process uninit (PatchExtractor.__init__ (inr [p0; p1]) 1) im = Ok out
    /\ im_dtype out = Float64
    /\ im_shape out = [nh; nw; (p0 * p1 * C)%nat]
    /\ length (im_rows out) = (nh * nw)%nat
    /\ forall a b, (a < nh)%nat -> (b < nw)%nat ->
         let cell := nth (a * nw + b) (im_rows out) [] in
         length cell = (p0 * p1 * C)%nat
         /\ forall di dj c, (di < p0)%nat -> (dj < p1)%nat -> (c < C)%nat ->
              nth ((di * p1 + dj) * C + c) cell 0
              = nth c (nth ((a + di) * W + (b + dj)) (im_rows im) []) 0.
Proof.
  intros Hp0 Hp1. cbv zeta. unfold PatchExtractor.process, PatchExtractor.__init__.
  cbn [PatchExtractor.psize PatchExtractor.stride]. rewrite atleast_3d_same.
  unfold im_shape. rewrite im_lead_HW, im_width_C.
  cbn [app nth skipn prod fold_right item lookup list_lookup bind].
  rewrite !range_unit. cbn [bind]. rewrite !length_seq.
  set (nh := (H + 1 - p0)%nat). set (nw := (W + 1 - p1)%nat).
  replace (nh * nw =? 0)%nat with false by (symmetry; apply Nat.eqb_neq; nia).
  set (K := (p0 * p1 * C)%nat).
  set (key := fun ij : nat * nat => (fst ij * nw + snd ij)%nat).
  set (win := fun ij : nat * nat => PatchExtractor.window im 1 W (fst ij) (snd ij) p0 p1).
  assert (Hcells : forall ij, In ij (list_prod (seq 0 nh) (seq 0 nw)) ->
            (fst ij < nh)%nat /\ (snd ij < nw)%nat).
  { intros [i j] Hij. apply in_prod_iff in Hij. rewrite !in_seq in Hij. simpl. lia. }
  rewrite (foldM_ok _ (fun g ij => <[key ij := win ij]> g)).
  2:{ intros g ij Hij. destruct (Hcells ij Hij) as [Hi Hj].
      unfold PatchExtractor.assign.
      apply Nat.ltb_lt in Hi as Hi', Hj as Hj'. rewrite Hi', Hj'. cbn [andb negb].
      destruct (window_spec (fst ij) (snd ij) p0 p1) as [Hlen _]; [lia|lia|].
      fold K in Hlen. rewrite Hlen, Nat.eqb_refl. reflexivity. }
  cbn [bind]. eexists. split; [reflexivity|]. cbn [im_dtype im_lead im_width im_rows].
  split; [reflexivity|]. split; [reflexivity|].
  destruct (fold_insert_spec key win [] (list_prod (seq 0 nh) (seq 0 nw))
              (map uninit (seq 0 (nh * nw)))) as (Hl & Hv & _).
  { unfold key. rewrite cells_row_major. apply seq_NoDup. }
  { intros ij Hij. destruct (Hcells ij Hij). rewrite length_map, length_seq.
    unfold key. nia. }
  cbv zeta in Hl, Hv.
  split; [rewrite Hl, length_map, length_seq; reflexivity|].
  intros a b Ha Hb.
  assert (Hin : In (a, b) (list_prod (seq 0 nh) (seq 0 nw)))
    by (apply in_prod; apply in_seq; lia).
  pose proof (Hv (a, b) Hin) as Hcell.
  change (key (a, b)) with (a * nw + b)%nat in Hcell.
  cbv zeta. rewrite Hcell. unfold win. cbn [fst snd]. apply window_spec; lia.
Qed.

(** X20: With a stride of 2 or more, as soon as a second window fits along the
    height or the width, [PatchExtractor.process] raises [IndexError]: the
    loop indexes [patches] by the pixel offsets of the windows, not by
    their rank, and the offset of the last window lies outside the grid. *)
Theorem patch_extractor_stride_overruns_grid (p0 p1 stride : nat) :
  (p0 <= H)%nat -> (p1 <= W)%nat -> (2 <= stride)%nat ->
  (p0 + stride <= H)%nat \/ (p1 + stride <= W)%nat ->
  PatchExtractor.process uninit (PatchExtractor.__init__ (inr [p0; p1]) stride) im
  = Raise IndexError.
Proof.
  intros Hp0 Hp1 Hs Hsecond. unfold PatchExtractor.process, PatchExtractor.__init__.
  cbn [PatchExtractor.psize PatchExtractor.stride]. rewrite atleast_3d_same.
  unfold im_shape. rewrite im_lead_HW, im_width_C.
  cbn [app nth skipn prod fold_right item lookup list_lookup bind].
  unfold range. replace (stride =? 0)%nat with false by (symmetry; apply Nat.eqb_neq; lia).
  cbn [bind]. rewrite !length_map, !length_seq.
  set (nh := ((H + 1 - p0 + stride - 1) / stride)%nat).
  set (nw := ((W + 1 - p1 + stride - 1) / stride)%nat).
  assert (Hnh : (nh * stride <= H - p0 + stride)%nat /\ (1 <= nh)%nat
                /\ ((p0 + stride <= H)%nat -> (2 <= nh)%nat)).
  { unfold nh. replace (H + 1 - p0 + stride - 1)%nat with (H - p0 + stride)%nat by lia.
    split; [rewrite Nat.mul_comm; apply Nat.Div0.mul_div_le|].
    split.
    - apply Nat.div_le_lower_bound; lia.
    - intros Hfit. apply Nat.div_le_lower_bound; lia. }
  assert (Hnw : (nw * stride <= W - p1 + stride)%nat /\ (1 <= nw)%nat
                /\ ((p1 + stride <= W)%nat -> (2 <= nw)%nat)).
  { unfold nw. replace (W + 1 - p1 + stride - 1)%nat with (W - p1 + stride)%nat by lia.
    split; [rewrite Nat.mul_comm; apply Nat.Div0.mul_div_le|].
    split.
    - apply Nat.div_le_lower_bound; lia.
    - intros Hfit. apply Nat.div_le_lower_bound; lia. }
  destruct Hnh as (Hnh1 & Hnh2 & Hnh3). destruct Hnw as (Hnw1 & Hnw2 & Hnw3).
  replace (nh * nw =? 0)%nat with false by (symmetry; apply Nat.eqb_neq; nia).
  set (idxh := map (fun k => (k * stride)%nat) (seq 0 nh)).
  set (idxw := map (fun k => (k * stride)%nat) (seq 0 nw)).
  assert (Hidx : forall n k, In k (map (fun k => (k * stride)%nat) (seq 0 n)) <->
            exists q, (q < n)%nat /\ k = (q * stride)%nat).
  { intros n k. rewrite in_map_iff. split.
    - intros (q & <- & Hq). apply in_seq in Hq. exists q. split; [lia|reflexivity].
    - intros (q & Hq & ->). exists q. split; [reflexivity|apply in_seq; lia]. }
  rewrite foldM_raises with (e := IndexError); [reflexivity| |].
  - intros g [i j] Hij. apply in_prod_iff in Hij. destruct Hij as [Hi Hj].
    apply Hidx in Hi, Hj. destruct Hi as (qi & Hqi & ->). destruct Hj as (qj & Hqj & ->).
    cbn [fst snd]. unfold PatchExtractor.assign.
    destruct (negb _); [right; reflexivity|]. left.
    destruct (window_spec (qi * stride) (qj * stride) p0 p1) as [Hlen _]; [nia|nia|].
    rewrite Hlen, Nat.eqb_refl. eexists. reflexivity.
  - destruct (Nat.le_gt_cases 2 nw) as [Hw2|Hw1].
    + exists (0%nat, ((nw - 1) * stride)%nat). split.
      * apply in_prod; apply Hidx; [exists 0%nat|exists (nw - 1)%nat]; split; lia.
      * intros g. cbn [fst snd]. unfold PatchExtractor.assign.
        replace ((nw - 1) * stride <? nw)%nat with false
          by (symmetry; apply Nat.ltb_ge; nia).
        rewrite andb_false_r. reflexivity.
    + assert (Hh2 : (2 <= nh)%nat) by (destruct Hsecond as [Hf|Hf]; [auto|apply Hnw3 in Hf; lia]).
      exists (((nh - 1) * stride)%nat, 0%nat). split.
      * apply in_prod; apply Hidx; [exists (nh - 1)%nat|exists 0%nat]; split; lia.
      * intros g. cbn [fst snd]. unfold PatchExtractor.assign.
        replace ((nh - 1) * stride <? nh)%nat with false
          by (symmetry; apply Nat.ltb_ge; nia).
        reflexivity.
Qed.

End PatchExtractorProperties.

(** * Layers *)

Lemma foldM_app {A S : Type} (f : S -> A -> result S) (l1 l2 : list A) (s : S) :
  foldM f (l1 ++ l2) s = do s' <- foldM f l1 s; foldM f l2 s'.
Proof.
  revert s. induction l1 as [|a l1 IH]; intros s; simpl; [reflexivity|].
  destruct (f s a) as [s'|e]; simpl; [apply IH|reflexivity].
Qed.


Section LayerFrame.

Variable Dataset : Type.
Variable component_process : component -> image -> result image.
Variable component_sample :
  component -> Dataset -> nat -> option ConvLayer.t -> bool -> Q -> result image.
Variable component_processed : component -> image -> component.
Variable resize_strided : image -> result image.

Local Abbreviation train_loop :=
  (ConvLayer.train_loop component_process component_processed).
Local Abbreviation train :=
  (ConvLayer.train Dataset component_process component_sample component_processed).
Local Abbreviation process := (ConvLayer.process component_process resize_strided).



(** X22: A layer with a previous layer processes an image as the single layer
    that holds the components of the previous layer followed by its own. *)
Theorem convlayer_process_chains_layers (cs0 cs : list component)
    (prev0 : option ConvLayer.t) (im : image) (as_vector : bool) :
  process (ConvLayer.mk cs (Some (ConvLayer.mk cs0 prev0))) im as_vector
  = process (ConvLayer.mk (cs0 ++ cs) prev0) im as_vector.
Proof.
  simpl.
  destruct (match prev0 with
            | Some previous_layer => process previous_layer im false
            | None => Ok im
            end) as [o|e]; simpl; [|reflexivity].
  rewrite foldM_app.
  destruct (foldM _ cs0 o) as [o'|e]; simpl; reflexivity.
Qed.

End LayerFrame.

(** * Poolers *)

Lemma foldM_invariant {A S : Type} (Inv : S -> Prop) (f : S -> A -> result S)
    (g : S -> A -> S) (l : list A) :
  (forall s a, In a l -> Inv s -> f s a = Ok (g s a) /\ Inv (g s a)) ->
  forall s, Inv s -> foldM f l s = Ok (fold_left g l s).
Proof.
  induction l as [|a l IH]; intros Hstep s Hs; [reflexivity|].
  simpl. destruct (Hstep s a (or_introl eq_refl) Hs) as [E Hs']. rewrite E. simpl.
  apply IH; [|exact Hs']. intros s0 a0 Ha0. apply Hstep. right. exact Ha0.
Qed.

Lemma mapM_total {A B : Type} (f : A -> result B) (g : A -> B) (l : list A) :
  (forall x, In x l -> f x = Ok (g x)) -> mapM f l = Ok (map g l).
Proof.
  induction l as [|x l IH]; intros H; [reflexivity|].
  simpl. rewrite (H x (or_introl eq_refl)). simpl.
  rewrite IH by (intros y Hy; apply H; right; exact Hy). reflexivity.
Qed.

Lemma Qsum_app (u v : list Q) : Qsum (u ++ v) == Qsum u + Qsum v.
Proof. induction u as [|x u IH]; simpl; [ring|]. rewrite IH. ring. Qed.

(** A sum over the positions of a window, line by line. *)
Lemma Qsum_list_prod (f : nat * nat -> Q) (a b : nat) :
  Qsum (map f (list_prod (seq 0 a) (seq 0 b)))
  == sumQ a (fun di => sumQ b (fun dj => f (di, dj))).
Proof.
  rewrite <- Qsum_map_seq. generalize (seq 0 a) as l.
  induction l as [|x l IH]; [reflexivity|].
  cbn [list_prod map]. rewrite map_app, Qsum_app, IH, map_map.
  cbn [Qsum fold_right]. fold (Qsum (map (fun di => sumQ b (fun dj => f (di, dj))) l)).
  rewrite (Qsum_map_seq b (fun dj => f (x, dj))). reflexivity.
Qed.

Lemma Qmaximum_spec (l : list Q) :
  l <> [] ->
  In (KernelPooler.Qmaximum l) l /\ forall x, In x l -> x <= KernelPooler.Qmaximum l.
Proof.
  destruct l as [|x0 l]; [congruence|]. intros _. unfold KernelPooler.Qmaximum.
  cbn [hd tl]. induction l as [|y l IH]; cbn [fold_right].
  - split; [left; reflexivity|]. intros x [<-|[]]. apply Qle_refl.
  - destruct IH as [Hin Hle]. set (m := fold_right Qmax x0 l) in *. split.
    + unfold Qmax, GenericMinMax.gmax. destruct (Qcompare y m).
      * right. left. reflexivity.
      * destruct Hin as [E|Hin]; [left; exact E|right; right; exact Hin].
      * right. left. reflexivity.
    + intros x [<-|[<-|Hx]].
      * eapply Qle_trans; [apply Hle; left; reflexivity|apply Q.le_max_r].
      * apply Q.le_max_l.
      * eapply Qle_trans; [apply Hle; right; exact Hx|apply Q.le_max_r].
Qed.

(** The grid and the offset of the first window, in naturals. *)
Lemma grid_nat (n k s : nat) :
  (k <= n)%nat ->
  let g := ((n - k) / s)%nat in
  ((Z.of_nat n - Z.of_nat k) / Z.of_nat s)%Z = Z.of_nat g
  /\ ((Z.of_nat n - (Z.of_nat g * Z.of_nat s + Z.of_nat k)) / 2)%Z
     = Z.of_nat ((n - (g * s + k)) / 2)
  /\ (g * s + k <= n)%nat.
Proof.
  intros Hk g.
  assert (Hg : (g * s <= n - k)%nat).
  { unfold g. rewrite Nat.mul_comm. apply Nat.Div0.mul_div_le. }
  split; [|split; [|lia]].
  - rewrite <- Nat2Z.inj_sub by exact Hk. unfold g. rewrite Nat2Z.inj_div. reflexivity.
  - rewrite <- Nat2Z.inj_mul, <- Nat2Z.inj_add, <- Nat2Z.inj_sub by lia.
    rewrite Nat2Z.inj_div. reflexivity.
Qed.

Lemma grid_negative (n k s : nat) :
  (n < k)%nat -> (0 < s)%nat -> ((Z.of_nat n - Z.of_nat k) / Z.of_nat s < 0)%Z.
Proof.
  intros Hk Hs. apply Z.div_lt_upper_bound; lia.
Qed.

(** ** [KernelPooler] on an image of shape [(H, W, C)] *)

Section KernelPoolerProperties.

Variable sqrt : Q -> Q.
Variable irregular : KernelPooler.t -> image -> result image.
Variable im : image.
Variables H W C : nat.
Variable K : ndarray.
Variables kh kw sh sw : nat.

Hypothesis im_lead_HW : im_lead im = [H; W].
Hypothesis im_width_C : im_width im = C.
Hypothesis im_rows_length : length (im_rows im) = (H * W)%nat.
Hypothesis im_rows_width : Forall (fun row => length row = C) (im_rows im).
Hypothesis kernel_shape : nd_shape K = [kh; kw].
Hypothesis kernel_height : (0 < kh)%nat.
Hypothesis kernel_width : (0 < kw)%nat.

(** The pixels of a window that lies inside the image. *)
Lemma cached_spec (top left : nat) :
  (top + kh <= H)%nat -> (left + kw <= W)%nat ->
  KernelPooler.cached im W top left kh kw
  = map (fun d => (d, nth ((top + fst d) * W + (left + snd d)) (im_rows im) []))
        (list_prod (seq 0 kh) (seq 0 kw)).
Proof.
  intros Ht Hl. unfold KernelPooler.cached. apply map_ext_in.
  intros [di dj] Hd. apply in_prod_iff in Hd. destruct Hd as [Hdi Hdj].
  apply in_seq in Hdi. apply in_seq in Hdj. cbn [fst snd].
  f_equal. apply (pixel_row im H W C im_width_C im_rows_length im_rows_width); lia.
Qed.

(** What a pooler with one of the three named methods leaves in the cells
    of its output. *)
Lemma process_cells (m : KernelPooler.pooling_method)
    (pool : list (list Q) -> list Q -> result (list Q)) (r : list (list Q) -> list Q) :
  match m with
  | KernelPooler.Max => pool = KernelPooler.max
  | KernelPooler.Ave => pool = KernelPooler.ave
  | KernelPooler.Rms => pool = KernelPooler.rms sqrt
  | KernelPooler.Custom _ _ => False
  end ->
  (forall X out, length out = C -> pool X out = Ok (r X)) ->
  (forall X, length (r X) = C) ->
  (kh <= H)%nat -> (kw <= W)%nat ->
  let gh := ((H - kh) / sh)%nat in
  let gw := ((W - kw) / sw)%nat in
  let oh := ((H - (gh * sh + kh)) / 2)%nat in
  let ow := ((W - (gw * sw + kw)) / 2)%nat in
  exists cells,
    KernelPooler.process sqrt irregular (KernelPooler.mk K (sh, sw) m) im
    = Ok (mk_image Float64 true [gh; gw] C cells)
    /\ length cells = (gh * gw)%nat
    /\ forall i j, (i < gh)%nat -> (j < gw)%nat ->
         (oh + sh * i + kh <= H)%nat /\ (ow + sw * j + kw <= W)%nat
         /\ nth (i * gw + j) cells []
            = r (map (fun d => map (fun x => x * get2 K (fst d) (snd d))
                                 (nth ((oh + sh * i + fst d) * W + (ow + sw * j + snd d))
                                      (im_rows im) []))
                     (list_prod (seq 0 kh) (seq 0 kw))).
Proof.
  intros Hm Hpool Hr HkH HkW gh gw oh ow.
  destruct (grid_nat H kh sh HkH) as (Eg0 & Eo0 & Hb0).
  destruct (grid_nat W kw sw HkW) as (Eg1 & Eo1 & Hb1).
  fold gh in Eg0, Eo0, Hb0. fold gw in Eg1, Eo1, Hb1. fold oh in Eo0. fold ow in Eo1.
  assert (Hin : forall i j, (i < gh)%nat -> (j < gw)%nat ->
            (oh + sh * i + kh <= H)%nat /\ (ow + sw * j + kw <= W)%nat).
  { intros i j Hi Hj.
    assert ((oh <= H - (gh * sh + kh))%nat) by (unfold oh; apply Nat.Div0.div_le_upper_bound; lia).
    assert ((ow <= W - (gw * sw + kw))%nat) by (unfold ow; apply Nat.Div0.div_le_upper_bound; lia).
    split; nia. }
  set (val := fun ij : nat * nat =>
                r (map (fun d => map (fun x => x * get2 K (fst d) (snd d))
                                   (nth ((oh + sh * fst ij + fst d) * W
                                         + (ow + sw * snd ij + snd d)) (im_rows im) []))
                       (list_prod (seq 0 kh) (seq 0 kw)))).
  set (key := fun ij : nat * nat => (fst ij * gw + snd ij)%nat).
  set (cells0 := repeat (repeat 0 C) (gh * gw)).
  set (cells := fold_left (fun g a => <[key a := val a]> g)
                          (list_prod (seq 0 gh) (seq 0 gw)) cells0).
  exists cells.
  assert (Hkeys : map key (list_prod (seq 0 gh) (seq 0 gw)) = seq 0 (gh * gw)).
  { exact (cells_row_major gw gh 0). }
  destruct (fold_insert_spec key val [] (list_prod (seq 0 gh) (seq 0 gw)) cells0)
    as (Hlen & Hval & _).
  { rewrite Hkeys. apply NoDup_ListNoDup, NoDup_seq. }
  { intros a Ha. apply (in_map key) in Ha. rewrite Hkeys in Ha. apply in_seq in Ha.
    unfold cells0. rewrite repeat_length. lia. }
  fold cells in Hlen, Hval.
  split; [|split].
  - unfold KernelPooler.process. cbn [KernelPooler.kernel KernelPooler.stride KernelPooler.method].
    rewrite im_lead_HW, kernel_shape, im_width_C.
    assert (Hnz : (kh * kw =? 0)%nat = false) by (apply Nat.eqb_neq; nia).
    rewrite Hnz.
    assert (Hzeros : KernelPooler.zeros (Z.of_nat gh) (Z.of_nat gw) C = Ok cells0).
    { unfold KernelPooler.zeros.
      replace ((Z.of_nat gh <? 0) || (Z.of_nat gw <? 0))%Z with false
        by (symmetry; apply orb_false_iff; split; apply Z.ltb_ge; lia).
      rewrite !Nat2Z.id. reflexivity. }
    destruct m as [| | |dim pool0]; try (destruct Hm; fail); subst pool.
    all: rewrite Eg0, Eg1, Eo0, Eo1, Hzeros, !Nat2Z.id; cbn [bind].
    all: rewrite (foldM_invariant
                    (fun s => length s = (gh * gw)%nat /\ Forall (fun c => length c = C) s)
                    _ (fun g a => <[key a := val a]> g));
      [reflexivity| |].
    all: try (split; [apply repeat_length|apply Forall_forall; intros c Hc;
                      apply repeat_spec in Hc; subst c; apply repeat_length]).
    all: intros s [i j] Ha [Hs HsC]; apply in_prod_iff in Ha; destruct Ha as [Hi Hj];
      apply in_seq in Hi; apply in_seq in Hj;
      destruct (Hin i j) as [Hih Hjw]; try lia.
    all: replace (Z.to_nat (Z.of_nat oh + Z.of_nat sh * Z.of_nat i)) with (oh + sh * i)%nat
      by lia;
      replace (Z.to_nat (Z.of_nat ow + Z.of_nat sw * Z.of_nat j)) with (ow + sw * j)%nat
      by lia.
    all: rewrite (cached_spec _ _ Hih Hjw), (mapM_total _
           (fun dv : nat * nat * list Q =>
              map (fun x => x * get2 K (fst (fst dv)) (snd (fst dv))) (snd dv)))
      by (intros dv _; unfold KernelPooler.fill; rewrite Nat.eqb_refl; reflexivity).
    all: cbn [bind]; rewrite map_map; cbn [fst snd].
    all: assert (Hcell : (i * gw + j < length s)%nat) by (rewrite Hs; nia).
    all: rewrite Hpool
      by (pose proof HsC as HsC'; rewrite Forall_forall in HsC'; apply HsC', nth_In, Hcell).
    all: cbn [bind]; split; [reflexivity|].
    all: split; [rewrite length_insert; exact Hs|].
    all: apply Forall_insert; [exact HsC|apply Hr].
  - rewrite Hlen. apply repeat_length.
  - intros i j Hi Hj. destruct (Hin i j Hi Hj) as [Hih Hjw].
    split; [exact Hih|]. split; [exact Hjw|].
    apply (Hval (i, j)). apply in_prod_iff. split; apply in_seq; lia.
Qed.

(** Entry [c] of a column of the weighted window. *)
Lemma column_weighted (f : nat * nat -> list Q) (l : list (nat * nat)) (c : nat) :
  KernelPooler.column (map (fun d => map (fun x => x * get2 K (fst d) (snd d)) (f d)) l) c
  = map (fun d => nth c (map (fun x => x * get2 K (fst d) (snd d)) (f d)) 0) l.
Proof. unfold KernelPooler.column. rewrite map_map. reflexivity. Qed.

Lemma nth_weighted (k : Q) (row : list Q) (c : nat) :
  nth c (map (fun x => x * k) row) 0 == k * nth c row 0.
Proof.
  destruct (Nat.lt_ge_cases c (length row)) as [Hc|Hc].
  - rewrite (nth_map_lt _ _ c 0) by exact Hc. ring.
  - rewrite !nth_overflow by (rewrite ?length_map; exact Hc). ring.
Qed.

(** X24: With the method ['ave'] and a kernel that fits, the output has
    [(H - kh) / sh] by [(W - kw) / sw] cells of [C] channels; cell [(i, j)]
    holds, channel by channel, the mean over the window with top-left
    pixel [offset + stride * (i, j)] of the pixels weighted by the kernel,
    and every such window lies inside the image. *)
Theorem kernel_pooler_averages_weighted_windows :
  (kh <= H)%nat -> (kw <= W)%nat ->
  let gh := ((H - kh) / sh)%nat in
  let gw := ((W - kw) / sw)%nat in
  let oh := ((H - (gh * sh + kh)) / 2)%nat in
  let ow := ((W - (gw * sw + kw)) / 2)%nat in
  exists out,
    KernelPooler.process sqrt irregular (KernelPooler.mk K (sh, sw) KernelPooler.Ave) im
    = Ok out
    /\ im_dtype out = Float64 /\ im_shape out = [gh; gw; C]
    /\ length (im_rows out) = (gh * gw)%nat
    /\ forall i j, (i < gh)%nat -> (j < gw)%nat ->
         (oh + sh * i + kh <= H)%nat /\ (ow + sw * j + kw <= W)%nat
         /\ length (nth (i * gw + j) (im_rows out) []) = C
         /\ forall c, (c < C)%nat ->
              nth c (nth (i * gw + j) (im_rows out) []) 0
              == sumQ kh (fun di => sumQ kw (fun dj =>
                   get2 K di dj
                   * nth c (nth ((oh + sh * i + di) * W + (ow + sw * j + dj))
                                (im_rows im) []) 0))
                 / Qnat (kh * kw).
Proof.
  intros HkH HkW gh gw oh ow.
  destruct (process_cells KernelPooler.Ave KernelPooler.ave
              (fun X => map (fun c => Qsum (KernelPooler.column X c) / Qnat (length X))
                            (seq 0 C)))
    as (cells & Hp & Hlen & Hcells); try assumption; try reflexivity.
  { intros X out Hout. unfold KernelPooler.ave. rewrite Hout. reflexivity. }
  { intros X. rewrite length_map, length_seq. reflexivity. }
  fold gh gw oh ow in Hp, Hlen, Hcells.
  eexists. split; [exact Hp|]. cbn [im_dtype im_shape im_lead im_width im_rows app].
  split; [reflexivity|]. split; [reflexivity|]. split; [exact Hlen|].
  intros i j Hi Hj. destruct (Hcells i j Hi Hj) as (Hih & Hjw & Hcell).
  split; [exact Hih|]. split; [exact Hjw|]. rewrite Hcell.
  split; [rewrite length_map, length_seq; reflexivity|].
  intros c Hc. rewrite nth_map_seq by exact Hc.
  rewrite length_map, length_prod, !length_seq, column_weighted.
  unfold Qdiv. apply Qmult_comp; [|reflexivity].
  etransitivity;
    [|apply (Qsum_list_prod
               (fun d => get2 K (fst d) (snd d)
                         * nth c (nth ((oh + sh * i + fst d) * W + (ow + sw * j + snd d))
                                      (im_rows im) []) 0) kh kw)].
  apply Qsum_map_ext. intros [di dj] _. cbn [fst snd]. apply nth_weighted.
Qed.

(** X25: With the method ['max'] every channel of a cell holds the largest
    of the kernel-weighted values of its window: no weighted value of the
    window exceeds it and one of them attains it. *)
Theorem kernel_pooler_max_of_weighted_windows :
  (kh <= H)%nat -> (kw <= W)%nat ->
  let gh := ((H - kh) / sh)%nat in
  let gw := ((W - kw) / sw)%nat in
  let oh := ((H - (gh * sh + kh)) / 2)%nat in
  let ow := ((W - (gw * sw + kw)) / 2)%nat in
  exists out,
    KernelPooler.process sqrt irregular (KernelPooler.mk K (sh, sw) KernelPooler.Max) im
    = Ok out
    /\ im_shape out = [gh; gw; C]
    /\ length (im_rows out) = (gh * gw)%nat
    /\ forall i j c, (i < gh)%nat -> (j < gw)%nat -> (c < C)%nat ->
         let weighted := fun di dj =>
           get2 K di dj
           * nth c (nth ((oh + sh * i + di) * W + (ow + sw * j + dj)) (im_rows im) []) 0 in
         let v := nth c (nth (i * gw + j) (im_rows out) []) 0 in
         (forall di dj, (di < kh)%nat -> (dj < kw)%nat -> weighted di dj <= v)
         /\ exists di dj, (di < kh)%nat /\ (dj < kw)%nat /\ v == weighted di dj.
Proof.
  intros HkH HkW gh gw oh ow.
  destruct (process_cells KernelPooler.Max KernelPooler.max
              (fun X => map (fun c => KernelPooler.Qmaximum (KernelPooler.column X c))
                            (seq 0 C)))
    as (cells & Hp & Hlen & Hcells); try assumption; try reflexivity.
  { intros X out Hout. unfold KernelPooler.max. rewrite Hout. reflexivity. }
  { intros X. rewrite length_map, length_seq. reflexivity. }
  fold gh gw oh ow in Hp, Hlen, Hcells.
  eexists. split; [exact Hp|]. cbn [im_dtype im_shape im_lead im_width im_rows app].
  split; [reflexivity|]. split; [exact Hlen|].
  intros i j c Hi Hj Hc. destruct (Hcells i j Hi Hj) as (_ & _ & Hcell).
  rewrite Hcell, nth_map_seq by exact Hc. rewrite column_weighted.
  set (vals := map _ (list_prod (seq 0 kh) (seq 0 kw))).
  destruct (Qmaximum_spec vals) as [Hin Hle].
  { unfold vals. destruct kh as [|kh']; [lia|]. destruct kw as [|kw']; [lia|]. discriminate. }
  split.
  - intros di dj Hdi Hdj. rewrite <- nth_weighted.
    apply Hle. unfold vals.
    apply (in_map (fun d => nth c (map (fun x => x * get2 K (fst d) (snd d))
                                     (nth ((oh + sh * i + fst d) * W + (ow + sw * j + snd d))
                                          (im_rows im) [])) 0) _ (di, dj)).
    apply in_prod_iff. split; apply in_seq; lia.
  - unfold vals in Hin at 2. apply in_map_iff in Hin. destruct Hin as ([di dj] & E & Hd).
    apply in_prod_iff in Hd. destruct Hd as [Hdi Hdj].
    apply in_seq in Hdi. apply in_seq in Hdj.
    exists di, dj. split; [lia|]. split; [lia|].
    rewrite <- E. cbn [fst snd]. apply nth_weighted.
Qed.

(** X26: The grid has [(H - kh) / sh] rows, one fewer than the windows
    that fit: an image less than one stride higher than the kernel, such
    as an image of the kernel's height, is pooled to an array without
    cells, and nothing is raised. *)
Theorem kernel_pooler_no_cell_without_a_stride_of_margin (m : KernelPooler.pooling_method) :
  (kh <= H)%nat -> (kw <= W)%nat -> (H - kh < sh)%nat ->
  KernelPooler.process sqrt irregular (KernelPooler.mk K (sh, sw) m) im
  = Ok (mk_image Float64 true [0%nat; ((W - kw) / sw)%nat]
          match m with
          | KernelPooler.Custom dim _ => dim C
          | _ => C
          end []).
Proof.
  clear im_rows_length im_rows_width. intros HkH HkW Hmargin.
  destruct (grid_nat H kh sh HkH) as (Eg0 & _ & _).
  destruct (grid_nat W kw sw HkW) as (Eg1 & _ & _).
  rewrite (Nat.div_small _ _ Hmargin) in Eg0.
  unfold KernelPooler.process.
  cbn [KernelPooler.kernel KernelPooler.stride KernelPooler.method].
  rewrite im_lead_HW, kernel_shape, im_width_C.
  replace (kh * kw =? 0)%nat with false by (symmetry; apply Nat.eqb_neq; nia).
  destruct m as [| | |dim pool]; rewrite Eg0, Eg1; unfold KernelPooler.zeros;
    replace ((Z.of_nat 0 <? 0) || (Z.of_nat ((W - kw) / sw) <? 0))%Z with false
      by (symmetry; apply orb_false_iff; split; apply Z.ltb_ge; lia);
    rewrite !Nat2Z.id; reflexivity.
Qed.

(** X27: A kernel higher or wider than the image, with a positive stride
    along that axis, makes the grid negative and [np.zeros] raise
    ValueError. *)
Theorem kernel_pooler_rejects_kernel_larger_than_image (m : KernelPooler.pooling_method) :
  ((H < kh)%nat /\ (0 < sh)%nat) \/ ((W < kw)%nat /\ (0 < sw)%nat) ->
  KernelPooler.process sqrt irregular (KernelPooler.mk K (sh, sw) m) im = Raise ValueError.
Proof.
  clear im_width_C im_rows_length im_rows_width. intros Hsmall.
  assert (Hneg : (((Z.of_nat H - Z.of_nat kh) / Z.of_nat sh <? 0)
                  || ((Z.of_nat W - Z.of_nat kw) / Z.of_nat sw <? 0))%Z = true).
  { apply orb_true_iff. destruct Hsmall as [[Hk Hs]|[Hk Hs]]; [left|right];
      apply Z.ltb_lt, grid_negative; assumption. }
  unfold KernelPooler.process.
  cbn [KernelPooler.kernel KernelPooler.stride KernelPooler.method].
  rewrite im_lead_HW, kernel_shape.
  replace (kh * kw =? 0)%nat with false by (symmetry; apply Nat.eqb_neq; nia).
  destruct m as [| | |dim pool]; unfold KernelPooler.zeros; rewrite Hneg; reflexivity.
Qed.

(** X28: A method object whose [dim] changes the number of channels cannot
    be used: the cache is allocated with [dim(C)] channels, and copying
    the first window of [C] channels into it raises ValueError. *)
Theorem kernel_pooler_custom_method_cannot_change_dimension
    (dim : nat -> nat) (pool : list (list Q) -> list Q -> result (list Q)) :
  (0 < sh)%nat -> (0 < sw)%nat -> (kh + sh <= H)%nat -> (kw + sw <= W)%nat ->
  dim C <> C -> C <> 1%nat ->
  KernelPooler.process sqrt irregular
    (KernelPooler.mk K (sh, sw) (KernelPooler.Custom dim pool)) im
  = Raise ValueError.
Proof.
  clear im_rows_length im_rows_width. intros Hsh Hsw HkH HkW Hdim HC.
  destruct (grid_nat H kh sh) as (Eg0 & _ & _); [lia|].
  destruct (grid_nat W kw sw) as (Eg1 & _ & _); [lia|].
  assert (Hgh : (1 <= (H - kh) / sh)%nat) by (apply Nat.div_le_lower_bound; lia).
  assert (Hgw : (1 <= (W - kw) / sw)%nat) by (apply Nat.div_le_lower_bound; lia).
  unfold KernelPooler.process.
  cbn [KernelPooler.kernel KernelPooler.stride KernelPooler.method].
  rewrite im_lead_HW, kernel_shape, im_width_C.
  replace (kh * kw =? 0)%nat with false by (symmetry; apply Nat.eqb_neq; nia).
  rewrite Eg0, Eg1. unfold KernelPooler.zeros.
  replace ((Z.of_nat ((H - kh) / sh) <? 0) || (Z.of_nat ((W - kw) / sw) <? 0))%Z with false
    by (symmetry; apply orb_false_iff; split; apply Z.ltb_ge; lia).
  rewrite !Nat2Z.id. cbn [bind].
  destruct ((H - kh) / sh)%nat as [|gh] eqn:Egh; [lia|].
  destruct ((W - kw) / sw)%nat as [|gw] eqn:Egw; [lia|].
  destruct kh as [|kh']; [lia|]. destruct kw as [|kw']; [lia|].
  cbn [seq list_prod map app foldM KernelPooler.cached mapM snd].
  unfold KernelPooler.fill.
  replace (C =? dim C)%nat with false by (symmetry; apply Nat.eqb_neq; congruence).
  replace (C =? 1)%nat with false by (symmetry; apply Nat.eqb_neq; exact HC).
  reflexivity.
Qed.

End KernelPoolerProperties.

(** * Sampling patches from a dataset *)

Lemma fold_left_snd {A S T : Type} (h : S -> A -> S) (k : T -> A -> T) (f : S -> T)
    (l : list A) :
  (forall s a, f (h s a) = k (f s) a) ->
  forall s, f (fold_left h l s) = fold_left k l (f s).
Proof.
  intros Hf. induction l as [|a l IH]; intros s; [reflexivity|].
  simpl. rewrite IH, Hf. reflexivity.
Qed.

Section PatchSampleProperties.

Variable G : Type.
Variable randint : G -> nat -> nat -> list nat * G.
Variable SIZE : positive.
Variable size : nat.
Variable image_at : nat -> image.
Variable uninit : nat -> list Q.
Variable inherited : G -> result (list (list Q) * G).
Variables H W C p0 p1 : nat.

Hypothesis randint_range : forall g high n,
  length (fst (randint g high n)) = n
  /\ ((0 < high)%nat -> Forall (fun i => (i < high)%nat) (fst (randint g high n))).

Hypothesis images_shape : forall id, (id < size)%nat ->
  im_lead (image_at id) = [H; W] /\ im_width (image_at id) = C
  /\ length (im_rows (image_at id)) = (H * W)%nat
  /\ Forall (fun row => length row = C) (im_rows (image_at id)).

Lemma patches_per_worker_pos (num_patches : nat) :
  (1 <= PatchExtractor.patches_per_worker SIZE num_patches)%nat.
Proof. unfold PatchExtractor.patches_per_worker. lia. Qed.

Lemma flat_slice_inside (id r c : nat) :
  (id < size)%nat -> (r + p0 <= H)%nat -> (c + p1 <= W)%nat ->
  PatchExtractor.flat_slice (image_at id) r c p0 p1
  = Ok (PatchExtractor.window (image_at id) 1 W r c p0 p1).
Proof.
  intros Hid Hr Hc. destruct (images_shape id Hid) as (Hlead & _).
  assert (E3 : atleast_3d (image_at id) = image_at id)
    by (unfold atleast_3d; rewrite Hlead; reflexivity).
  unfold PatchExtractor.flat_slice. rewrite E3, !Hlead. cbn [nth skipn prod fold_right].
  replace (Nat.min p0 (H - r)) with p0 by lia.
  replace (Nat.min p1 (W - c)) with p1 by lia.
  reflexivity.
Qed.

(** X29: On a dataset whose images all have the shape [(H, W, C)] that
    [dim()] announces, [sample] without a previous layer returns
    [max(round(num_patches / SIZE), 1)] rows; each is the flattened window
    of a dataset image whose top-left pixel [(r, c)] has [r + p0 < H] and
    [c + p1 < W], so that no sampled patch reaches the last pixel row or
    the last pixel column. *)
Theorem patch_sample_never_reaches_last_row_and_column
    (g : G) (stride num_patches : nat) :
  (0 < size)%nat -> (p0 < H)%nat -> (p1 < W)%nat ->
  let n := PatchExtractor.patches_per_worker SIZE num_patches in
  exists patches g',
    PatchExtractor.sample G randint SIZE size image_at C (Some (H, W)) uninit inherited
      (PatchExtractor.mk [p0; p1] stride) g num_patches false = Ok (patches, g')
    /\ (1 <= n)%nat /\ length patches = n
    /\ forall i, (i < n)%nat ->
         exists id r c,
           (id < size)%nat /\ (r + p0 < H)%nat /\ (c + p1 < W)%nat
           /\ length (nth i patches []) = (p0 * p1 * C)%nat
           /\ forall di dj ch, (di < p0)%nat -> (dj < p1)%nat -> (ch < C)%nat ->
                nth ((di * p1 + dj) * C + ch) (nth i patches []) 0
                = nth ch (nth ((r + di) * W + (c + dj)) (im_rows (image_at id)) []) 0.
Proof.
  intros Hsize Hp0 Hp1 n.
  pose proof (patches_per_worker_pos num_patches) as Hn1. fold n in Hn1.
  assert (E0 : forall k, (0 < k)%nat -> (k =? 0)%nat = false)
    by (intros k Hk; apply Nat.eqb_neq; lia).
  unfold PatchExtractor.sample. fold n. unfold PatchExtractor.np_randint.
  rewrite (E0 size) by lia.
  cbn [bind item PatchExtractor.psize lookup list_lookup fst snd].
  rewrite (E0 (H - p0)%nat), (E0 (W - p1)%nat) by lia.
  cbn [bind fst snd].
  set (g1 := snd (randint g size n)).
  set (g2 := snd (randint g1 (H - p0) n)).
  set (g3 := snd (randint g2 (W - p1) n)).
  set (imids := merge_sort Nat.le (fst (randint g size n))).
  set (rowids := fst (randint g1 (H - p0) n)).
  set (colids := fst (randint g2 (W - p1) n)).
  assert (Himids : length imids = n /\ Forall (fun i => (i < size)%nat) imids).
  { destruct (randint_range g size n) as [Hl Hr]. unfold imids. split.
    - rewrite merge_sort_Permutation. exact Hl.
    - rewrite merge_sort_Permutation. apply Hr, Hsize. }
  assert (Hrowids : length rowids = n /\ Forall (fun i => (i < H - p0)%nat) rowids).
  { destruct (randint_range g1 (H - p0) n) as [Hl Hr]. split; [exact Hl|apply Hr; lia]. }
  assert (Hcolids : length colids = n /\ Forall (fun i => (i < W - p1)%nat) colids).
  { destruct (randint_range g2 (W - p1) n) as [Hl Hr]. split; [exact Hl|apply Hr; lia]. }
  assert (Hnth : forall (l : list nat) (b i : nat),
            length l = n -> Forall (fun k => (k < b)%nat) l -> (i < n)%nat ->
            (nth i l 0 < b)%nat).
  { intros l b i Hl Hall Hi. rewrite Forall_forall in Hall. apply Hall, nth_In. lia. }
  set (val := fun i => PatchExtractor.window (image_at (nth i imids 0%nat)) 1 W
                         (nth i rowids 0%nat) (nth i colids 0%nat) p0 p1).
  set (patches0 := map uninit (seq 0 n)).
  rewrite (foldM_invariant
             (fun st : PatchExtractor.sample_state G =>
                snd (fst st) = g3 /\ length (snd st) = n
                /\ match fst (fst st) with
                   | Some (c, im) => im = image_at c
                   | None => True
                   end)
             _ (fun st i => (Some (nth i imids 0%nat, image_at (nth i imids 0%nat)), g3,
                             <[i := val i]> (snd st)))).
  - cbn [bind].
    exists (fold_left (fun (ps : list (list Q)) i => <[i := val i]> ps) (seq 0 n) patches0), g3.
    split.
    { f_equal. f_equal.
      - apply (fold_left_snd _ (fun (ps : list (list Q)) i => <[i := val i]> ps) snd).
        intros; reflexivity.
      - etransitivity;
          [apply (fold_left_snd _ (fun (g0 : G) (_ : nat) => g3) (fun st => snd (fst st)));
           intros; reflexivity|].
        cbn [fst snd]. generalize (seq 0 n) as l.
        induction l as [|a l IH]; [reflexivity|exact IH]. }
    split; [exact Hn1|].
    destruct (fold_insert_spec (fun i : nat => i) val [] (seq 0 n) patches0)
      as (Hlen & Hval & _).
    { rewrite map_id. apply NoDup_ListNoDup, NoDup_seq. }
    { intros a Ha. apply in_seq in Ha. unfold patches0.
      rewrite length_map, length_seq. lia. }
    cbv zeta in Hlen, Hval.
    split; [rewrite Hlen; unfold patches0; rewrite length_map, length_seq; reflexivity|].
    intros i Hi. rewrite (Hval i) by (apply in_seq; lia).
    pose proof (Hnth imids size i (proj1 Himids) (proj2 Himids) Hi) as Hid.
    pose proof (Hnth rowids (H - p0)%nat i (proj1 Hrowids) (proj2 Hrowids) Hi) as Hr.
    pose proof (Hnth colids (W - p1)%nat i (proj1 Hcolids) (proj2 Hcolids) Hi) as Hc.
    exists (nth i imids 0%nat), (nth i rowids 0%nat), (nth i colids 0%nat).
    split; [exact Hid|]. split; [lia|]. split; [lia|].
    destruct (images_shape _ Hid) as (Hlead & Hwidth & Hrows & Hall).
    apply (window_spec (image_at (nth i imids 0%nat)) H W C Hwidth Hrows Hall); lia.
  - intros [[current g0] patches] i Hi (Hg & Hlen & Hcur). cbn [fst snd] in *.
    apply in_seq in Hi.
    pose proof (Hnth imids size i (proj1 Himids) (proj2 Himids) ltac:(lia)) as Hid.
    pose proof (Hnth rowids (H - p0)%nat i (proj1 Hrowids) (proj2 Hrowids) ltac:(lia)) as Hr.
    pose proof (Hnth colids (W - p1)%nat i (proj1 Hcolids) (proj2 Hcolids) ltac:(lia)) as Hc.
    assert (Him : match current with
                  | Some (current_im, im) =>
                      if (nth i imids 0 =? current_im)%nat then im
                      else image_at (nth i imids 0%nat)
                  | None => image_at (nth i imids 0%nat)
                  end = image_at (nth i imids 0%nat)).
    { destruct current as [[c im]|]; [|reflexivity].
      destruct (Nat.eqb_spec (nth i imids 0%nat) c) as [->|_]; [exact Hcur|reflexivity]. }
    unfold PatchExtractor.sample_step. rewrite Him. cbn [bind].
    rewrite flat_slice_inside by lia. cbn [bind].
    fold (val i). unfold PatchExtractor.assign_patch.
    destruct (images_shape _ Hid) as (Hlead & Hwidth & Hrows & Hall).
    destruct (window_spec (image_at (nth i imids 0%nat)) H W C Hwidth Hrows Hall
                (nth i rowids 0%nat) (nth i colids 0%nat) p0 p1) as [Hwl _]; [lia|lia|].
    cbv zeta in Hwl. fold (val i) in Hwl. rewrite Hwl, Nat.eqb_refl. cbn [bind].
    subst g0. split; [reflexivity|]. split; [reflexivity|].
    split; [rewrite length_insert; exact Hlen|reflexivity].
  - cbn [fst snd]. split; [reflexivity|]. split; [|exact I].
    unfold patches0. rewrite length_map, length_seq. reflexivity.
Qed.

(** X30: When [dim()] announces images that are not higher than the patch
    or not wider, or when the dataset is empty, [np.random.randint] is
    asked for a draw from an empty range and [sample] raises ValueError;
    this holds for images of exactly the size of the patch. *)
Theorem patch_sample_rejects_images_of_patch_size
    (g : G) (stride num_patches num_channels : nat) :
  (size = 0 \/ H <= p0 \/ W <= p1)%nat ->
  PatchExtractor.sample G randint SIZE size image_at num_channels (Some (H, W)) uninit
    inherited (PatchExtractor.mk [p0; p1] stride) g num_patches false
  = Raise ValueError.
Proof.
  clear randint_range images_shape. intros Hsmall.
  unfold PatchExtractor.sample, PatchExtractor.np_randint.
  destruct (Nat.eqb_spec size 0) as [_|Hsize]; [reflexivity|].
  cbn [bind item PatchExtractor.psize lookup list_lookup fst snd].
  destruct (Nat.eqb_spec (H - p0) 0) as [_|Hh]; [reflexivity|].
  cbn [bind fst snd].
  destruct (Nat.eqb_spec (W - p1) 0) as [_|Hw]; [reflexivity|].
  lia.
Qed.

End PatchSampleProperties.

(** * The further statements at concrete inputs *)

(** The side conditions at a concrete input are settled by evaluation. *)
Ltac by_evaluation :=
  solve [ reflexivity | discriminate | lia | simpl; lia | eexists; reflexivity
        | apply Qle_refl | intros; discriminate
        | left; simpl; lia | right; left; lia
        | intros; repeat split; solve [ reflexivity | repeat constructor ]
        | repeat constructor; try discriminate; vm_compute; congruence
        | repeat constructor ].

(** X1: [gemm] into a window of a larger buffer. *)
Lemma gemm_writes_product_into_out_witness :
  exists R,
    mathutil.gemm reference.exact 2 example.A example.B None (Some example.out) = Ok R
    /\ nd_dtype R = nd_dtype example.out /\ nd_shape R = nd_shape example.out
    /\ nd_strides R = nd_strides example.out /\ nd_offset R = nd_offset example.out
    /\ length (nd_data R) = length (nd_data example.out)
    /\ (forall p, (p < nd_offset example.out)%nat \/ (nd_offset example.out + 2 * 2 <= p)%nat ->
          nth p (nd_data R) 0 = nth p (nd_data example.out) 0)
    /\ forall i j, (i < 2)%nat -> (j < 2)%nat ->
         get2 R i j
         == nth j (nth i (mathutil.naive_gemm 2 2%nat 3%nat 2%nat (get2 example.A) (get2
             example.B)) []) 0.
Proof.
  apply (gemm_writes_product_into_out reference.exact 2 example.A example.B example.out 2 3 2);
    by_evaluation.
Defined.

(** X2: The transposition law on a column-major [A] and a row-major [B]. *)
Lemma dot_of_transposes_witness :
  exists R R',
    mathutil.dot reference.exact example.A example.B = Ok R /\ mathutil.dot reference.exact (T
        example.B) (T example.A) = Ok R'
    /\ nd_shape R = [2%nat; 2%nat] /\ nd_shape R' = [2%nat; 2%nat]
    /\ forall i j, (i < 2)%nat -> (j < 2)%nat -> get2 R' j i == get2 R i j.
Proof.
  apply (dot_of_transposes reference.exact example.A example.B 2 3 2); by_evaluation.
Defined.

(** X3: [dot_image] of two patches with the transposed dictionary. *)
Lemma dot_image_keeps_leading_shape_witness :
  if im_c_contiguous example.im then
    exists out, mathutil.dot_image reference.exact example.im (T example.D) = Ok out
      /\ im_shape out = im_lead example.im ++ [3%nat]
      /\ im_c_contiguous out = true
      /\ length (im_rows out) = prod (im_lead example.im)
      /\ forall r j, (r < prod (im_lead example.im))%nat -> (j < 3)%nat ->
           length (nth r (im_rows out) []) = 3%nat
           /\ nth j (nth r (im_rows out) []) 0
              == sumQ 2%nat (fun l => nth l (nth r (im_rows example.im) []) 0 * get2 (T
                  example.D) l j)
  else mathutil.dot_image reference.exact example.im (T example.D) = Raise TypeError.
Proof.
  apply (dot_image_keeps_leading_shape reference.exact example.im (T example.D) 2 3);
    by_evaluation.
Defined.

(** X4: [mpi_std] on two workers, seen from the worker of rank 1. *)
Lemma mpi_std_is_variance_witness :
  exists m covmat std,
    mathutil.mpi_mean example.world 1%nat = Ok m
    /\ mathutil.mpi_cov reference.exact example.world 1%nat = Ok covmat
    /\ mathutil.mpi_std example.world 1%nat = Ok std
    /\ length std = 2%nat
    /\ forall j, (j < 2)%nat ->
         nth j std 0 == global_cov example.world m j j /\ nth j std 0 == entry covmat j j.
Proof.
  apply (mpi_std_is_variance reference.exact example.world 1 2); by_evaluation.
Defined.

(** X5: Five rows in two batches fill a reservoir of five slots. *)
Lemma reservoir_fills_in_order_without_drawing_witness :
  exists s,
    (ReservoirSampler.consider_all (fun _ => []) nat reference.rand reference.randint) 0%nat
        (ReservoirSampler.__init__ 5%nat) example.batches = Ok (s, 0%nat)
    /\ ReservoirSampler.get s = Ok (Some (concat (map ReservoirSampler.rows example.batches))).
Proof.
  apply (reservoir_fills_in_order_without_drawing (fun _ => []) nat reference.rand
           reference.randint 5 0%nat [1%nat] example.batches); by_evaluation.
Defined.

(** X6: A batch of pairs after two batches of single entries. *)
Lemma reservoir_rejects_another_shape_witness :
  (ReservoirSampler.consider_all (fun _ => []) nat reference.rand reference.randint) 0%nat
      (ReservoirSampler.__init__ 2%nat) (example.batches ++ example.odd_batch :: []) = Raise
          ValueError.
Proof.
  apply (reservoir_rejects_another_shape (fun _ => []) nat reference.rand reference.randint
           reference_rand_nonneg reference_randint_range 2 0%nat [1%nat] example.batches []
           example.odd_batch); by_evaluation.
Defined.

(** X7: [MeanNormalizer] on two patches. *)
Lemma mean_normalizer_centres_every_patch_witness :
  exists out,
    MeanNormalizer.process (fun _ => true) example.im = Ok out
    /\ im_dtype out = Float64 /\ im_shape out = im_shape example.im
    /\ length (im_rows out) = length (im_rows example.im)
    /\ forall r, (r < length (im_rows example.im))%nat ->
         let x := nth r (im_rows example.im) [] in
         let y := nth r (im_rows out) [] in
         length y = im_width example.im
         /\ (forall j, (j < im_width example.im)%nat ->
               nth j y 0 == nth j x 0 - Qsum x / Qnat (im_width example.im))
         /\ Qsum y == 0.
Proof.
  apply (mean_normalizer_centres_every_patch (fun _ => true) example.im); by_evaluation.
Defined.

(** X8: [MeanvarNormalizer] with the default regulariser. *)
Lemma meanvar_normalizer_centres_and_scales_witness :
  exists out,
    MeanvarNormalizer.process reference.sqrt (fun _ _ => Raise TypeError) ∅ example.im = Ok out
    /\ im_dtype out = Float64 /\ im_shape out = im_shape example.im
    /\ length (im_rows out) = length (im_rows example.im)
    /\ forall r, (r < length (im_rows example.im))%nat ->
         let x := nth r (im_rows example.im) [] in
         let y := nth r (im_rows out) [] in
         let m := Qsum x / Qnat (im_width example.im) in
         let s := MeanvarNormalizer.std reference.sqrt (im_width example.im) x + float64_eps in
         length y = im_width example.im /\ 0 < s
         /\ forall j, (j < im_width example.im)%nat -> nth j y 0 * s == nth j x 0 - m.
Proof.
  apply (meanvar_normalizer_centres_and_scales reference.sqrt (fun _ _ => Raise TypeError)
           reference_sqrt_nonneg ∅ example.im float64_eps); by_evaluation.
Defined.

(** X9: [L2Normalizer] without regulariser on patches of norm 5. *)
Lemma l2_normalizer_output_in_unit_ball_witness :
  exists out,
    L2Normalizer.process reference.sqrt (fun _ im => (im, Raise TypeError)) example.no_reg
        example.pythagorean = (example.pythagorean, Ok out)
    /\ im_shape out = im_shape example.pythagorean
    /\ length (im_rows out) = length (im_rows example.pythagorean)
    /\ forall r, (r < length (im_rows example.pythagorean))%nat ->
         let x := nth r (im_rows example.pythagorean) [] in
         let y := nth r (im_rows out) [] in
         let norm := reference.sqrt (Qsum (map (fun a => a * a) x)) in
         let n2 := Qsum (map (fun a => a * a) y) in
         y = map (fun a => a / (norm + 0)) x
         /\ n2 == (norm * norm) / ((norm + 0) * (norm + 0))
         /\ n2 <= 1
         /\ (0 == 0 -> n2 == 1).
Proof.
  apply (l2_normalizer_output_in_unit_ball reference.sqrt (fun _ im => (im, Raise TypeError))
           example.no_reg example.pythagorean 0); by_evaluation.
Defined.

(** X10: [L2Normalizer] with a regulariser that is a string. *)
Lemma l2_normalizer_failure_leaves_image_flattened_witness :
  exists im',
    L2Normalizer.process reference.sqrt (fun _ im => (im, Raise TypeError)) example.bad_reg
        example.picture = (im', Raise TypeError)
    /\ im_shape im' = [prod (im_lead example.picture); im_width example.picture]
    /\ im_rows im' = im_rows example.picture.
Proof.
  apply (l2_normalizer_failure_leaves_image_flattened reference.sqrt
           (fun _ im => (im, Raise TypeError)) example.bad_reg example.picture TypeError);
    by_evaluation.
Defined.

(** X11: [L1Normalizer] without regulariser. *)
Lemma l1_normalizer_divides_by_plain_sum_witness :
  exists out,
    L1Normalizer.process (fun _ => true) example.no_reg example.pythagorean = Ok out
    /\ im_dtype out = im_dtype example.pythagorean /\ im_shape out = im_shape
        example.pythagorean
    /\ length (im_rows out) = length (im_rows example.pythagorean)
    /\ forall r, (r < length (im_rows example.pythagorean))%nat ->
         let x := nth r (im_rows example.pythagorean) [] in
         let y := nth r (im_rows out) [] in
         let d := Qsum x + 0 in
         ~ d == 0 ->
         y = map (fun a => a / d) x
         /\ Qsum y == (d - 0) / d
         /\ (0 == 0 -> Qsum y == 1).
Proof.
  apply (l1_normalizer_divides_by_plain_sum (fun _ => true) example.no_reg
           example.pythagorean 0); by_evaluation.
Defined.

(** X12: A patch of two positions and two channels. *)
Lemma spatial_meanvar_normalizer_divides_by_squared_norm_witness :
  exists out,
    SpatialMeanvarNormalizer.process (fun _ _ => Raise TypeError) (fun _ _ => Raise TypeError)
        example.two_channels example.two_positions = Ok out
    /\ im_dtype out = Float64 /\ im_shape out = im_shape example.two_positions
    /\ length (im_rows out) = length (im_rows example.two_positions)
    /\ forall r, (r < length (im_rows example.two_positions))%nat ->
         let x := nth r (im_rows example.two_positions) [] in
         let y := nth r (im_rows out) [] in
         let m := fun ch => sumQ 2%nat (fun k => nth (k * 2%nat + ch) x 0) / Qnat 2%nat in
         let n2 := sumQ (2%nat * 2%nat) (fun p => (nth p x 0 - m (p mod 2)%nat)
                                          * (nth p x 0 - m (p mod 2)%nat)) in
         length y = (2 * 2)%nat /\ 0 < n2 + float64_eps
         /\ forall k ch, (k < 2)%nat -> (ch < 2)%nat ->
              nth (k * 2%nat + ch) y 0 * (n2 + float64_eps)
              == nth (k * 2%nat + ch) x 0 - m ch.
Proof.
  apply (spatial_meanvar_normalizer_divides_by_squared_norm (fun _ _ => Raise TypeError)
           (fun _ _ => Raise TypeError) example.two_channels example.two_positions 2 2
           float64_eps); by_evaluation.
Defined.

(** X13: [LinearEncoderBW] on two patches of two features. *)
Lemma linear_encoder_bw_adds_offset_then_projects_witness :
  exists im' out,
    LinearEncoderBW.process reference.exact (fun _ im => (im, Raise TypeError)) example.linear
        example.im = (im', Ok out)
    /\ im_shape out = im_lead example.im ++ [2%nat]
    /\ length (im_rows out) = prod (im_lead example.im)
    /\ (forall r j, (r < prod (im_lead example.im))%nat -> (j < 2)%nat ->
          nth j (nth r (im_rows out) []) 0
          == sumQ 2%nat (fun l => (nth l (nth r (im_rows example.im) []) 0 + nth l [1; -1] 0) *
              entry [[1; 1]; [0; 2]] l j))
    /\ im_shape im' = im_shape example.im /\ im_dtype im' = im_dtype example.im
    /\ length (im_rows im') = length (im_rows example.im).
Proof.
  apply (linear_encoder_bw_adds_offset_then_projects reference.exact
           (fun _ im => (im, Raise TypeError)) example.linear example.im
           [[1; 1]; [0; 2]] [1; -1] 2 2); by_evaluation.
Defined.

(** X14: [LinearEncoderBW] on an image that is not C-contiguous. *)
Lemma linear_encoder_bw_failure_leaves_offset_witness :
  exists im',
    LinearEncoderBW.process reference.exact (fun _ im => (im, Raise TypeError)) example.linear
        example.strided_image = (im', Raise TypeError)
    /\ im_shape im' = im_shape example.strided_image
    /\ im_rows im' = map (fun row => zip_with Qplus row [1; -1]) (im_rows example.strided_image).
Proof.
  apply (linear_encoder_bw_failure_leaves_offset reference.exact
           (fun _ im => (im, Raise TypeError)) example.linear example.strided_image
           [[1; 1]; [0; 2]] [1; -1]); by_evaluation.
Defined.

(** X15: [LinearEncoderWB] on two patches of two features. *)
Lemma linear_encoder_wb_projects_then_adds_offset_witness :
  exists out,
    LinearEncoderWB.process reference.exact (fun _ _ => Raise TypeError) example.linear
        example.im = Ok out
    /\ im_shape out = im_lead example.im ++ [2%nat]
    /\ length (im_rows out) = prod (im_lead example.im)
    /\ forall r j, (r < prod (im_lead example.im))%nat -> (j < 2)%nat ->
         nth j (nth r (im_rows out) []) 0
         == sumQ 2%nat (fun l => nth l (nth r (im_rows example.im) []) 0 * entry [[1; 1]; [0;
             2]] l j) + nth j [1; -1] 0.
Proof.
  apply (linear_encoder_wb_projects_then_adds_offset reference.exact
           (fun _ _ => Raise TypeError) example.linear example.im
           [[1; 1]; [0; 2]] [1; -1] 2 2); by_evaluation.
Defined.

(** X16: A [ReLUEncoder] built with a threshold of 5. *)
Lemma relu_encoder_is_positive_part_of_inner_product_witness :
  let built := ReLUEncoder.__init__ example.one_side None in
  let self := FeatureEncoder.mk (FeatureEncoder.specs built) (FeatureEncoder.trainer built)
                (Some (DMatrix example.D)) in
  exists ip out,
    InnerProductEncoder.process reference.exact self example.im = Ok ip
    /\ ThresholdEncoder.process reference.exact self example.im = Ok out
    /\ im_shape ip = im_lead example.im ++ [3%nat] /\ im_shape out = im_shape ip
    /\ length (im_rows out) = length (im_rows ip)
    /\ forall r j, (r < prod (im_lead example.im))%nat -> (j < 3)%nat ->
         nth j (nth r (im_rows ip) []) 0
         == sumQ 2%nat (fun l => nth l (nth r (im_rows example.im) []) 0 * get2 example.D j l)
         /\ nth j (nth r (im_rows out) []) 0 == Qmax (nth j (nth r (im_rows ip) []) 0) 0.
Proof.
  apply (relu_encoder_is_positive_part_of_inner_product reference.exact example.one_side
           None example.D example.im 3 2); by_evaluation.
Defined.

(** X17: [TriangleEncoder] on two patches and three dictionary entries. *)
Lemma triangle_encoder_activations_witness :
  exists dist out,
    VQEncoder.euclidean_distances reference.sqrt (image_2d example.im) example.D = Ok dist
    /\ TriangleEncoder.process reference.sqrt example.threshold example.im = Ok out
    /\ im_shape out = im_lead example.im ++ [3%nat]
    /\ length (im_rows out) = prod (im_lead example.im)
    /\ forall r, (r < prod (im_lead example.im))%nat ->
         let ds := nth r dist [] in
         let y := nth r (im_rows out) [] in
         length y = 3%nat
         /\ (forall j, (j < 3)%nat ->
               nth j y 0 = Qmax 0 (Qsum ds / Qnat 3%nat - nth j ds 0) /\ 0 <= nth j y 0)
         /\ exists j, (j < 3)%nat /\ nth j y 0 == 0.
Proof.
  apply (triangle_encoder_activations reference.sqrt example.threshold example.im
           example.D 3 2); by_evaluation.
Defined.

(** X18: [VQEncoder] on the patches [0] and [1] and the centroids [0] and [1]. *)
Lemma vq_encoder_marks_winners_of_whole_batch_witness :
  exists dist idx out,
    VQEncoder.euclidean_distances reference.sqrt (image_2d vq_batch) vq_dictionary = Ok dist
    /\ mapM argmin dist = Ok idx
    /\ length idx = prod (im_lead vq_batch)
    /\ (forall r, (r < prod (im_lead vq_batch))%nat ->
          (nth r idx 0 < 2)%nat
          /\ forall j, (j < 2)%nat ->
               nth (nth r idx 0%nat) (nth r dist []) 0 <= nth j (nth r dist []) 0)
    /\ VQEncoder.process reference.sqrt vq_encoder vq_batch = Ok out
    /\ im_shape out = im_lead vq_batch ++ [2%nat]
    /\ length (im_rows out) = prod (im_lead vq_batch)
    /\ (forall r j, (r < prod (im_lead vq_batch))%nat -> (j < 2)%nat ->
          nth j (nth r (im_rows out) []) 0 = if existsb (Nat.eqb j) idx then 1 else 0)
    /\ (forall k, idx = [k] ->
          forall j, (j < 2)%nat ->
            nth j (nth 0 (im_rows out) []) 0 = if (j =? k)%nat then 1 else 0).
Proof.
  apply (vq_encoder_marks_winners_of_whole_batch reference.sqrt vq_encoder vq_batch
           vq_dictionary 2 1); by_evaluation.
Defined.

(** X19: Patches of [2 x 2] pixels of a [3 x 3] image. *)
Lemma patch_extractor_dense_windows_witness :
  let nh := (3 + 1 - 2)%nat in
  let nw := (3 + 1 - 2)%nat in
  exists out,
    PatchExtractor.process (fun _ => []) (PatchExtractor.__init__ (inr [2%nat; 2%nat]) 1)
        example.picture = Ok out
    /\ im_dtype out = Float64
    /\ im_shape out = [nh; nw; (2 * 2 * 1)%nat]
    /\ length (im_rows out) = (nh * nw)%nat
    /\ forall a b, (a < nh)%nat -> (b < nw)%nat ->
         let cell := nth (a * nw + b) (im_rows out) [] in
         length cell = (2 * 2 * 1)%nat
         /\ forall di dj c, (di < 2)%nat -> (dj < 2)%nat -> (c < 1)%nat ->
              nth ((di * 2%nat + dj) * 1%nat + c) cell 0
              = nth c (nth ((a + di) * 3%nat + (b + dj)) (im_rows example.picture) []) 0.
Proof.
  apply (patch_extractor_dense_windows (fun _ => []) example.picture 3 3 1); by_evaluation.
Defined.

(** X20: Single pixels of a [3 x 3] image with stride 2. *)
Lemma patch_extractor_stride_overruns_grid_witness :
  PatchExtractor.process (fun _ => []) (PatchExtractor.__init__ (inr [1%nat; 1%nat]) 2%nat)
      example.picture
  = Raise IndexError.
Proof.
  apply (patch_extractor_stride_overruns_grid (fun _ => []) example.picture 3 3 1); by_evaluation.
Defined.


(** X24: Averages over the one [2 x 2] window of a [3 x 3] image that is pooled. *)
Lemma kernel_pooler_averages_weighted_windows_witness :
  let gh := ((3 - 2) / 1)%nat in
  let gw := ((3 - 2) / 1)%nat in
  let oh := ((3 - (gh * 1 + 2)) / 2)%nat in
  let ow := ((3 - (gw * 1 + 2)) / 2)%nat in
  exists out,
    KernelPooler.process reference.sqrt (fun _ _ => Raise TypeError) (KernelPooler.mk
        (example.ones 2) (1%nat, 1%nat) KernelPooler.Ave) example.picture
    = Ok out
    /\ im_dtype out = Float64 /\ im_shape out = [gh; gw; 1%nat]
    /\ length (im_rows out) = (gh * gw)%nat
    /\ forall i j, (i < gh)%nat -> (j < gw)%nat ->
         (oh + 1 * i + 2 <= 3)%nat /\ (ow + 1 * j + 2 <= 3)%nat
         /\ length (nth (i * gw + j) (im_rows out) []) = 1%nat
         /\ forall c, (c < 1)%nat ->
              nth c (nth (i * gw + j) (im_rows out) []) 0
              == sumQ 2%nat (fun di => sumQ 2%nat (fun dj =>
                   get2 (example.ones 2) di dj
                   * nth c (nth ((oh + 1%nat * i + di) * 3%nat + (ow + 1%nat * j + dj))
                                (im_rows example.picture) []) 0))
                 / Qnat (2%nat * 2%nat).
Proof.
  apply (kernel_pooler_averages_weighted_windows reference.sqrt (fun _ _ => Raise TypeError)
           example.picture 3 3 1 (example.ones 2) 2 2 1 1); by_evaluation.
Defined.

(** X25: Maxima over windows of one pixel. *)
Lemma kernel_pooler_max_of_weighted_windows_witness :
  let gh := ((3 - 1) / 1)%nat in
  let gw := ((3 - 1) / 1)%nat in
  let oh := ((3 - (gh * 1 + 1)) / 2)%nat in
  let ow := ((3 - (gw * 1 + 1)) / 2)%nat in
  exists out,
    KernelPooler.process reference.sqrt (fun _ _ => Raise TypeError) (KernelPooler.mk
        (example.ones 1) (1%nat, 1%nat) KernelPooler.Max) example.picture
    = Ok out
    /\ im_shape out = [gh; gw; 1%nat]
    /\ length (im_rows out) = (gh * gw)%nat
    /\ forall i j c, (i < gh)%nat -> (j < gw)%nat -> (c < 1)%nat ->
         let weighted := fun di dj =>
           get2 (example.ones 1) di dj
           * nth c (nth ((oh + 1%nat * i + di) * 3%nat + (ow + 1%nat * j + dj)) (im_rows
               example.picture) []) 0 in
         let v := nth c (nth (i * gw + j) (im_rows out) []) 0 in
         (forall di dj, (di < 1)%nat -> (dj < 1)%nat -> weighted di dj <= v)
         /\ exists di dj, (di < 1)%nat /\ (dj < 1)%nat /\ v == weighted di dj.
Proof.
  apply (kernel_pooler_max_of_weighted_windows reference.sqrt (fun _ _ => Raise TypeError)
           example.picture 3 3 1 (example.ones 1) 1 1 1 1); by_evaluation.
Defined.

(** X26: A kernel of the size of the image. *)
Lemma kernel_pooler_no_cell_without_a_stride_of_margin_witness :
  KernelPooler.process reference.sqrt (fun _ _ => Raise TypeError) (KernelPooler.mk
      (example.ones 3) (1%nat, 1%nat) KernelPooler.Ave) example.picture
  = Ok (mk_image Float64 true [0%nat; ((3 - 3) / 1)%nat]
          match KernelPooler.Ave with
          | KernelPooler.Custom dim _ => dim 1%nat
          | _ => 1%nat
          end []).
Proof.
  apply (kernel_pooler_no_cell_without_a_stride_of_margin reference.sqrt
           (fun _ _ => Raise TypeError) example.picture 3 3 1 (example.ones 3) 3 3 1 1);
    by_evaluation.
Defined.

(** X27: A kernel of [4 x 4] weights on a [3 x 3] image. *)
Lemma kernel_pooler_rejects_kernel_larger_than_image_witness :
  KernelPooler.process reference.sqrt (fun _ _ => Raise TypeError) (KernelPooler.mk
      (example.ones 4) (1%nat, 1%nat) KernelPooler.Ave) example.picture = Raise ValueError.
Proof.
  apply (kernel_pooler_rejects_kernel_larger_than_image reference.sqrt
           (fun _ _ => Raise TypeError) example.picture 3 3 (example.ones 4) 4 4 1 1);
    by_evaluation.
Defined.

(** X28: Second-order pooling of an image of two channels. *)
Lemma kernel_pooler_custom_method_cannot_change_dimension_witness :
  KernelPooler.process reference.sqrt (fun _ _ => Raise TypeError)
    (KernelPooler.mk (example.ones 1) (1%nat, 1%nat) (KernelPooler.Custom (fun x => (x *
        x)%nat) (fun _ out => Ok out))) example.colour
  = Raise ValueError.
Proof.
  apply (kernel_pooler_custom_method_cannot_change_dimension reference.sqrt
           (fun _ _ => Raise TypeError) example.colour 2 2 2 (example.ones 1) 1 1 1 1);
    by_evaluation.
Defined.

(** X29: Three patches of [2 x 2] pixels from a dataset of two [3 x 3] images. *)
Lemma patch_sample_never_reaches_last_row_and_column_witness :
  let n := PatchExtractor.patches_per_worker 2%positive 5%nat in
  exists patches g',
    PatchExtractor.sample nat reference.randint 2%positive 2%nat (fun _ => example.picture)
        1%nat (Some (3%nat, 3%nat)) (fun _ => []) (fun _ => Raise TypeError)
      (PatchExtractor.mk [2%nat; 2%nat] 1%nat) 0%nat 5%nat false = Ok (patches, g')
    /\ (1 <= n)%nat /\ length patches = n
    /\ forall i, (i < n)%nat ->
         exists id r c,
           (id < 2)%nat /\ (r + 2 < 3)%nat /\ (c + 2 < 3)%nat
           /\ length (nth i patches []) = (2 * 2 * 1)%nat
           /\ forall di dj ch, (di < 2)%nat -> (dj < 2)%nat -> (ch < 1)%nat ->
                nth ((di * 2%nat + dj) * 1%nat + ch) (nth i patches []) 0
                = nth ch (nth ((r + di) * 3%nat + (c + dj)) (im_rows ((fun _ =>
                    example.picture) id)) []) 0.
Proof.
  apply (fun Hshape =>
           patch_sample_never_reaches_last_row_and_column nat reference.randint 2%positive 2
             (fun _ => example.picture) (fun _ => []) (fun _ => Raise TypeError) 3 3 1 2 2
             reference_randint_range Hshape 0%nat 1 5); by_evaluation.
Defined.

(** X30: Patches of the size of the images. *)
Lemma patch_sample_rejects_images_of_patch_size_witness :
  PatchExtractor.sample nat reference.randint 2%positive 2%nat (fun _ => example.picture) 1%nat
      (Some (3%nat, 3%nat)) (fun _ => [])
    (fun _ => Raise TypeError) (PatchExtractor.mk [3%nat; 3%nat] 1%nat) 0%nat 5%nat false
  = Raise ValueError.
Proof.
  apply (patch_sample_rejects_images_of_patch_size nat reference.randint 2%positive 2
           (fun _ => example.picture) (fun _ => []) (fun _ => Raise TypeError) 3 3 3 3 0%nat
           1 5 1); by_evaluation.
Defined.
